(** * compare-csv: the reconciliation engine of [src/App.tsx]

    A shallow embedding of [performComparison] and of its two helpers
    [normalizeValue] and [valuesAreEqual], together with the part of the
    JavaScript runtime they call: strings as sequences of UTF-16 code
    units, numbers as IEEE-754 binary64 values, [parseFloat],
    [Number.prototype.toString], [Math.round], [Math.pow], [Map] with its
    insertion order, and plain objects used as string-keyed records.

    Around the engine, the components that feed it and show its
    output: the parser of the upload ([FileUpload]), the column mapper
    ([ColumnMapper]), the results view ([ComparisonResults]) and the
    steps of [App], each as the state of the component with its
    handlers and the events that its rendering lets through. *)

From Stdlib Require Import ZArith NArith QArith Qround Qabs Qpower Bool List Ascii String Decimal Lia.
From Stdlib Require Import Floats.SpecFloat.
From stdpp Require Import base option list gmap.

Local Open Scope Z_scope.

(** ** JavaScript strings

    A string value is a finite sequence of 16-bit code units.  Literals
    of the source are written with [js], which maps every character of
    an ASCII literal to its code unit. *)

Abbreviation jsstring := (list N) (only parsing).

Module JSString.

Definition js (s : string) : jsstring :=
  List.map N_of_ascii (list_ascii_of_string s).

(** [WhiteSpace] and [LineTerminator] of ECMA-262: the code units that
    [String.prototype.trim] strips, that the regular expression [\s]
    matches and that [parseFloat] skips at the start of its argument. *)
Definition isWhiteSpace (c : N) : bool :=
  ((9 <=? c) && (c <=? 13) || (c =? 32) || (c =? 160) || (c =? 5760)
   || (8192 <=? c) && (c <=? 8202) || (c =? 8232) || (c =? 8233)
   || (c =? 8239) || (c =? 8287) || (c =? 12288) || (c =? 65279))%N.

Fixpoint trimStart (s : jsstring) : jsstring :=
  match s with
  | c :: s' => if isWhiteSpace c then trimStart s' else s
  | [] => []
  end.

Definition trimEnd (s : jsstring) : jsstring :=
  rev (trimStart (rev s)).

Definition trim (s : jsstring) : jsstring := trimEnd (trimStart s).

Fixpoint startsWith (s p : jsstring) {struct p} : bool :=
  match p, s with
  | [], _ => true
  | c :: p', d :: s' => (c =? d)%N && startsWith s' p'
  | _ :: _, [] => false
  end.

Definition endsWith (s p : jsstring) : bool :=
  startsWith (rev s) (rev p).

(** [s.slice(0, -n)]: all but the last [n] code units. *)
Definition sliceEnd (s : jsstring) (n : nat) : jsstring :=
  take (length s - n)%nat s.

(** [s.replace(/[...]/g, '')] for a character class: the code units of
    the class are deleted. *)
Definition removeAll (cls : N -> bool) (s : jsstring) : jsstring :=
  List.filter (fun c => negb (cls c)) s.

(** The class [[$€£¥₹]]: U+0024, U+20AC, U+00A3, U+00A5, U+20B9. *)
Definition isCurrency (c : N) : bool :=
  ((c =? 36) || (c =? 8364) || (c =? 163) || (c =? 165) || (c =? 8377))%N.

Definition isComma (c : N) : bool := (c =? 44)%N.

(** [String.prototype.toLowerCase], code unit by code unit, on the Basic
    Latin and Latin-1 Supplement blocks; the case pairs of the other
    Unicode blocks are not tabulated and those code units are kept. *)
Definition lowerCodeUnit (c : N) : N :=
  (if (65 <=? c) && (c <=? 90) then c + 32
   else if (192 <=? c) && (c <=? 222) && negb (c =? 215) then c + 32
   else c)%N.

Definition toLowerCase (s : jsstring) : jsstring := List.map lowerCodeUnit s.

(** [parts.join(sep)]. *)
Fixpoint join (sep : jsstring) (parts : list jsstring) : jsstring :=
  match parts with
  | [] => []
  | [p] => p
  | p :: ps => p ++ sep ++ join sep ps
  end.

Definition eqb (s t : jsstring) : bool := bool_decide (s = t).

End JSString.

(** ** JavaScript numbers

    A Number is an IEEE-754 binary64 value; [spec_float] with a 53-bit
    significand and [emax = 1024] is its specification, and every result
    of the operations below is in canonical form, so that two Numbers are
    the same value when they are the same term (up to the sign of zero,
    which the code never observes). *)

Module JSNumber.
Import JSString.

Abbreviation number := spec_float (only parsing).

Definition prec : Z := 53.
Definition emax : Z := 1024.

Definition mul : number -> number -> number := SFmul prec emax.
Definition div : number -> number -> number := SFdiv prec emax.
Definition sub : number -> number -> number := SFsub prec emax.
Definition abs : number -> number := SFabs.
Definition ltb : number -> number -> bool := SFltb.

#[global] Instance number_eq_dec : EqDecision spec_float.
Proof. solve_decision. Defined.

Definition isNaN (x : number) : bool :=
  match x with S754_nan => true | _ => false end.

Definition isFinite (x : number) : bool :=
  match x with S754_nan | S754_infinity _ => false | _ => true end.

(** The Number value of the decimal [(-1)^neg * m * 10^e]: the binary64
    value nearest to it, ties to even.  For [e < 0] the quotient
    [m / 10^(-e)] is rounded once, from the exact quotient and
    remainder. *)
Definition ofDecimal (neg : bool) (m : Z) (e : Z) : number :=
  match m with
  | Zpos p =>
      if 0 <=? e then binary_round prec emax neg (p * Z.to_pos (10 ^ e)) 0
      else
        let '(q, e', l) :=
          SFdiv_core_binary prec emax (Zpos p) 0 (10 ^ (- e)) 0 in
        binary_round_aux prec emax neg q e' l
  | _ => S754_zero neg
  end.

(** *** [parseFloat] *)

Definition isDigit (c : N) : bool := ((48 <=? c) && (c <=? 57))%N.

(** Reads the longest run of decimal digits at the start of [s]; [acc]
    is the value read so far and [n] the number of digits read. *)
Fixpoint readDigits (s : jsstring) (acc : Z) (n : Z) : Z * Z * jsstring :=
  match s with
  | c :: s' =>
      if isDigit c then readDigits s' (10 * acc + (Z.of_N c - 48)) (n + 1)
      else (acc, n, s)
  | [] => (acc, n, s)
  end.

(** [ExponentPart]: [e] or [E], an optional sign and at least one digit;
    when the part is incomplete the literal ends before it. *)
Definition readExponent (s : jsstring) : Z :=
  match s with
  | c :: s1 =>
      if ((c =? 101) || (c =? 69))%N then
        let '(sg, s2) :=
          match s1 with
          | d :: s2 =>
              if (d =? 43)%N then (1, s2)
              else if (d =? 45)%N then (-1, s2)
              else (1, s1)
          | [] => (1, s1)
          end in
        let '(v, n, _) := readDigits s2 0 0 in
        if n =? 0 then 0 else sg * v
      else 0
  | [] => 0
  end.

(** The longest prefix of [s] that is a [StrUnsignedDecimalLiteral],
    other than [Infinity], as a pair [(m, e)] standing for [m * 10^e]. *)
Definition readUnsigned (s : jsstring) : option (Z * Z) :=
  let '(ip, ni, s1) := readDigits s 0 0 in
  match s1 with
  | 46%N :: s2 =>
      let '(fp, nf, s3) := readDigits s2 ip 0 in
      if (ni =? 0) && (nf =? 0) then None
      else Some (fp, readExponent s3 - nf)
  | _ => if ni =? 0 then None else Some (ip, readExponent s1)
  end.

Definition parseSigned (neg : bool) (s : jsstring) : number :=
  if startsWith s (js "Infinity") then S754_infinity neg
  else match readUnsigned s with
       | Some (m, e) => ofDecimal neg m e
       | None => S754_nan
       end.

Definition parseFloat (s : jsstring) : number :=
  match trimStart s with
  | 43%N :: s' => parseSigned false s'
  | 45%N :: s' => parseSigned true s'
  | s' => parseSigned false s'
  end.

(** *** [Math.round] and [Math.pow]

    [Math.round x] is the integer nearest to [x], the one toward
    [+Infinity] when two are equally near; a result of zero keeps the
    sign of [x].  For [x = (-1)^s * m * 2^e] with [e < 0] that integer
    is [floor (x + 1/2)]. *)
Definition roundHalfUp (s : bool) (m : positive) (e : Z) : Z :=
  (2 * cond_Zopp s (Zpos m) + 2 ^ (- e)) / 2 ^ (1 - e).

Definition Math_round (x : number) : number :=
  match x with
  | S754_finite s m e =>
      if 0 <=? e then x
      else binary_normalize prec emax (roundHalfUp s m e) 0 s
  | _ => x
  end.

(** [Math.pow(10, p)] for an integer [p], taken to be the binary64
    value nearest to the power (it is the power itself for
    [0 <= p <= 22]). *)
Definition pow10 (p : Z) : number := ofDecimal false 1 p.

(** *** [Number.prototype.toString]

    The digits are the shortest decimal [s * 10^(n-k)], with [k] digits
    in [s], whose Number value is [x]; among several of that length the
    one nearest to [x], and the even [s] on a tie. *)

Definition valueQ (m : positive) (e : Z) : Q := inject_Z (Zpos m) * 2 ^ e.

Definition pow10Q (e : Z) : Q := 10 ^ e.

(** Moves an estimate [n] of the decimal exponent until
    [10^(n-1) <= v < 10^n]. *)
Fixpoint adjustExponent (fuel : nat) (v : Q) (n : Z) : Z :=
  match fuel with
  | O => n
  | S fuel' =>
      if Qle_bool (pow10Q n) v then adjustExponent fuel' v (n + 1)
      else if Qle_bool (pow10Q (n - 1)) v then n
      else adjustExponent fuel' v (n - 1)
  end.

Definition decimalExponent (m : positive) (e : Z) : Z :=
  adjustExponent 8 (valueQ m e)
    (((Zpos (digits2_pos m) + e) * 30103) / 100000).

(** The candidates with [k] digits and decimal point position [n]: the
    two integers around [v / 10^(n-k)], kept when they have [k] digits
    and their Number value is the one being printed. *)
Definition candidates (x : number) (v : Q) (k n : Z) : list (Z * Z) :=
  let s0 := Qfloor (v / pow10Q (n - k)) in
  List.filter
    (fun '(s, _) =>
       (10 ^ (k - 1) <=? s) && (s <? 10 ^ k)
       && bool_decide (ofDecimal false s (n - k) = x))
    [(s0, n); (s0 + 1, n)].

Definition distance (v : Q) (k : Z) (c : Z * Z) : Q :=
  Qabs (inject_Z (fst c) * pow10Q (snd c - k) - v).

Definition nearer (v : Q) (k : Z) (c best : Z * Z) : Z * Z :=
  match (distance v k c ?= distance v k best)%Q with
  | Lt => c
  | Eq => if Z.even (fst c) then c else best
  | Gt => best
  end.

Fixpoint shortest (fuel : nat) (x : number) (v : Q) (n0 k : Z) : Z * Z * Z :=
  match fuel with
  | O => (0, n0, k)
  | S fuel' =>
      match candidates x v k n0 ++ candidates x v k (n0 + 1) with
      | c :: cs =>
          let '(s, n) := List.fold_right (nearer v k) c cs in (s, n, k)
      | [] => shortest fuel' x v n0 (k + 1)
      end
  end.

Fixpoint digitsOfUint (u : Decimal.uint) : jsstring :=
  match u with
  | Nil => []
  | D0 u' => 48%N :: digitsOfUint u'
  | D1 u' => 49%N :: digitsOfUint u'
  | D2 u' => 50%N :: digitsOfUint u'
  | D3 u' => 51%N :: digitsOfUint u'
  | D4 u' => 52%N :: digitsOfUint u'
  | D5 u' => 53%N :: digitsOfUint u'
  | D6 u' => 54%N :: digitsOfUint u'
  | D7 u' => 55%N :: digitsOfUint u'
  | D8 u' => 56%N :: digitsOfUint u'
  | D9 u' => 57%N :: digitsOfUint u'
  end.

Definition digitsOfZ (z : Z) : jsstring := digitsOfUint (N.to_uint (Z.to_N z)).

Definition zeros (n : Z) : jsstring := replicate (Z.to_nat n) 48%N.

(** The layout of the digits [s] (there are [k] of them) with the
    decimal point after the [n]-th. *)
Definition layout (s n k : Z) : jsstring :=
  let ds := digitsOfZ s in
  if (k <=? n) && (n <=? 21) then ds ++ zeros (n - k)
  else if (0 <? n) && (n <=? 21) then
    take (Z.to_nat n) ds ++ js "." ++ drop (Z.to_nat n) ds
  else if (-6 <? n) && (n <=? 0) then js "0." ++ zeros (- n) ++ ds
  else
    let ex := js (if 0 <=? n - 1 then "e+" else "e-") ++ digitsOfZ (Z.abs (n - 1)) in
    if k =? 1 then ds ++ ex
    else take 1 ds ++ js "." ++ drop 1 ds ++ ex.

Definition toString (x : number) : jsstring :=
  match x with
  | S754_nan => js "NaN"
  | S754_zero _ => js "0"
  | S754_infinity s => (if s then js "-" else []) ++ js "Infinity"
  | S754_finite sg m e =>
      let '(s, n, k) :=
        shortest 17 (S754_finite false m e) (valueQ m e) (decimalExponent m e) 1 in
      (if sg then js "-" else []) ++ layout s n k
  end.

End JSNumber.

(** ** [Map<string, V>]

    A [Map] iterates in the order in which its keys were first inserted;
    [set] on a key that is present replaces the value where it stands. *)

Module JSMap.

Fixpoint set {V} (m : list (jsstring * V)) (key : jsstring) (value : V)
  : list (jsstring * V) :=
  match m with
  | [] => [(key, value)]
  | (k, v) :: m' =>
      if decide (k = key) then (k, value) :: m'
      else (k, v) :: set m' key value
  end.

Fixpoint get {V} (m : list (jsstring * V)) (key : jsstring) : option V :=
  match m with
  | [] => None
  | (k, v) :: m' => if decide (k = key) then Some v else get m' key
  end.

Definition keys {V} (m : list (jsstring * V)) : list jsstring := m.*1.

End JSMap.

(** ** The data of [App.tsx] *)

Import JSString JSNumber.

Record CSVData := {
  headers : list jsstring;
  rows : list (list jsstring)
}.

Record ColumnMapping := {
  sourceColumn : jsstring;
  compareColumn : jsstring
}.

Inductive RowType :=
  | Match
  | Different
  | MissingInCompare
  | MissingInSource.

#[global] Instance RowType_eq_dec : EqDecision RowType.
Proof. solve_decision. Defined.

(** An object [{ [key: string]: string }]: a finite map from column
    names to cells.  Column names are taken not to clash with the
    members every object inherits. *)
Abbreviation record := (gmap (list N) (list N)) (only parsing).

Record UnifiedEntry := {
  source : jsstring;
  compare : jsstring;
  isDifferent : bool
}.

Record ComparisonRow := {
  type : RowType;
  sourceData : option record;
  compareData : option record;
  differences : option (list jsstring);
  unifiedData : option (gmap (list N) UnifiedEntry)
}.

Record ComparisonSettings := {
  numericPrecision : Z;
  ignoreCase : bool;
  trimWhitespace : bool
}.

(** [x || ''] for a string or [undefined]. *)
Definition orEmpty (x : option jsstring) : jsstring := default [] x.

(** Truthiness of a string: it is not empty. *)
Definition truthy (s : jsstring) : bool :=
  match s with [] => false | _ => true end.

(** [!value || value.trim() === ''] *)
Definition isBlank (value : jsstring) : bool :=
  negb (truthy value) || JSString.eqb (trim value) [].

(** [!isNaN(numValue) && isFinite(numValue)] *)
Definition isNumeric (numValue : number) : bool :=
  negb (isNaN numValue) && isFinite numValue.

(** ** [performComparison]

    The closure reads [comparisonSettings] from the component state;
    the two uploaded files are passed to [results] and
    [performComparison] as arguments. *)

Section PerformComparison.

Variable comparisonSettings : ComparisonSettings.

(** [Math.round(numValue * Math.pow(10, p)) / Math.pow(10, p)]. *)
Definition rounded (numValue : number) (p : Z) : number :=
  div (Math_round (mul numValue (pow10 p))) (pow10 p).

(** The value after the optional trim and the removal of a final [.0]. *)
Definition trimmedValue (value : jsstring) : jsstring :=
  let trimmedValue :=
    if trimWhitespace comparisonSettings then trim value else value in
  if endsWith trimmedValue (js ".0") then sliceEnd trimmedValue 2
  else trimmedValue.

Definition cleanedValue (trimmedValue : jsstring) : jsstring :=
  let cleanedValue := removeAll isCurrency trimmedValue in
  let cleanedValue := removeAll isComma cleanedValue in
  removeAll isWhiteSpace cleanedValue.

Definition normalizeValue (value : jsstring) (precision : option Z)
    (ignoreCase_ : option bool) : jsstring :=
  if isBlank value then []
  else
    let trimmedValue := trimmedValue value in
    let numValue := parseFloat (cleanedValue trimmedValue) in
    if isNumeric numValue then
      match precision with
      | Some precision =>
          if 0 <=? precision then toString (rounded numValue precision)
          else
            let defaultPrecision := numericPrecision comparisonSettings in
            toString (rounded numValue defaultPrecision)
      | None =>
          let defaultPrecision := numericPrecision comparisonSettings in
          toString (rounded numValue defaultPrecision)
      end
    else
      let shouldIgnoreCase :=
        match ignoreCase_ with
        | Some b => b
        | None => ignoreCase comparisonSettings
        end in
      if shouldIgnoreCase then toLowerCase trimmedValue else trimmedValue.

Definition valuesAreEqual (val1 val2 : jsstring) : bool :=
  let normalized1 :=
    normalizeValue val1 (Some (numericPrecision comparisonSettings))
      (Some (ignoreCase comparisonSettings)) in
  let normalized2 :=
    normalizeValue val2 (Some (numericPrecision comparisonSettings))
      (Some (ignoreCase comparisonSettings)) in
  let num1 := parseFloat normalized1 in
  let num2 := parseFloat normalized2 in
  if negb (isNaN num1) && negb (isNaN num2) then
    let precision := pow10 (- numericPrecision comparisonSettings) in
    ltb (abs (sub num1 num2)) precision
  else JSString.eqb normalized1 normalized2.

(** [headers.forEach((header, index) => rowData[header] = row[index] || '')]. *)
Definition rowData (headers : list jsstring) (row : list jsstring) : record :=
  foldl (fun rowData '(index, header) =>
           <[header := orEmpty (row !! index)]> rowData)
        ∅ (imap pair headers).

(** The key of a record: the normalized values of the mapped columns
    ([column] selects the side), joined with [|]. *)
Definition keyOf (column : ColumnMapping -> jsstring)
    (mappings : list ColumnMapping) (rowData : record) : jsstring :=
  let keyParts :=
    List.map
      (fun mapping =>
         let value := orEmpty (rowData !! column mapping) in
         normalizeValue value (Some (numericPrecision comparisonSettings))
           (Some (ignoreCase comparisonSettings)))
      mappings in
  join (js "|") keyParts.

(** [file.rows.forEach(row => ... map.set(key, rowData))]: the two loops
    of the source differ only in the file and in the side of the
    mapping. *)
Definition indexRows (file : CSVData) (column : ColumnMapping -> jsstring)
    (mappings : list ColumnMapping) : list (jsstring * record) :=
  foldl (fun map row =>
           let rowData := rowData (headers file) row in
           JSMap.set map (keyOf column mappings rowData) rowData)
        [] (rows file).

Definition sourceMap (sourceFile : CSVData) (mappings : list ColumnMapping) :=
  indexRows sourceFile sourceColumn mappings.

Definition compareMap (compareFile : CSVData) (mappings : list ColumnMapping) :=
  indexRows compareFile compareColumn mappings.

(** The body of [mappings.forEach] for a key present on both sides:
    the state is the pair of [differences] and [unifiedData]. *)
Definition compareColumns (sourceRow compareRow : record)
    (st : list jsstring * gmap (list N) UnifiedEntry) (mapping : ColumnMapping)
  : list jsstring * gmap (list N) UnifiedEntry :=
  let '(differences, unifiedData) := st in
  let sourceValue := orEmpty (sourceRow !! sourceColumn mapping) in
  let compareValue := orEmpty (compareRow !! compareColumn mapping) in
  let areEqual := valuesAreEqual sourceValue compareValue in
  let unifiedData :=
    <[sourceColumn mapping :=
        {| source := sourceValue; compare := compareValue;
           isDifferent := negb areEqual |}]> unifiedData in
  if negb areEqual && (truthy sourceValue || truthy compareValue)
  then (differences ++ [sourceColumn mapping], unifiedData)
  else (differences, unifiedData).

Definition matchedRow (mappings : list ColumnMapping)
    (sourceRow compareRow : record) : ComparisonRow :=
  let '(differences, unifiedData) :=
    foldl (compareColumns sourceRow compareRow) ([], ∅) mappings in
  {| type := if (0 <? length differences)%nat then Different else Match;
     sourceData := Some sourceRow;
     compareData := Some compareRow;
     differences :=
       if (0 <? length differences)%nat then Some differences else None;
     unifiedData := Some unifiedData |}.

(** [sourceMap.forEach((sourceRow, key) => ...)]: the state is the pair
    of [results] and [processedKeys]. *)
Definition sourceStep (mappings : list ColumnMapping)
    (compareMap : list (jsstring * record))
    (st : list ComparisonRow * gset (list N)) (entry : jsstring * record)
  : list ComparisonRow * gset (list N) :=
  let '(results, processedKeys) := st in
  let '(key, sourceRow) := entry in
  let processedKeys := {[key]} ∪ processedKeys in
  match JSMap.get compareMap key with
  | None =>
      (results ++
         [{| type := MissingInCompare; sourceData := Some sourceRow;
             compareData := None; differences := None;
             unifiedData := None |}],
       processedKeys)
  | Some compareRow =>
      (results ++ [matchedRow mappings sourceRow compareRow], processedKeys)
  end.

(** [compareMap.forEach((compareRow, key) => ...)]. *)
Definition compareStep (processedKeys : gset (list N))
    (results : list ComparisonRow) (entry : jsstring * record)
  : list ComparisonRow :=
  let '(key, compareRow) := entry in
  if bool_decide (key ∈ processedKeys) then results
  else
    results ++
      [{| type := MissingInSource; sourceData := None;
          compareData := Some compareRow; differences := None;
          unifiedData := None |}].

(** The array handed to [setComparisonResults]. *)
Definition results (sourceFile compareFile : CSVData)
    (mappings : list ColumnMapping) : list ComparisonRow :=
  let sourceMap := sourceMap sourceFile mappings in
  let compareMap := compareMap compareFile mappings in
  let '(results, processedKeys) :=
    foldl (sourceStep mappings compareMap) ([], ∅) sourceMap in
  foldl (compareStep processedKeys) results compareMap.

(** [performComparison] returns at once, leaving the state as it is,
    unless both files have been uploaded. *)
Definition performComparison (sourceFile compareFile : option CSVData)
    (mappings : list ColumnMapping) : option (list ComparisonRow) :=
  match sourceFile, compareFile with
  | Some sourceFile, Some compareFile =>
      Some (results sourceFile compareFile mappings)
  | _, _ => None
  end.

End PerformComparison.

Definition defaultSettings : ComparisonSettings :=
  {| numericPrecision := 2; ignoreCase := true; trimWhitespace := true |}.


(** ** Notions the statements are written with *)

(** The join keys of the rows of a table, in row order. *)
Definition keysOf (comparisonSettings : ComparisonSettings) (file : CSVData)
    (column : ColumnMapping -> jsstring) (mappings : list ColumnMapping)
  : list jsstring :=
  List.map
    (fun row => keyOf comparisonSettings column mappings (rowData (headers file) row))
    (rows file).

(** The distinct elements of a list, each at the place where it first
    occurs. *)
Fixpoint firstOccurrences (l : list jsstring) : list jsstring :=
  match l with
  | [] => []
  | k :: l' => k :: filter (fun k' => k' ≠ k) (firstOccurrences l')
  end.

Definition countType (t : RowType) (rs : list ComparisonRow) : nat :=
  length (filter (fun r => type r = t) rs).

Definition missingInCompareRow (sourceRow : record) : ComparisonRow :=
  {| type := MissingInCompare; sourceData := Some sourceRow;
     compareData := None; differences := None; unifiedData := None |}.

Definition missingInSourceRow (compareRow : record) : ComparisonRow :=
  {| type := MissingInSource; sourceData := None;
     compareData := Some compareRow; differences := None;
     unifiedData := None |}.

(** The row pushed for an entry of the source index. *)
Definition sourceRowResult (comparisonSettings : ComparisonSettings)
    (mappings : list ColumnMapping) (compareMap : list (jsstring * record))
    (entry : jsstring * record) : ComparisonRow :=
  match JSMap.get compareMap entry.1 with
  | None => missingInCompareRow entry.2
  | Some compareRow => matchedRow comparisonSettings mappings entry.2 compareRow
  end.



(** Whether a mapped pair of cells compares unequal, and the entry of
    the unified view written for it. *)
Definition areDifferent (comparisonSettings : ComparisonSettings)
    (sourceRow compareRow : record) (mapping : ColumnMapping) : bool :=
  negb (valuesAreEqual comparisonSettings
          (orEmpty (sourceRow !! sourceColumn mapping))
          (orEmpty (compareRow !! compareColumn mapping))).

Definition unifiedEntry (comparisonSettings : ComparisonSettings)
    (sourceRow compareRow : record) (mapping : ColumnMapping) : UnifiedEntry :=
  {| source := orEmpty (sourceRow !! sourceColumn mapping);
     compare := orEmpty (compareRow !! compareColumn mapping);
     isDifferent := areDifferent comparisonSettings sourceRow compareRow mapping |}.

(** The unified view has an entry for [column] whose [isDifferent] is
    set. *)
Definition isFlagged (unifiedData : gmap (list N) UnifiedEntry)
    (column : jsstring) : bool :=
  match unifiedData !! column with
  | Some entry => isDifferent entry
  | None => false
  end.

(** The precision [normalizeValue] rounds with, and the case folding
    it applies on the non-numeric path. *)
Definition effectivePrecision (comparisonSettings : ComparisonSettings)
    (precision : option Z) : Z :=
  match precision with
  | Some precision =>
      if 0 <=? precision then precision
      else numericPrecision comparisonSettings
  | None => numericPrecision comparisonSettings
  end.

Definition caseFolded (comparisonSettings : ComparisonSettings)
    (ignoreCase_ : option bool) (s : jsstring) : jsstring :=
  if match ignoreCase_ with
     | Some b => b
     | None => ignoreCase comparisonSettings
     end
  then toLowerCase s else s.




(** One [map.set(key, rowData)] of the index loops, for rows with key
    [kf] and payload [vf]; and one write into [unifiedData]. *)
Definition indexStep {A V} (kf : A → jsstring) (vf : A → V)
    (m : list (jsstring * V)) (x : A) : list (jsstring * V) :=
  JSMap.set m (kf x) (vf x).

Definition writeEntry (comparisonSettings : ComparisonSettings)
    (sourceRow compareRow : record) (ud : gmap (list N) UnifiedEntry)
    (m : ColumnMapping) : gmap (list N) UnifiedEntry :=
  <[sourceColumn m := unifiedEntry comparisonSettings sourceRow compareRow m]> ud.



(** ** Tables used as examples *)

Definition mapping (a b : string) : ColumnMapping :=
  {| sourceColumn := js a; compareColumn := js b |}.

(** Two source rows whose [id] normalizes to ["1"], and a third one. *)
Definition duplicateSource : CSVData :=
  {| headers := [js "id"; js "name"];
     rows := [[js "1.0"; js "first"]; [js "1.00"; js "second"];
              [js "2"; js "third"]] |}.

Definition duplicateCompare : CSVData :=
  {| headers := [js "id"; js "name"]; rows := [[js "1"; js "other"]] |}.

Definition idMapping : list ColumnMapping := [mapping "id" "id"].

(** One source column mapped three times, with cells that hold the
    separator of the join key. *)
Definition repeatedSource : CSVData :=
  {| headers := [js "a"]; rows := [[js "p|p"]] |}.

Definition repeatedCompare : CSVData :=
  {| headers := [js "x"; js "y"; js "z"];
     rows := [[js "p"; js "p|p|p"; js "p|p"]] |}.

Definition repeatedMapping : list ColumnMapping :=
  [mapping "a" "x"; mapping "a" "y"; mapping "a" "z"].

(** Two distinct source columns; the keys agree and the cells differ. *)
Definition shiftedSource : CSVData :=
  {| headers := [js "a"; js "b"]; rows := [[js "p|q"; js "r"]] |}.

Definition shiftedCompare : CSVData :=
  {| headers := [js "x"; js "y"]; rows := [[js "p"; js "q|r"]] |}.

Definition shiftedMapping : list ColumnMapping :=
  [mapping "a" "x"; mapping "b" "y"].

(** ** Notions for the further properties *)



(** The fields an output row has, by type. *)
Definition rowShape (r : ComparisonRow) : Prop :=
  match type r with
  | Match =>
      is_Some (sourceData r) ∧ is_Some (compareData r)
      ∧ differences r = None ∧ is_Some (unifiedData r)
  | Different =>
      is_Some (sourceData r) ∧ is_Some (compareData r)
      ∧ (∃ ds, differences r = Some ds ∧ ds ≠ []) ∧ is_Some (unifiedData r)
  | MissingInCompare =>
      is_Some (sourceData r) ∧ compareData r = None
      ∧ differences r = None ∧ unifiedData r = None
  | MissingInSource =>
      sourceData r = None ∧ is_Some (compareData r)
      ∧ differences r = None ∧ unifiedData r = None
  end.

Definition isInfinite (x : number) : bool :=
  match x with S754_infinity _ => true | _ => false end.

(** The normalized value of the cell a mapping entry selects in a
    record: the part of the join key that the entry contributes. *)
Definition normalizedCell (comparisonSettings : ComparisonSettings)
    (column : ColumnMapping → jsstring) (d : record) (mapping : ColumnMapping)
  : jsstring :=
  normalizeValue comparisonSettings (orEmpty (d !! column mapping))
    (Some (numericPrecision comparisonSettings))
    (Some (ignoreCase comparisonSettings)).

(** The separator of the join key, U+007C. *)
Definition separator : N := 124%N.

(** ** The column mapper of [ColumnMapper.tsx]

    The state of the component is its list of mappings and the source
    column that is selected, if any; the mappings start as the
    automatic ones, which the effect installs when the component is
    mounted. *)

Module ColumnMapper.

(** [s.includes(t)]: [t] occurs in [s]. *)
Definition includes (s t : jsstring) : bool :=
  existsb (λ i, startsWith (drop i s) t) (seq 0 (S (length s))).

(** Truthiness of a string or [undefined]. *)
Definition truthyOpt (x : option jsstring) : bool :=
  match x with Some s => truthy s | None => false end.

(** The body of [sourceHeaders.forEach] in the effect: the mapping
    found for a source column, if any. *)
Definition autoMatchOne (compareHeaders : list jsstring) (sourceCol : jsstring)
  : option ColumnMapping :=
  let exactMatch :=
    List.find (λ compareCol,
                 JSString.eqb (toLowerCase compareCol) (toLowerCase sourceCol))
              compareHeaders in
  if truthyOpt exactMatch then
    Some {| sourceColumn := sourceCol; compareColumn := orEmpty exactMatch |}
  else
    let partialMatch :=
      List.find (λ compareCol,
                   let sourceLower := toLowerCase sourceCol in
                   let compareLower := toLowerCase compareCol in
                   includes sourceLower compareLower
                   || includes compareLower sourceLower)
                compareHeaders in
    if truthyOpt partialMatch then
      Some {| sourceColumn := sourceCol; compareColumn := orEmpty partialMatch |}
    else None.

Definition autoMappings (sourceHeaders compareHeaders : list jsstring)
  : list ColumnMapping :=
  foldl (λ autoMappings sourceCol,
           match autoMatchOne compareHeaders sourceCol with
           | Some mapping => autoMappings ++ [mapping]
           | None => autoMappings
           end)
        [] sourceHeaders.

Record State := {
  mappings : list ColumnMapping;
  selectedSourceColumn : option jsstring
}.

Definition handleSourceColumnClick (st : State) (column : jsstring) : State :=
  if decide (selectedSourceColumn st = Some column)
  then {| mappings := mappings st; selectedSourceColumn := None |}
  else {| mappings := mappings st; selectedSourceColumn := Some column |}.

Definition handleCompareColumnClick (st : State) (column : jsstring) : State :=
  match selectedSourceColumn st with
  | None => st
  | Some selected =>
      if negb (truthy selected) then st
      else
        let existingMappingIndex :=
          list_find (λ m, sourceColumn m = selected) (mappings st) in
        let newMapping :=
          {| sourceColumn := selected; compareColumn := column |} in
        match existingMappingIndex with
        | Some (index, _) =>
            {| mappings := <[index := newMapping]> (mappings st);
               selectedSourceColumn := None |}
        | None =>
            {| mappings := mappings st ++ [newMapping];
               selectedSourceColumn := None |}
        end
  end.

Definition removeMapping (st : State) (sourceColumn_ : jsstring) : State :=
  {| mappings := filter (λ m, sourceColumn m ≠ sourceColumn_) (mappings st);
     selectedSourceColumn := selectedSourceColumn st |}.

Definition getMappedCompareColumn (st : State) (sourceColumn_ : jsstring)
  : option jsstring :=
  compareColumn ∘ snd <$> list_find (λ m, sourceColumn m = sourceColumn_) (mappings st).

Definition isCompareColumnMapped (st : State) (compareColumn_ : jsstring) : bool :=
  existsb (λ m, JSString.eqb (compareColumn m) compareColumn_) (mappings st).

(** [handleProceed]: the mappings handed to [onMappingComplete], or
    nothing (an alert) when there is none. *)
Definition handleProceed (st : State) : option (list ColumnMapping) :=
  if (length (mappings st) =? 0)%nat then None else Some (mappings st).

(** A compare column reacts to a click when a source column is selected
    and the compare column is not mapped yet. *)
Definition canMap (st : State) (header : jsstring) : bool :=
  truthyOpt (selectedSourceColumn st) && negb (isCompareColumnMapped st header).

(** The clicks the rendered component offers: a source column, a
    compare column that can be mapped, and the remove button of a
    source column that shows a mapped column. *)
Inductive step (sourceHeaders compareHeaders : list jsstring)
  : State → State → Prop :=
  | click_source st header :
      header ∈ sourceHeaders →
      step sourceHeaders compareHeaders st (handleSourceColumnClick st header)
  | click_compare st header :
      header ∈ compareHeaders → canMap st header = true →
      step sourceHeaders compareHeaders st (handleCompareColumnClick st header)
  | click_remove st header :
      header ∈ sourceHeaders →
      truthyOpt (getMappedCompareColumn st header) = true →
      step sourceHeaders compareHeaders st (removeMapping st header).

Definition initial (sourceHeaders compareHeaders : list jsstring) : State :=
  {| mappings := autoMappings sourceHeaders compareHeaders;
     selectedSourceColumn := None |}.

Definition reachable (sourceHeaders compareHeaders : list jsstring)
    (st : State) : Prop :=
  rtc (step sourceHeaders compareHeaders)
      (initial sourceHeaders compareHeaders) st.

End ColumnMapper.

(** ** The results view of [ComparisonResults.tsx] *)

Module ComparisonResults.

(** [array.slice(start, end)]. *)
Definition slice {A} (l : list A) (start end_ : Z) : list A :=
  let len := Z.of_nat (length l) in
  let k := if start <? 0 then Z.max (len + start) 0 else Z.min start len in
  let final := if end_ <? 0 then Z.max (len + end_) 0 else Z.min end_ len in
  take (Z.to_nat (final - k)) (drop (Z.to_nat k) l).

(** [Math.ceil(a / b)] for a length [a] and a positive integer [b]: the
    length of an array is below 2^32, so the quotient is rounded to a
    number on the same side of every integer. *)
Definition ceilDiv (a b : Z) : Z := - ((- a) / b).

(** ['all' | 'match' | 'different' | 'missing'] *)
Inductive Filter := FilterAll | FilterMatch | FilterDifferent | FilterMissing.

#[global] Instance Filter_eq_dec : EqDecision Filter.
Proof. solve_decision. Defined.

Record State := {
  filter_ : Filter;
  showDifferences : bool;
  currentPage : Z;
  itemsPerPage : Z
}.

(** The state of [useState] when the view is mounted. *)
Definition initial : State :=
  {| filter_ := FilterAll; showDifferences := true;
     currentPage := 1; itemsPerPage := 25 |}.

(** The predicate of [results.filter] in [filteredResults]. *)
Definition passes (filter : Filter) (result : ComparisonRow) : bool :=
  match filter with
  | FilterAll => true
  | FilterMatch => bool_decide (type result = Match)
  | FilterDifferent => bool_decide (type result = Different)
  | FilterMissing =>
      bool_decide (type result = MissingInCompare)
      || bool_decide (type result = MissingInSource)
  end.

Record Stats := {
  total : nat;
  matches : nat;
  differences_ : nat;
  missingInCompare : nat;
  missingInSource : nat
}.

(** The number an option of the filter shows beside its name. *)
Definition optionCount (stats : Stats) (filter : Filter) : nat :=
  match filter with
  | FilterAll => total stats
  | FilterMatch => matches stats
  | FilterDifferent => differences_ stats
  | FilterMissing => (missingInCompare stats + missingInSource stats)%nat
  end.

(** The pages offered above the table: [Math.min(5, totalPages)]
    buttons, and the button of the last page after them. *)
Definition topPageNum (totalPages currentPage i : Z) : Z :=
  if totalPages <=? 5 then i + 1
  else if currentPage <=? 3 then i + 1
  else if currentPage >=? totalPages - 2 then totalPages - 4 + i
  else currentPage - 2 + i.

Definition topPageButtons (totalPages currentPage : Z) : list Z :=
  (λ i, topPageNum totalPages currentPage (Z.of_nat i))
    <$> seq 0 (Z.to_nat (Z.min 5 totalPages)).

Definition topLastPageButton (totalPages currentPage : Z) : bool :=
  (5 <? totalPages) && (currentPage <? totalPages - 2).

(** The pages offered below the table. *)
Definition bottomPageNum (totalPages currentPage i : Z) : Z :=
  if totalPages <=? 7 then i + 1
  else if currentPage <=? 4 then i + 1
  else if currentPage >=? totalPages - 3 then totalPages - 6 + i
  else currentPage - 3 + i.

Definition bottomPageButtons (totalPages currentPage : Z) : list Z :=
  (λ i, bottomPageNum totalPages currentPage (Z.of_nat i))
    <$> seq 0 (Z.to_nat (Z.min 7 totalPages)).

Definition bottomLastPageButton (totalPages currentPage : Z) : bool :=
  (7 <? totalPages) && (currentPage <? totalPages - 3).

(** What a cell of the table shows: the source and the compare value in
    two boxes, or one text. *)
Inductive Cell :=
  | Both (source_ compare_ : jsstring)
  | Single (text : jsstring).

(** [a || b] on strings. *)
Definition orText (a b : jsstring) : jsstring := if truthy a then a else b.

Section View.

Variable results : list ComparisonRow.
Variable columnMappings : list ColumnMapping.

Definition filteredResults (st : State) : list ComparisonRow :=
  filter (λ result, passes (filter_ st) result) results.

Definition totalPages (st : State) : Z :=
  ceilDiv (Z.of_nat (length (filteredResults st))) (itemsPerPage st).

Definition startIndex (st : State) : Z :=
  (currentPage st - 1) * itemsPerPage st.

Definition endIndex (st : State) : Z := startIndex st + itemsPerPage st.

Definition paginatedResults (st : State) : list ComparisonRow :=
  slice (filteredResults st) (startIndex st) (endIndex st).

Definition stats : Stats :=
  {| total := length results;
     matches := length (filter (λ r, type r = Match) results);
     differences_ := length (filter (λ r, type r = Different) results);
     missingInCompare := length (filter (λ r, type r = MissingInCompare) results);
     missingInSource := length (filter (λ r, type r = MissingInSource) results) |}.

(** [setFilter] with another filter, and the effect that follows it. *)
Definition setFilter (st : State) (filter : Filter) : State :=
  {| filter_ := filter; showDifferences := showDifferences st;
     currentPage := 1; itemsPerPage := itemsPerPage st |}.

Definition handlePageChange (st : State) (page : Z) : State :=
  {| filter_ := filter_ st; showDifferences := showDifferences st;
     currentPage := page; itemsPerPage := itemsPerPage st |}.

Definition handleItemsPerPageChange (st : State) (newItemsPerPage : Z) : State :=
  {| filter_ := filter_ st; showDifferences := showDifferences st;
     currentPage := 1; itemsPerPage := newItemsPerPage |}.

Definition toggleDifferences (st : State) : State :=
  {| filter_ := filter_ st; showDifferences := negb (showDifferences st);
     currentPage := currentPage st; itemsPerPage := itemsPerPage st |}.

(** The two pagination bars are rendered when there is a filtered row,
    and when there is more than one page. *)
Definition topBar (st : State) : bool :=
  (0 <? length (filteredResults st))%nat.

Definition bottomBar (st : State) : bool := 1 <? totalPages st.

(** The pages that a click in a rendered bar can select: Previous and
    Next unless disabled, the numbered buttons, and the button of the
    last page. *)
Definition offeredPages (st : State) : list Z :=
  let previous := if currentPage st =? 1 then [] else [currentPage st - 1] in
  let next :=
    if currentPage st =? totalPages st then [] else [currentPage st + 1] in
  (if topBar st
   then previous ++ topPageButtons (totalPages st) (currentPage st)
        ++ (if topLastPageButton (totalPages st) (currentPage st)
            then [totalPages st] else [])
        ++ next
   else [])
  ++ (if bottomBar st
      then previous ++ bottomPageButtons (totalPages st) (currentPage st)
           ++ (if bottomLastPageButton (totalPages st) (currentPage st)
               then [totalPages st] else [])
           ++ next
      else []).

(** What the user can do in the view. *)
Inductive step : State → State → Prop :=
  | select_filter st filter :
      filter ≠ filter_ st → step st (setFilter st filter)
  | select_items_per_page st newItemsPerPage :
      newItemsPerPage ∈ [10; 25; 50; 100] →
      step st (handleItemsPerPageChange st newItemsPerPage)
  | click_toggle st : step st (toggleDifferences st)
  | click_page st page :
      page ∈ offeredPages st → step st (handlePageChange st page).

Definition reachable (st : State) : Prop := rtc step initial st.

(** The columns of the table: the source columns of the mappings, each
    once, in the order of their first mapping. *)
Definition allColumns : list jsstring :=
  firstOccurrences (sourceColumn <$> columnMappings).

(** The cell of a row under a column. *)
Definition cell (st : State) (result : ComparisonRow) (column : jsstring) : Cell :=
  let mapping :=
    List.find (λ m, JSString.eqb (sourceColumn m) column) columnMappings in
  match unifiedData result ≫= (λ unifiedData, unifiedData !! column) with
  | Some unified =>
      if isDifferent unified && showDifferences st
      then Both (orText (source unified) (js "(empty)"))
                (orText (compare unified) (js "(empty)"))
      else Single (orText (source unified)
                     (orText (compare unified) (js "(empty)")))
  | None =>
      let sourceValue :=
        orEmpty (sourceData result ≫= (λ sourceData, sourceData !! column)) in
      let compareValue :=
        orEmpty (compareData result
                   ≫= (λ compareData,
                         compareData !! orEmpty (compareColumn <$> mapping))) in
      Single (match type result with
              | MissingInCompare => sourceValue
              | MissingInSource => compareValue
              | _ => orText sourceValue compareValue
              end)
  end.

End View.

End ComparisonResults.

(** ** The upload of [FileUpload.tsx] *)

Module FileUpload.

(** [s.split(sep)] for a separator of one code unit. *)
Fixpoint split (sep : N) (s : jsstring) : list jsstring :=
  match s with
  | [] => [[]]
  | c :: s' =>
      if (c =? sep)%N then [] :: split sep s'
      else match split sep s' with
           | piece :: pieces => (c :: piece) :: pieces
           | [] => [[c]]
           end
  end.

(** [s.replace(/^"|"$/g, '')]: a quotation mark at the start and one at
    the end are deleted. *)
Definition stripQuotes (s : jsstring) : jsstring :=
  let s := match s with
           | c :: s' => if (c =? 34)%N then s' else s
           | [] => []
           end in
  if endsWith s [34%N] then sliceEnd s 1 else s.

(** [line.split(',').map(cell => cell.trim().replace(/^"|"$/g, ''))] *)
Definition parseCells (line : jsstring) : list jsstring :=
  (λ cell, stripQuotes (trim cell)) <$> split 44 line.

(** [parseCSV]: the table, or the message of the error thrown. *)
Definition parseCSV (content : jsstring) : string + CSVData :=
  let lines := split 10 (trim content) in
  if (length lines <? 2)%nat
  then inl "CSV must have at least a header row and one data row"%string
  else inr {| headers := parseCells (default [] (head lines));
              rows := parseCells <$> drop 1 lines |}.

(** [handleFile] for a file of a name and a text: the table handed to
    the upload callback, or the error shown. *)
Definition handleFile (name content : jsstring) : string + CSVData :=
  if negb (endsWith name (js ".csv"))
  then inl "Please upload a CSV file"%string
  else parseCSV content.

(** A cell that is written to a file as it is: it has no comma and no
    line feed, and neither white space nor a quotation mark at its start
    or its end. *)
Definition bare (c : N) : bool := negb (isWhiteSpace c || (c =? 34)%N).

Definition plain (cell : jsstring) : bool :=
  forallb (λ c, negb ((c =? 44) || (c =? 10))%N) cell
  && match cell with c :: _ => bare c | [] => true end
  && match rev cell with c :: _ => bare c | [] => true end.

End FileUpload.

(** ** The application of [App.tsx]

    The state of [App], the handlers that change it, and the events
    that the step shown lets through: the upload areas in the upload
    step; the settings, the mapper and its Back button in the mapping
    step; Start Over and Back in the results step.  A file that is
    uploaded has been read and parsed before the next event. *)

Module App.

Inductive Step := Upload | Mapping | Results.

Record State := {
  sourceFile : option CSVData;
  compareFile : option CSVData;
  columnMappings : list ColumnMapping;
  comparisonResults : list ComparisonRow;
  currentStep : Step;
  comparisonSettings : ComparisonSettings
}.

Definition initial : State :=
  {| sourceFile := None; compareFile := None; columnMappings := [];
     comparisonResults := []; currentStep := Upload;
     comparisonSettings :=
       {| numericPrecision := 2; ignoreCase := true; trimWhitespace := true |} |}.

Definition handleSourceFileUpload (st : State) (data : CSVData) : State :=
  {| sourceFile := Some data;
     compareFile := compareFile st;
     columnMappings := columnMappings st;
     comparisonResults := [];
     currentStep := if compareFile st is Some _ then Mapping else currentStep st;
     comparisonSettings := comparisonSettings st |}.

Definition handleCompareFileUpload (st : State) (data : CSVData) : State :=
  {| sourceFile := sourceFile st;
     compareFile := Some data;
     columnMappings := columnMappings st;
     comparisonResults := [];
     currentStep := if sourceFile st is Some _ then Mapping else currentStep st;
     comparisonSettings := comparisonSettings st |}.

Definition handleColumnMappingComplete (st : State)
    (mappings : list ColumnMapping) : State :=
  match performComparison (comparisonSettings st) (sourceFile st)
          (compareFile st) mappings with
  | Some results =>
      {| sourceFile := sourceFile st;
         compareFile := compareFile st;
         columnMappings := mappings;
         comparisonResults := results;
         currentStep := Results;
         comparisonSettings := comparisonSettings st |}
  | None =>
      {| sourceFile := sourceFile st;
         compareFile := compareFile st;
         columnMappings := mappings;
         comparisonResults := comparisonResults st;
         currentStep := currentStep st;
         comparisonSettings := comparisonSettings st |}
  end.

Definition resetApp (st : State) : State :=
  {| sourceFile := None; compareFile := None; columnMappings := [];
     comparisonResults := []; currentStep := Upload;
     comparisonSettings := comparisonSettings st |}.

Definition setCurrentStep (st : State) (step : Step) : State :=
  {| sourceFile := sourceFile st;
     compareFile := compareFile st;
     columnMappings := columnMappings st;
     comparisonResults := comparisonResults st;
     currentStep := step;
     comparisonSettings := comparisonSettings st |}.

Definition setComparisonSettings (st : State) (settings : ComparisonSettings)
  : State :=
  {| sourceFile := sourceFile st;
     compareFile := compareFile st;
     columnMappings := columnMappings st;
     comparisonResults := comparisonResults st;
     currentStep := currentStep st;
     comparisonSettings := settings |}.

(** The mapper and the settings are rendered. *)
Definition mapperShown (st : State) : bool :=
  match currentStep st, sourceFile st, compareFile st with
  | Mapping, Some _, Some _ => true
  | _, _, _ => false
  end.

Inductive step : State → State → Prop :=
  | upload_source st name content data :
      currentStep st = Upload →
      FileUpload.handleFile name content = inr data →
      step st (handleSourceFileUpload st data)
  | upload_compare st name content data :
      currentStep st = Upload →
      FileUpload.handleFile name content = inr data →
      step st (handleCompareFileUpload st data)
  (** [parseInt(e.target.value) || 0] is an integer *)
  | change_precision st (precision : Z) :
      mapperShown st = true →
      step st (setComparisonSettings st
                 {| numericPrecision := precision;
                    ignoreCase := ignoreCase (comparisonSettings st);
                    trimWhitespace := trimWhitespace (comparisonSettings st) |})
  | change_ignoreCase st (checked : bool) :
      mapperShown st = true →
      step st (setComparisonSettings st
                 {| numericPrecision := numericPrecision (comparisonSettings st);
                    ignoreCase := checked;
                    trimWhitespace := trimWhitespace (comparisonSettings st) |})
  | change_trimWhitespace st (checked : bool) :
      mapperShown st = true →
      step st (setComparisonSettings st
                 {| numericPrecision := numericPrecision (comparisonSettings st);
                    ignoreCase := ignoreCase (comparisonSettings st);
                    trimWhitespace := checked |})
  (** the Compare button of a mapper mounted on the headers of the two
      files *)
  | mapping_complete st source_ compare_ mapper mappings :
      mapperShown st = true →
      sourceFile st = Some source_ → compareFile st = Some compare_ →
      ColumnMapper.reachable (headers source_) (headers compare_) mapper →
      ColumnMapper.handleProceed mapper = Some mappings →
      step st (handleColumnMappingComplete st mappings)
  | back_to_upload st :
      mapperShown st = true → step st (setCurrentStep st Upload)
  | start_over st :
      currentStep st = Results → step st (resetApp st)
  | back_to_mapping st :
      currentStep st = Results → step st (setCurrentStep st Mapping).

Definition reachable (st : State) : Prop := rtc step initial st.

End App.

(** ** Notions for exchanging the two files *)

(** A mapping entry read from the compare side. *)
Definition swapped (m : ColumnMapping) : ColumnMapping :=
  {| sourceColumn := compareColumn m; compareColumn := sourceColumn m |}.

(** The type of the output row of a key that both indexes hold. *)
Definition pairedType (comparisonSettings : ComparisonSettings)
    (mappings : list ColumnMapping) (sourceMap compareMap : list (jsstring * record))
    (key : jsstring) : option RowType :=
  match JSMap.get sourceMap key, JSMap.get compareMap key with
  | Some sourceRow, Some compareRow =>
      Some (type (matchedRow comparisonSettings mappings sourceRow compareRow))
  | _, _ => None
  end.

(** * Properties *)

(** ** [Map]: lookup, keys and their order *)

Section MapFacts.
Context {V : Type}.
Implicit Types (m : list (jsstring * V)) (k : jsstring) (v : V).

Lemma get_set_eq m k v : JSMap.get (JSMap.set m k v) k = Some v.
Proof.
  induction m as [|[k' v'] m IH]; simpl.
  - by rewrite decide_True.
  - destruct (decide (k' = k)) as [->|Hne]; simpl.
    + by rewrite decide_True.
    + by rewrite decide_False.
Qed.

Lemma get_set_ne m k k' v :
  k ≠ k' → JSMap.get (JSMap.set m k v) k' = JSMap.get m k'.
Proof.
  intros Hne. induction m as [|[k0 v0] m IH]; simpl.
  - by rewrite decide_False.
  - destruct (decide (k0 = k)) as [->|Hk]; simpl.
    + by rewrite !decide_False.
    + by rewrite IH.
Qed.

Lemma get_None m k : JSMap.get m k = None ↔ k ∉ JSMap.keys m.
Proof.
  unfold JSMap.keys. induction m as [|[k0 v0] m IH]; simpl.
  - split; [intros _; apply not_elem_of_nil | done].
  - rewrite not_elem_of_cons. destruct (decide (k0 = k)) as [->|Hk].
    + split; [done | intros [? _]; done].
    + rewrite IH. split; [intros ?; split; [congruence | done] | intros [_ ?]; done].
Qed.

Lemma get_is_Some m k : is_Some (JSMap.get m k) ↔ k ∈ JSMap.keys m.
Proof.
  rewrite <- not_eq_None_Some, get_None.
  split; [apply dec_stable | auto].
Qed.

Lemma get_Some_elem_of m k v : JSMap.get m k = Some v → (k, v) ∈ m.
Proof.
  induction m as [|[k0 v0] m IH]; simpl; [done|].
  destruct (decide (k0 = k)) as [->|Hk].
  - intros [= ->]. apply list_elem_of_here.
  - intros H. apply list_elem_of_further. auto.
Qed.

Lemma elem_of_get m k v :
  NoDup (JSMap.keys m) → (k, v) ∈ m → JSMap.get m k = Some v.
Proof.
  unfold JSMap.keys. induction m as [|[k0 v0] m IH]; simpl.
  - intros _ H. by apply elem_of_nil in H.
  - rewrite NoDup_cons. intros [Hnin Hnd] [[= -> ->]|Hin]%elem_of_cons.
    + by rewrite decide_True.
    + rewrite decide_False; [auto|].
      intros ->. apply Hnin. apply list_elem_of_fmap. by exists (k, v).
Qed.

Lemma keys_set m k v :
  JSMap.keys (JSMap.set m k v) =
    if decide (k ∈ JSMap.keys m) then JSMap.keys m else JSMap.keys m ++ [k].
Proof.
  unfold JSMap.keys. induction m as [|[k0 v0] m IH].
  - destruct (decide _) as [Hin|_]; [by apply elem_of_nil in Hin | done].
  - cbn [JSMap.set]. destruct (decide (k0 = k)) as [->|Hk].
    + rewrite decide_True; [done | apply list_elem_of_here].
    + rewrite !fmap_cons, IH. cbn [fst].
      destruct (decide (k ∈ m.*1)) as [Hin|Hnin].
      * rewrite decide_True; [done | by apply list_elem_of_further].
      * rewrite decide_False; [done|].
        rewrite not_elem_of_cons. split; [congruence | done].
Qed.

End MapFacts.

(** ** First occurrences *)

Lemma elem_of_firstOccurrences l k : k ∈ firstOccurrences l ↔ k ∈ l.
Proof.
  induction l as [|k0 l IH]; simpl; [done|].
  rewrite !elem_of_cons, list_elem_of_filter, IH.
  destruct (decide (k = k0)); tauto.
Qed.

Lemma NoDup_firstOccurrences l : NoDup (firstOccurrences l).
Proof.
  induction l as [|k0 l IH]; simpl; [constructor|].
  apply NoDup_cons. split.
  - rewrite list_elem_of_filter. by intros [? _].
  - by apply NoDup_filter.
Qed.


(** ** Building an index

    [kf] and [vf] give the key and the payload of a row. *)

Section Index.
Context {A V : Type} (kf : A → jsstring) (vf : A → V).

Lemma keys_index m0 l :
  JSMap.keys (foldl (indexStep kf vf) m0 l) =
    JSMap.keys m0 ++
      filter (λ k, k ∉ JSMap.keys m0) (firstOccurrences (kf <$> l)).
Proof.
  revert m0. induction l as [|x l IH]; intros m0; simpl.
  - by rewrite app_nil_r.
  - rewrite IH. unfold indexStep. rewrite (keys_set m0 (kf x) (vf x)).
    destruct (decide (kf x ∈ JSMap.keys m0)) as [Hin|Hnin].
    + rewrite filter_cons_False by (intros ?; done).
      f_equal. rewrite list_filter_filter. apply list_filter_iff.
      intros k. cbn beta. split; [|by intros [? _]].
      intros Hk. split; [done|]. by intros ->.
    + rewrite filter_cons_True by done.
      rewrite <- app_assoc. simpl. do 2 f_equal.
      rewrite list_filter_filter. apply list_filter_iff.
      intros k. cbn beta. rewrite not_elem_of_app, list_elem_of_singleton.
      tauto.
Qed.

Lemma NoDup_keys_index l : NoDup (JSMap.keys (foldl (indexStep kf vf) [] l)).
Proof.
  rewrite keys_index. simpl. apply NoDup_filter, NoDup_firstOccurrences.
Qed.



(** Every entry of the index comes from a row that no later row
    overwrites. *)
Lemma index_entry_last l k v :
  (k, v) ∈ foldl (indexStep kf vf) [] l →
  ∃ pre x post,
    l = pre ++ x :: post ∧ kf x = k ∧ vf x = v ∧
    Forall (λ y, kf y ≠ k) post.
Proof.
  intros Hin.
  assert (Hget : JSMap.get (foldl (indexStep kf vf) [] l) k = Some v).
  { apply elem_of_get; [apply NoDup_keys_index | done]. }
  clear Hin. induction l as [|x l IH] using rev_ind.
  - done.
  - rewrite foldl_snoc in Hget. unfold indexStep in Hget.
    destruct (decide (kf x = k)) as [Hk|Hk].
    + rewrite <- Hk, get_set_eq in Hget. injection Hget as <-.
      exists l, x, []. by repeat split.
    + rewrite get_set_ne in Hget by done.
      destruct (IH Hget) as (pre & y & post & -> & Hy & Hv & Hpost).
      exists pre, y, (post ++ [x]). rewrite <- app_assoc. simpl.
      repeat split; try done.
      apply Forall_app. split; [done|]. by apply Forall_singleton.
Qed.

End Index.

(** ** The two passes of [performComparison] *)

Section Passes.
Variable comparisonSettings : ComparisonSettings.
Variable mappings : list ColumnMapping.

Lemma sourceStep_eq (cm : list (jsstring * record)) rs pk e :
  sourceStep comparisonSettings mappings cm (rs, pk) e =
    (rs ++ [sourceRowResult comparisonSettings mappings cm e], {[e.1]} ∪ pk).
Proof.
  destruct e as [k r]. unfold sourceStep, sourceRowResult. cbn [fst snd].
  by destruct (JSMap.get cm k).
Qed.

Lemma sourceStep_fold (cm sm : list (jsstring * record)) rs0 pk0 :
  foldl (sourceStep comparisonSettings mappings cm) (rs0, pk0) sm =
    (rs0 ++ (sourceRowResult comparisonSettings mappings cm <$> sm),
     list_to_set (JSMap.keys sm) ∪ pk0).
Proof.
  revert rs0 pk0. induction sm as [|e sm IH]; intros rs0 pk0.
  - simpl. by rewrite app_nil_r, (left_id_L ∅ (∪)).
  - cbn [foldl]. rewrite sourceStep_eq, IH, <- app_assoc.
    f_equal. unfold JSMap.keys. rewrite fmap_cons, list_to_set_cons.
    by rewrite (assoc_L (∪)), (comm_L (∪) _ {[e.1]}).
Qed.

Lemma compareStep_eq (pk : gset (list N)) (rs : list ComparisonRow)
    (e : jsstring * record) :
  compareStep pk rs e =
    rs ++ ((λ e, missingInSourceRow e.2) <$> filter (λ e, e.1 ∉ pk) [e]).
Proof.
  destruct e as [k r]. unfold compareStep.
  rewrite filter_cons, filter_nil. cbn [fst].
  destruct (decide (k ∈ pk)) as [Hin|Hnin].
  - rewrite bool_decide_eq_true_2, decide_False by auto.
    by rewrite app_nil_r.
  - by rewrite bool_decide_eq_false_2, decide_True by auto.
Qed.

Lemma compareStep_fold (pk : gset (list N)) (cm : list (jsstring * record)) rs0 :
  foldl (compareStep pk) rs0 cm =
    rs0 ++ ((λ e, missingInSourceRow e.2) <$> filter (λ e, e.1 ∉ pk) cm).
Proof.
  revert rs0. induction cm as [|e cm IH]; intros rs0.
  - simpl. by rewrite app_nil_r.
  - cbn [foldl]. rewrite IH, compareStep_eq, <- app_assoc, <- fmap_app.
    by rewrite <- filter_app.
Qed.

(** The output is the image of the source index, in its order, followed
    by the entries of the compare index whose key the source index
    lacks, in the order of the compare index. *)
Lemma results_eq sourceFile compareFile :
  results comparisonSettings sourceFile compareFile mappings =
    (sourceRowResult comparisonSettings mappings
       (compareMap comparisonSettings compareFile mappings)
       <$> sourceMap comparisonSettings sourceFile mappings) ++
    ((λ e, missingInSourceRow e.2)
       <$> filter
             (λ e, e.1 ∉ JSMap.keys (sourceMap comparisonSettings sourceFile mappings))
             (compareMap comparisonSettings compareFile mappings)).
Proof.
  unfold results. rewrite sourceStep_fold, compareStep_fold. simpl.
  do 2 f_equal. apply list_filter_iff. intros [k r]. cbn [fst].
  rewrite elem_of_union, elem_of_list_to_set, elem_of_empty. tauto.
Qed.

Lemma type_matchedRow sourceRow compareRow :
  type (matchedRow comparisonSettings mappings sourceRow compareRow) = Match ∨
  type (matchedRow comparisonSettings mappings sourceRow compareRow) = Different.
Proof.
  unfold matchedRow.
  destruct (foldl _ _ _) as [ds ud]. cbn [type].
  destruct (0 <? length ds)%nat; auto.
Qed.

Lemma type_sourceRowResult cm e :
  type (sourceRowResult comparisonSettings mappings cm e) = MissingInCompare
    ∧ e.1 ∉ JSMap.keys cm
  ∨ (type (sourceRowResult comparisonSettings mappings cm e) = Match
     ∨ type (sourceRowResult comparisonSettings mappings cm e) = Different)
    ∧ e.1 ∈ JSMap.keys cm.
Proof.
  unfold sourceRowResult.
  destruct (JSMap.get cm e.1) as [c|] eqn:Hget.
  - right. split; [apply type_matchedRow|].
    apply get_is_Some. by rewrite Hget.
  - left. split; [done|]. by apply get_None.
Qed.

End Passes.

(** ** Counting rows by type *)

Lemma countType_app t rs1 rs2 :
  countType t (rs1 ++ rs2) = (countType t rs1 + countType t rs2)%nat.
Proof. unfold countType. by rewrite filter_app, length_app. Qed.

Lemma countType_cons t r rs :
  countType t (r :: rs) =
    ((if decide (type r = t) then 1 else 0) + countType t rs)%nat.
Proof.
  unfold countType. rewrite filter_cons. by destruct (decide (type r = t)).
Qed.

Lemma length_filter_keys {V} (P : jsstring → Prop) `{!∀ k, Decision (P k)}
    (m : list (jsstring * V)) :
  length (filter (λ e, P e.1) m) = length (filter P (JSMap.keys m)).
Proof.
  unfold JSMap.keys. induction m as [|[k v] m IH]; [done|].
  rewrite fmap_cons, !filter_cons. cbn [fst].
  destruct (decide (P k)); simpl; by rewrite IH.
Qed.

Lemma count_front (comparisonSettings : ComparisonSettings)
    (mappings : list ColumnMapping) (cm sm : list (jsstring * record)) :
  let front := sourceRowResult comparisonSettings mappings cm <$> sm in
  (countType Match front + countType Different front
     + countType MissingInCompare front = length sm)%nat
  ∧ countType MissingInSource front = 0%nat
  ∧ (countType Match front + countType Different front
     = length (filter (λ k, k ∈ JSMap.keys cm) (JSMap.keys sm)))%nat.
Proof.
  induction sm as [|e sm IH]; [done|].
  destruct IH as (IH1 & IH2 & IH3).
  cbn zeta in *. rewrite fmap_cons, !countType_cons.
  change (JSMap.keys (e :: sm)) with (e.1 :: JSMap.keys sm).
  rewrite filter_cons.
  destruct (type_sourceRowResult comparisonSettings mappings cm e)
    as [[Ht Hk]|[[Ht|Ht] Hk]]; rewrite Ht;
    repeat case_decide; try done; simpl; lia.
Qed.

Lemma count_back (P : jsstring * record → Prop) `{!∀ e, Decision (P e)}
    (cm : list (jsstring * record)) :
  let back := (λ e, missingInSourceRow e.2) <$> filter P cm in
  countType Match back = 0%nat ∧ countType Different back = 0%nat
  ∧ countType MissingInCompare back = 0%nat
  ∧ countType MissingInSource back = length (filter P cm).
Proof.
  cbn zeta. induction (filter P cm) as [|e l IH]; [done|].
  rewrite fmap_cons, !countType_cons. simpl.
  by destruct IH as (-> & -> & -> & ->).
Qed.


Lemma length_split (P : jsstring → Prop) `{!∀ k, Decision (P k)} (l : list jsstring) :
  (length (filter P l) + length (filter (λ k, ¬ P k) l) = length l)%nat.
Proof.
  rewrite <- length_app. apply Permutation_length, filter_app_complement.
Qed.

(** ** The keys of the two indexes *)

Lemma filter_all {A} (P : A → Prop) `{!∀ x, Decision (P x)} (l : list A) :
  Forall P l → filter P l = l.
Proof.
  induction 1 as [|x l Hx _ IH]; [done|].
  by rewrite filter_cons_True, IH.
Qed.

Lemma keys_indexRows (comparisonSettings : ComparisonSettings) (file : CSVData)
    (column : ColumnMapping → jsstring) (mappings : list ColumnMapping) :
  JSMap.keys (indexRows comparisonSettings file column mappings) =
    firstOccurrences (keysOf comparisonSettings file column mappings).
Proof.
  unfold indexRows, keysOf.
  change (foldl _ [] (rows file)) with
    (foldl (indexStep
              (λ row, keyOf comparisonSettings column mappings
                        (rowData (headers file) row))
              (rowData (headers file))) [] (rows file)).
  rewrite keys_index. simpl. apply filter_all, Forall_forall.
  intros k _. apply not_elem_of_nil.
Qed.

Lemma NoDup_keys_indexRows (comparisonSettings : ComparisonSettings) (file : CSVData)
    (column : ColumnMapping → jsstring) (mappings : list ColumnMapping) :
  NoDup (JSMap.keys (indexRows comparisonSettings file column mappings)).
Proof. rewrite keys_indexRows. apply NoDup_firstOccurrences. Qed.

Lemma elem_of_keys_indexRows (comparisonSettings : ComparisonSettings)
    (file : CSVData) (column : ColumnMapping → jsstring)
    (mappings : list ColumnMapping) (k : jsstring) :
  k ∈ JSMap.keys (indexRows comparisonSettings file column mappings)
  ↔ k ∈ keysOf comparisonSettings file column mappings.
Proof. by rewrite keys_indexRows, elem_of_firstOccurrences. Qed.


(** ** C1: reconciliation totals *)


(** ** C3: the order of the output *)




(** ** C7: rows that share a key *)




(** ** C8: the empty mapping *)

Lemma keyOf_nil (comparisonSettings : ComparisonSettings)
    (column : ColumnMapping → jsstring) (rd : record) :
  keyOf comparisonSettings column [] rd = [].
Proof. done. Qed.

Lemma filter_none {A} (P : A → Prop) `{!∀ x, Decision (P x)} (l : list A) :
  Forall (λ x, ¬ P x) l → filter P l = [].
Proof.
  induction 1 as [|x l Hx _ IH]; [done|].
  by rewrite filter_cons_False.
Qed.

Lemma keys_indexRows_nil (comparisonSettings : ComparisonSettings)
    (file : CSVData) (column : ColumnMapping → jsstring) :
  JSMap.keys (indexRows comparisonSettings file column []) =
    match rows file with [] => [] | _ :: _ => [[]] end.
Proof.
  rewrite keys_indexRows. unfold keysOf.
  destruct (rows file) as [|row l]; [done|].
  cbn [List.map firstOccurrences]. rewrite keyOf_nil. f_equal.
  apply filter_none, Forall_forall.
  intros k [row' [<- _]]%elem_of_firstOccurrences%list_elem_of_In%in_map_iff.
  intros H. by apply H.
Qed.

(** C8.  With an empty mapping every record has the empty join key,
    each index has one entry when its table has rows and none
    otherwise, and the comparison still produces its result: a single
    row unless both tables are empty, in which case there is none. *)
Theorem empty_mapping (comparisonSettings : ComparisonSettings)
    (sourceFile compareFile : CSVData) :
  (∀ (column : ColumnMapping → jsstring) (rd : record),
     keyOf comparisonSettings column [] rd = [])
  ∧ JSMap.keys (sourceMap comparisonSettings sourceFile []) =
      match rows sourceFile with [] => [] | _ :: _ => [[]] end
  ∧ JSMap.keys (compareMap comparisonSettings compareFile []) =
      match rows compareFile with [] => [] | _ :: _ => [[]] end
  ∧ ∃ rs,
      performComparison comparisonSettings (Some sourceFile) (Some compareFile) []
        = Some rs
      ∧ type <$> rs =
          match rows sourceFile, rows compareFile with
          | [], [] => []
          | [], _ :: _ => [MissingInSource]
          | _ :: _, [] => [MissingInCompare]
          | _ :: _, _ :: _ => [Match]
          end.
Proof.
  split; [apply keyOf_nil|].
  pose proof (keys_indexRows_nil comparisonSettings sourceFile sourceColumn) as Hs.
  pose proof (keys_indexRows_nil comparisonSettings compareFile compareColumn) as Hc.
  split; [done|]. split; [done|].
  eexists. split; [done|]. rewrite results_eq.
  fold (sourceMap comparisonSettings sourceFile []) in Hs.
  fold (compareMap comparisonSettings compareFile []) in Hc.
  destruct (sourceMap comparisonSettings sourceFile []) as [|[ks vs] [|? ?]];
    destruct (rows sourceFile); try done;
    destruct (compareMap comparisonSettings compareFile []) as [|[kc vc] [|? ?]];
    destruct (rows compareFile); try done;
    cbn in Hs, Hc; by simplify_eq.
Qed.

(** ** C10: the differences of a row found on both sides *)

Section Differences.
Variable comparisonSettings : ComparisonSettings.

(** Two cells that both normalize to the empty string compare equal. *)
Lemma valuesAreEqual_empty (val1 val2 : jsstring) :
  normalizeValue comparisonSettings val1
    (Some (numericPrecision comparisonSettings))
    (Some (ignoreCase comparisonSettings)) = [] →
  normalizeValue comparisonSettings val2
    (Some (numericPrecision comparisonSettings))
    (Some (ignoreCase comparisonSettings)) = [] →
  valuesAreEqual comparisonSettings val1 val2 = true.
Proof. unfold valuesAreEqual. by intros -> ->. Qed.

(** The guard on pushing a difference never drops one. *)
Lemma guard_redundant (val1 val2 : jsstring) :
  negb (valuesAreEqual comparisonSettings val1 val2)
    && (truthy val1 || truthy val2)
  = negb (valuesAreEqual comparisonSettings val1 val2).
Proof.
  destruct val1, val2; try by rewrite ?orb_true_r, andb_true_r.
  by rewrite valuesAreEqual_empty.
Qed.

Variables sourceRow compareRow : record.

Lemma compareColumns_eq (ds : list jsstring)
    (ud : gmap (list N) UnifiedEntry) (m : ColumnMapping) :
  compareColumns comparisonSettings sourceRow compareRow (ds, ud) m =
    (ds ++ (if areDifferent comparisonSettings sourceRow compareRow m
            then [sourceColumn m] else []),
     <[sourceColumn m := unifiedEntry comparisonSettings sourceRow compareRow m]> ud).
Proof.
  unfold compareColumns. rewrite guard_redundant.
  unfold unifiedEntry, areDifferent.
  destruct (negb _); [done|]. by rewrite app_nil_r.
Qed.

Lemma compareColumns_fold (mappings : list ColumnMapping) (ds : list jsstring)
    (ud : gmap (list N) UnifiedEntry) :
  foldl (compareColumns comparisonSettings sourceRow compareRow) (ds, ud) mappings =
    (ds ++ (sourceColumn
              <$> filter (λ m, areDifferent comparisonSettings sourceRow compareRow m)
                    mappings),
     foldl (writeEntry comparisonSettings sourceRow compareRow) ud mappings).
Proof.
  revert ds ud. induction mappings as [|m mappings IH]; intros ds ud.
  - simpl. by rewrite app_nil_r.
  - cbn [foldl]. rewrite compareColumns_eq, IH, <- app_assoc, filter_cons.
    unfold writeEntry at 2.
    by destruct (areDifferent _ _ _ m).
Qed.

Lemma writeEntry_lookup (mappings : list ColumnMapping)
    (ud : gmap (list N) UnifiedEntry) (c : jsstring) (e : UnifiedEntry) :
  foldl (writeEntry comparisonSettings sourceRow compareRow) ud mappings !! c = Some e →
  (∃ m, m ∈ mappings ∧ sourceColumn m = c
        ∧ e = unifiedEntry comparisonSettings sourceRow compareRow m)
  ∨ ud !! c = Some e.
Proof.
  revert ud. induction mappings as [|m mappings IH]; intros ud; [by right|].
  cbn [foldl]. intros [(m' & Hin & Hc & He)|Hud]%IH.
  - left. exists m'. split; [by apply list_elem_of_further | done].
  - unfold writeEntry in Hud.
    destruct (decide (sourceColumn m = c)) as [Hc|Hc].
    + rewrite Hc, lookup_insert_eq in Hud. injection Hud as <-.
      left. exists m. split; [apply list_elem_of_here | done].
    + rewrite lookup_insert_ne in Hud by done. by right.
Qed.

Lemma writeEntry_lookup_other (mappings : list ColumnMapping)
    (ud : gmap (list N) UnifiedEntry) (c : jsstring) :
  c ∉ sourceColumn <$> mappings →
  foldl (writeEntry comparisonSettings sourceRow compareRow) ud mappings !! c = ud !! c.
Proof.
  revert ud. induction mappings as [|m mappings IH]; intros ud; [done|].
  rewrite fmap_cons, not_elem_of_cons. intros [Hc Hnin]. cbn [foldl].
  rewrite IH by done. unfold writeEntry. by rewrite lookup_insert_ne.
Qed.

Lemma writeEntry_lookup_NoDup (mappings : list ColumnMapping)
    (ud : gmap (list N) UnifiedEntry) (m : ColumnMapping) :
  NoDup (sourceColumn <$> mappings) → m ∈ mappings →
  foldl (writeEntry comparisonSettings sourceRow compareRow) ud mappings !! sourceColumn m
    = Some (unifiedEntry comparisonSettings sourceRow compareRow m).
Proof.
  revert ud. induction mappings as [|m0 mappings IH]; intros ud.
  - intros _ H. by apply elem_of_nil in H.
  - rewrite fmap_cons, NoDup_cons. intros [Hnin Hnd] [->|Hin]%elem_of_cons.
    + cbn [foldl]. rewrite writeEntry_lookup_other by done.
      unfold writeEntry. by rewrite lookup_insert_eq.
    + cbn [foldl]. by apply IH.
Qed.

End Differences.

Lemma filter_fmap_on {A B} (f : A → B) (P : B → Prop) (Q : A → Prop)
    `{!∀ y, Decision (P y), !∀ x, Decision (Q x)} (l : list A) :
  Forall (λ x, Q x ↔ P (f x)) l →
  f <$> filter Q l = filter P (f <$> l).
Proof.
  induction 1 as [|x l Hx _ IH]; [done|].
  rewrite fmap_cons, !filter_cons.
  destruct (decide (Q x)) as [HQ|HQ].
  - rewrite decide_True by (by apply Hx). by rewrite fmap_cons, IH.
  - rewrite decide_False by (by rewrite <- Hx). done.
Qed.

Lemma matchedRow_eq (comparisonSettings : ComparisonSettings)
    (mappings : list ColumnMapping) (sourceRow compareRow : record) :
  matchedRow comparisonSettings mappings sourceRow compareRow =
    let ds :=
      sourceColumn
        <$> filter (λ m, areDifferent comparisonSettings sourceRow compareRow m)
              mappings in
    {| type := if (0 <? length ds)%nat then Different else Match;
       sourceData := Some sourceRow;
       compareData := Some compareRow;
       differences := if (0 <? length ds)%nat then Some ds else None;
       unifiedData :=
         Some (foldl (writeEntry comparisonSettings sourceRow compareRow) ∅ mappings) |}.
Proof. unfold matchedRow. by rewrite compareColumns_fold. Qed.

(** A row of type match or different is the row built for a key found
    in both indexes. *)
Lemma matched_in_results (comparisonSettings : ComparisonSettings)
    (sourceFile compareFile : CSVData) (mappings : list ColumnMapping)
    (r : ComparisonRow) :
  r ∈ results comparisonSettings sourceFile compareFile mappings →
  type r ∈ [Match; Different] →
  ∃ k sourceRow compareRow,
    JSMap.get (sourceMap comparisonSettings sourceFile mappings) k = Some sourceRow
    ∧ JSMap.get (compareMap comparisonSettings compareFile mappings) k = Some compareRow
    ∧ r = matchedRow comparisonSettings mappings sourceRow compareRow.
Proof.
  rewrite results_eq, elem_of_app, !list_elem_of_fmap.
  intros [([k v] & -> & Hin)|(e & -> & _)] Ht;
    [|by apply elem_of_cons in Ht as [?|?%list_elem_of_singleton]].
  exists k, v. unfold sourceRowResult in *. cbn [fst snd] in *.
  destruct (JSMap.get _ k) as [c|] eqn:Hc;
    [|by apply elem_of_cons in Ht as [?|?%list_elem_of_singleton]].
  exists c. split; [|done].
  apply elem_of_get; [apply NoDup_keys_indexRows | done].
Qed.

(** A flagged entry of the unified view always comes with a row of type
    different, whatever the mapping. *)
Lemma flagged_is_different (comparisonSettings : ComparisonSettings)
    (mappings : list ColumnMapping) (sourceRow compareRow : record)
    (ud : gmap (list N) UnifiedEntry) (c : jsstring) :
  unifiedData (matchedRow comparisonSettings mappings sourceRow compareRow) = Some ud →
  isFlagged ud c →
  type (matchedRow comparisonSettings mappings sourceRow compareRow) = Different.
Proof.
  rewrite matchedRow_eq. cbn zeta. cbn [type unifiedData].
  intros [= <-] Hc. unfold isFlagged in Hc.
  destruct (_ !! c) as [e|] eqn:He; [|done].
  apply writeEntry_lookup in He as [(m & Hm & _ & ->)|He]; [|done].
  assert (m ∈ filter (λ m, areDifferent comparisonSettings sourceRow compareRow m)
                mappings) as Hin by (by apply list_elem_of_filter).
  destruct (filter _ mappings); [by apply elem_of_nil in Hin | done].
Qed.

(** C10.  Let the source columns of the mapping be pairwise distinct.
    For an output row of type match or different (the rows of the keys
    found on both sides): the row is different exactly when the unified
    view has a flagged entry; the differences array is present exactly
    on different rows, where it lists the mapped source columns whose
    entry is flagged; and the guard on pushing a difference changes
    nothing, since two cells that normalize to the empty string compare
    equal. *)
Theorem differences_match_unified (comparisonSettings : ComparisonSettings)
    (sourceFile compareFile : CSVData) (mappings : list ColumnMapping)
    (r : ComparisonRow) :
  r ∈ results comparisonSettings sourceFile compareFile mappings →
  type r ∈ [Match; Different] →
  NoDup (sourceColumn <$> mappings) →
  ∃ ud,
    unifiedData r = Some ud
    ∧ (type r = Different ↔ ∃ c, isFlagged ud c)
    ∧ (is_Some (differences r) ↔ type r = Different)
    ∧ (type r = Different →
       differences r
         = Some (filter (λ c, isFlagged ud c) (sourceColumn <$> mappings)))
    ∧ (∀ val1 val2,
         normalizeValue comparisonSettings val1
           (Some (numericPrecision comparisonSettings))
           (Some (ignoreCase comparisonSettings)) = [] →
         normalizeValue comparisonSettings val2
           (Some (numericPrecision comparisonSettings))
           (Some (ignoreCase comparisonSettings)) = [] →
         valuesAreEqual comparisonSettings val1 val2 = true)
    ∧ (∀ val1 val2,
         negb (valuesAreEqual comparisonSettings val1 val2)
           && (truthy val1 || truthy val2)
         = negb (valuesAreEqual comparisonSettings val1 val2)).
Proof.
  intros Hin Ht Hnd.
  destruct (matched_in_results _ _ _ _ _ Hin Ht) as (k & sr & cr & _ & _ & ->).
  eexists. split; [by rewrite matchedRow_eq|].
  assert (Hiff : ∀ m, m ∈ mappings →
            (areDifferent comparisonSettings sr cr m
             ↔ isFlagged (foldl (writeEntry comparisonSettings sr cr) ∅ mappings)
                 (sourceColumn m))).
  { intros m Hm. unfold isFlagged.
    by rewrite (writeEntry_lookup_NoDup _ _ _ _ _ m Hnd Hm). }
  split; [split|].
  - rewrite matchedRow_eq. cbn zeta. cbn [type]. intros Hd.
    destruct (filter _ mappings) as [|m D] eqn:HD; [done|].
    assert (m ∈ filter (λ m, areDifferent comparisonSettings sr cr m) mappings)
      as [Hdm Hm]%list_elem_of_filter by (rewrite HD; apply list_elem_of_here).
    exists (sourceColumn m). by apply Hiff.
  - intros [c Hc]. eapply flagged_is_different; [|done].
    by rewrite matchedRow_eq.
  - rewrite matchedRow_eq. cbn zeta. cbn [type differences].
    split; [|split; [|split]].
    + destruct (0 <? _)%nat; split; (done || by intros [? ?] || by eexists).
    + intros Hd. destruct (0 <? _)%nat; [|done]. f_equal.
      apply filter_fmap_on, Forall_forall. intros m Hm. by apply Hiff.
    + apply valuesAreEqual_empty.
    + apply guard_redundant.
Qed.



(** ** Strings: prefixes and suffixes *)

Lemma startsWith_spec (s p : jsstring) :
  startsWith s p = true ↔ ∃ r, s = p ++ r.
Proof.
  revert s. induction p as [|c p IH]; intros s.
  - split; [by exists s | done].
  - destruct s as [|d s]; simpl; [split; [done | intros [? [=]]]|].
    rewrite andb_true_iff, N.eqb_eq, IH. split.
    + intros [-> [r ->]]. by exists r.
    + intros [r [= -> ->]]. split; [done | by exists r].
Qed.



(** ** [normalizeValue] by cases *)

Section Normalize.
Variable comparisonSettings : ComparisonSettings.

Lemma normalizeValue_eq (value : jsstring) (precision : option Z)
    (ignoreCase_ : option bool) :
  normalizeValue comparisonSettings value precision ignoreCase_ =
    if isBlank value then []
    else
      let t := trimmedValue comparisonSettings value in
      let numValue := parseFloat (cleanedValue t) in
      if isNumeric numValue
      then toString (rounded numValue (effectivePrecision comparisonSettings precision))
      else caseFolded comparisonSettings ignoreCase_ t.
Proof.
  unfold normalizeValue, effectivePrecision, caseFolded.
  destruct (isBlank value); [done|]. cbn zeta.
  destruct (isNumeric _); [|done].
  destruct precision as [p|]; [|done]. by destruct (0 <=? p).
Qed.



End Normalize.

(** ** C5: the result on the non-numeric path *)


(** ** C2: the tolerance of [valuesAreEqual] *)


(** ** C6: the rounding of [normalizeValue] *)



(** ** [parseFloat] on a literal followed by more text *)




(** ** Trimming and cleaning around digits and decimal points *)










Section TwoPoints.
Variable comparisonSettings : ComparisonSettings.
Variables ds1 ds2 rest : jsstring.
Hypothesis Hds1 : forallb isDigit ds1 = true.
Hypothesis Hds2 : forallb isDigit ds2 = true.

Local Abbreviation pre := (ds1 ++ js "." ++ ds2).







End TwoPoints.

(** ** C4: text after a leading literal *)


(** ** Lower-casing and parsing *)

(** Settles the comparisons of code units in the goal from the bounds
    at hand. *)
Ltac settle_comparisons :=
  repeat match goal with
         | |- context [(?a <=? ?b)%N] =>
             first [ rewrite (proj2 (N.leb_le a b)) by lia
                   | rewrite (proj2 (N.leb_gt a b)) by lia ]
         | |- context [(?a =? ?b)%N] =>
             first [ rewrite (proj2 (N.eqb_eq a b)) by lia
                   | rewrite (proj2 (N.eqb_neq a b)) by lia ]
         end.

(** The three cases of [lowerCodeUnit]. *)
Lemma lowerCodeUnit_cases (c : N) :
  ((65 <= c <= 90)%N ∧ lowerCodeUnit c = (c + 32)%N)
  ∨ ((192 <= c <= 222)%N ∧ c ≠ 215%N ∧ lowerCodeUnit c = (c + 32)%N)
  ∨ (((c < 65)%N ∨ (90 < c < 192)%N ∨ c = 215%N ∨ (222 < c)%N)
     ∧ lowerCodeUnit c = c).
Proof.
  unfold lowerCodeUnit.
  destruct (N.leb_spec 65 c), (N.leb_spec c 90), (N.leb_spec 192 c),
    (N.leb_spec c 222), (N.eqb_spec c 215); cbn; try lia;
    intuition lia.
Qed.

Ltac lower_cases c :=
  let H := fresh "Hc" in
  let E := fresh "Ec" in
  destruct (lowerCodeUnit_cases c) as [[H E]|[(H & ? & E)|[H E]]];
  rewrite ?E in *.

Lemma lowerCodeUnit_idemp (c : N) :
  lowerCodeUnit (lowerCodeUnit c) = lowerCodeUnit c.
Proof.
  lower_cases c; [| |done]; unfold lowerCodeUnit; by settle_comparisons.
Qed.

Lemma toLowerCase_idemp (s : jsstring) :
  toLowerCase (toLowerCase s) = toLowerCase s.
Proof.
  unfold toLowerCase. rewrite List.map_map. apply List.map_ext.
  apply lowerCodeUnit_idemp.
Qed.

Lemma isWhiteSpace_lower (c : N) :
  isWhiteSpace (lowerCodeUnit c) = isWhiteSpace c.
Proof.
  lower_cases c; [| |done]; unfold isWhiteSpace; by settle_comparisons.
Qed.

Lemma isCurrency_lower (c : N) : isCurrency (lowerCodeUnit c) = isCurrency c.
Proof.
  lower_cases c; [| |done]; unfold isCurrency; by settle_comparisons.
Qed.

Lemma isComma_lower (c : N) : isComma (lowerCodeUnit c) = isComma c.
Proof.
  lower_cases c; [| |done]; unfold isComma; by settle_comparisons.
Qed.

Lemma isDigit_lower (c : N) : isDigit (lowerCodeUnit c) = isDigit c.
Proof.
  lower_cases c; [| |done]; unfold isDigit; by settle_comparisons.
Qed.

Lemma isDigit_lower_fixed (c : N) : isDigit c = true → lowerCodeUnit c = c.
Proof.
  unfold isDigit. intros [?%N.leb_le ?%N.leb_le]%andb_true_iff.
  lower_cases c; lia || done.
Qed.

(** A code unit outside the letters is the image of itself only. *)
Lemma eqb_lower (c k : N) :
  (k < 65 ∨ 90 < k < 97 ∨ 122 < k < 192)%N →
  (lowerCodeUnit c =? k)%N = (c =? k)%N.
Proof.
  intros Hk. lower_cases c; [| |done]; by settle_comparisons.
Qed.

Lemma removeAll_lower (cls : N → bool) (s : jsstring) :
  (∀ c, cls (lowerCodeUnit c) = cls c) →
  removeAll cls (toLowerCase s) = toLowerCase (removeAll cls s).
Proof.
  intros Hcls. unfold removeAll, toLowerCase.
  induction s as [|c s IH]; [done|]. cbn [List.map List.filter].
  rewrite Hcls, IH. by destruct (cls c).
Qed.

Lemma cleanedValue_lower (s : jsstring) :
  cleanedValue (toLowerCase s) = toLowerCase (cleanedValue s).
Proof.
  unfold cleanedValue.
  by rewrite !removeAll_lower
    by (apply isCurrency_lower || apply isComma_lower || apply isWhiteSpace_lower).
Qed.

Lemma trimStart_lower (s : jsstring) :
  trimStart (toLowerCase s) = toLowerCase (trimStart s).
Proof.
  induction s as [|c s IH]; [done|]. cbn [toLowerCase List.map trimStart].
  rewrite isWhiteSpace_lower. by destruct (isWhiteSpace c).
Qed.

Lemma readDigits_lower (s : jsstring) (acc n : Z) :
  readDigits (toLowerCase s) acc n =
    let '(a, k, r) := readDigits s acc n in (a, k, toLowerCase r).
Proof.
  revert acc n. induction s as [|c s IH]; intros acc n; [done|].
  cbn [toLowerCase List.map readDigits]. rewrite isDigit_lower.
  destruct (isDigit c) eqn:Hc; [|done].
  rewrite (isDigit_lower_fixed c Hc). apply IH.
Qed.

Lemma readExponent_lower (s : jsstring) :
  readExponent (toLowerCase s) = readExponent s.
Proof.
  destruct s as [|c s]; [done|]. cbn [toLowerCase List.map readExponent].
  assert (((lowerCodeUnit c =? 101) || (lowerCodeUnit c =? 69))%N
          = ((c =? 101) || (c =? 69))%N) as ->.
  { lower_cases c; [| |done]; settle_comparisons;
      destruct (N.eqb_spec c 69); by settle_comparisons. }
  destruct ((c =? 101) || (c =? 69))%N; [|done].
  assert (Hread : ∀ r, (let '(v, n, _) := readDigits (toLowerCase r) 0 0 in
                        if n =? 0 then 0 else 1 * v)
                       = (let '(v, n, _) := readDigits r 0 0 in
                          if n =? 0 then 0 else 1 * v)
                     ∧ (let '(v, n, _) := readDigits (toLowerCase r) 0 0 in
                        if n =? 0 then 0 else -1 * v)
                       = (let '(v, n, _) := readDigits r 0 0 in
                          if n =? 0 then 0 else -1 * v)).
  { intros r. rewrite readDigits_lower. by destruct (readDigits r 0 0) as [[? ?] ?]. }
  destruct s as [|d s]; [done|]. cbn [List.map].
  rewrite !(eqb_lower d) by lia.
  destruct (d =? 43)%N; [apply Hread|].
  destruct (d =? 45)%N; [apply Hread|].
  apply (Hread (d :: s)).
Qed.

Lemma readUnsigned_lower (s : jsstring) :
  readUnsigned (toLowerCase s) = readUnsigned s.
Proof.
  unfold readUnsigned. rewrite readDigits_lower.
  destruct (readDigits s 0 0) as [[ip ni] s1].
  destruct s1 as [|c s2]; [done|]. cbn [toLowerCase List.map].
  fold (toLowerCase s2).
  assert (Hpoint : lowerCodeUnit c = 46%N ↔ c = 46%N).
  { rewrite <- !N.eqb_eq. by rewrite eqb_lower by lia. }
  destruct (decide (c = 46%N)) as [->|Hne].
  - change (lowerCodeUnit 46) with 46%N. rewrite readDigits_lower.
    destruct (readDigits s2 ip 0) as [[fp nf] s3].
    by rewrite readExponent_lower.
  - assert (Hne' : lowerCodeUnit c ≠ 46%N) by (by rewrite Hpoint).
    pose proof (readExponent_lower (c :: s2)) as Hexp.
    cbn [toLowerCase List.map] in Hexp. fold (toLowerCase s2) in Hexp.
    rewrite Hexp.
    destruct (lowerCodeUnit c) as [|p]; destruct c as [|q]; try done;
      do 8 (try destruct p as [p|p|]; try done);
      do 8 (try destruct q as [q|q|]; try done).
Qed.

Lemma parseFloat_eq (s : jsstring) :
  parseFloat s =
    match trimStart s with
    | c :: u =>
        if (c =? 43)%N then parseSigned false u
        else if (c =? 45)%N then parseSigned true u
        else parseSigned false (c :: u)
    | [] => parseSigned false []
    end.
Proof.
  unfold parseFloat. destruct (trimStart s) as [|c u]; [done|].
  destruct c as [|p]; [done|].
  do 8 (try destruct p as [p|p|]; try done).
Qed.

Lemma parseSigned_lower (neg : bool) (u : jsstring) :
  parseSigned neg (toLowerCase u) =
    if startsWith u (js "Infinity") then S754_nan else parseSigned neg u.
Proof.
  unfold parseSigned. rewrite readUnsigned_lower.
  assert (startsWith (toLowerCase u) (js "Infinity") = false) as ->.
  { destruct u as [|c u]; [done|].
    change (js "Infinity") with (73%N :: js "nfinity").
    cbn [toLowerCase List.map startsWith].
    assert ((73 =? lowerCodeUnit c)%N = false) as ->; [|done].
    lower_cases c; by settle_comparisons. }
  destruct (startsWith u (js "Infinity")) eqn:Hinf; [|done].
  apply startsWith_spec in Hinf as [r ->]. done.
Qed.

(** Lower-casing a string either leaves its number as it is or leaves
    no number at all. *)
Lemma parseFloat_lower (s : jsstring) :
  parseFloat (toLowerCase s) = S754_nan
  ∨ parseFloat (toLowerCase s) = parseFloat s.
Proof.
  rewrite !parseFloat_eq, trimStart_lower.
  destruct (trimStart s) as [|c u]; [by right|].
  cbn [toLowerCase List.map]. fold (toLowerCase u).
  rewrite !(eqb_lower c) by lia.
  destruct (c =? 43)%N;
    [rewrite parseSigned_lower; destruct (startsWith _ _); auto|].
  destruct (c =? 45)%N;
    [rewrite parseSigned_lower; destruct (startsWith _ _); auto|].
  change (lowerCodeUnit c :: toLowerCase u) with (toLowerCase (c :: u)).
  rewrite parseSigned_lower. destruct (startsWith _ _); auto.
Qed.

Lemma isNumeric_lower (s : jsstring) :
  isNumeric (parseFloat s) = false →
  isNumeric (parseFloat (toLowerCase s)) = false.
Proof. intros H. by destruct (parseFloat_lower s) as [-> | ->]. Qed.

(** ** C9: normalizing twice *)

Lemma caseFolded_idemp (comparisonSettings : ComparisonSettings)
    (ignoreCase_ : option bool) (t : jsstring) :
  caseFolded comparisonSettings ignoreCase_
    (caseFolded comparisonSettings ignoreCase_ t)
  = caseFolded comparisonSettings ignoreCase_ t.
Proof.
  unfold caseFolded. destruct (match ignoreCase_ with Some b => b | None => _ end);
    [apply toLowerCase_idemp | done].
Qed.

Lemma isNumeric_caseFolded (comparisonSettings : ComparisonSettings)
    (ignoreCase_ : option bool) (t : jsstring) :
  isNumeric (parseFloat (cleanedValue t)) = false →
  isNumeric (parseFloat (cleanedValue (caseFolded comparisonSettings ignoreCase_ t)))
    = false.
Proof.
  intros H. unfold caseFolded.
  destruct (match ignoreCase_ with Some b => b | None => _ end); [|done].
  rewrite cleanedValue_lower. by apply isNumeric_lower.
Qed.

(** C9.  Let [y] be the result of [normalizeValue] on an input that is
    blank or takes the non-numeric path.  When [y] is left as it is by
    the optional trim and by the removal of a final [.0], and is empty
    or not blank, normalizing [y] again gives [y]. *)
Theorem normalize_text_idempotent (comparisonSettings : ComparisonSettings)
    (x : jsstring) (precision : option Z) (ignoreCase_ : option bool) :
  let y := normalizeValue comparisonSettings x precision ignoreCase_ in
  isBlank x = true
    ∨ isNumeric (parseFloat (cleanedValue (trimmedValue comparisonSettings x)))
      = false →
  trimmedValue comparisonSettings y = y →
  isBlank y = false ∨ y = [] →
  normalizeValue comparisonSettings y precision ignoreCase_ = y.
Proof.
  intros y Hx Hstable Hblank.
  destruct Hblank as [Hblank| Hy]; [|by rewrite Hy].
  rewrite normalizeValue_eq, Hblank. cbn zeta. rewrite Hstable.
  assert (Hy : y = caseFolded comparisonSettings ignoreCase_
                     (trimmedValue comparisonSettings x)
               ∧ isNumeric (parseFloat (cleanedValue (trimmedValue comparisonSettings x)))
                 = false).
  { unfold y in *. rewrite normalizeValue_eq in Hblank |- *.
    destruct (isBlank x); [done|]. cbn zeta in *.
    destruct Hx as [Hx|Hx]; [done|]. by rewrite Hx. }
  destruct Hy as [Hy Hnum]. rewrite Hy.
  by rewrite isNumeric_caseFolded, caseFolded_idemp.
Qed.

(** ** Instances and counterexamples *)








(** With one source column mapped three times, a row is different
    although no entry of its unified view is flagged. *)
Lemma differences_unified_counterexample :
  ∃ r ud,
    r ∈ results defaultSettings repeatedSource repeatedCompare repeatedMapping
    ∧ unifiedData r = Some ud
    ∧ type r = Different
    ∧ ¬ ∃ c, isFlagged ud c.
Proof.
  set (sr := rowData (headers repeatedSource) [js "p|p"]).
  set (cr := rowData (headers repeatedCompare) [js "p"; js "p|p|p"; js "p|p"]).
  exists (matchedRow defaultSettings repeatedMapping sr cr).
  eexists. split; [|split; [by rewrite matchedRow_eq|split]].
  - vm_compute. apply list_elem_of_here.
  - by vm_compute.
  - intros [c Hc]. unfold isFlagged, repeatedMapping in Hc. cbn [foldl] in Hc.
    unfold writeEntry in Hc.
    destruct (decide (c = js "a")) as [->|Hne].
    + by vm_compute in Hc.
    + change (sourceColumn (mapping "a" "z")) with (js "a") in Hc.
      change (sourceColumn (mapping "a" "y")) with (js "a") in Hc.
      change (sourceColumn (mapping "a" "x")) with (js "a") in Hc.
      by rewrite !lookup_insert_ne, lookup_empty in Hc.
Qed.

Lemma differences_match_unified_witness :
  let r :=
    matchedRow defaultSettings shiftedMapping
      (rowData (headers shiftedSource) [js "p|q"; js "r"])
      (rowData (headers shiftedCompare) [js "p"; js "q|r"]) in
  r ∈ results defaultSettings shiftedSource shiftedCompare shiftedMapping
  ∧ type r = Different
  ∧ NoDup (sourceColumn <$> shiftedMapping)
  ∧ ∃ ud,
      unifiedData r = Some ud
      ∧ (type r = Different ↔ ∃ c, isFlagged ud c)
      ∧ differences r
        = Some (filter (λ c, isFlagged ud c) (sourceColumn <$> shiftedMapping)).
Proof.
  cbn zeta.
  set (r := matchedRow defaultSettings shiftedMapping _ _).
  assert (Hin : r ∈ results defaultSettings shiftedSource shiftedCompare shiftedMapping).
  { vm_compute. apply list_elem_of_here. }
  assert (Ht : type r = Different) by (by vm_compute).
  assert (Hnd : NoDup (sourceColumn <$> shiftedMapping)).
  { apply (bool_decide_unpack (NoDup _)). by vm_compute. }
  split; [done|]. split; [done|]. split; [done|].
  destruct (differences_match_unified defaultSettings shiftedSource shiftedCompare
              shiftedMapping r Hin) as (ud & Hud & Hiff & _ & Hds & _).
  - rewrite Ht. apply list_elem_of_further, list_elem_of_here.
  - done.
  - exists ud. split; [done|]. split; [done|]. by apply Hds.
Defined.



(** ["abc.0.0"] normalizes to ["abc.0"], which normalizes to ["abc"]. *)
Lemma normalize_idempotent_counterexample :
  normalizeValue defaultSettings (js "abc.0.0") (Some 2) (Some true) = js "abc.0"
  ∧ normalizeValue defaultSettings
      (normalizeValue defaultSettings (js "abc.0.0") (Some 2) (Some true))
      (Some 2) (Some true)
    ≠ normalizeValue defaultSettings (js "abc.0.0") (Some 2) (Some true).
Proof. split; vm_compute; (reflexivity || discriminate). Qed.

(** On the numeric path too a second pass can move a large value:
    ["40000000000000.016"] normalizes to ["40000000000000.02"], which
    normalizes to ["40000000000000.03"]. *)
Lemma normalize_numeric_twice :
  normalizeValue defaultSettings (js "40000000000000.016") (Some 2) (Some true)
    = js "40000000000000.02"
  ∧ normalizeValue defaultSettings (js "40000000000000.02") (Some 2) (Some true)
    = js "40000000000000.03".
Proof. by vm_compute. Qed.

Lemma normalize_text_idempotent_witness :
  let y := normalizeValue defaultSettings (js " Abc.0 ") (Some 2) (Some true) in
  isNumeric (parseFloat (cleanedValue (trimmedValue defaultSettings (js " Abc.0 "))))
    = false
  ∧ trimmedValue defaultSettings y = y
  ∧ isBlank y = false
  ∧ y = js "abc"
  ∧ normalizeValue defaultSettings y (Some 2) (Some true) = y.
Proof.
  cbn zeta. split; [by vm_compute|]. split; [by vm_compute|].
  split; [by vm_compute|]. split; [by vm_compute|].
  apply (normalize_text_idempotent defaultSettings (js " Abc.0 ") (Some 2) (Some true)).
  - right. by vm_compute.
  - by vm_compute.
  - left. by vm_compute.
Defined.

(** * Further properties of the engine *)

(** ** Where the rows of the output come from *)

(** An entry of an index is the record of a row of the table, filed
    under the key of that record. *)
Lemma indexRows_entry (comparisonSettings : ComparisonSettings) (file : CSVData)
    (column : ColumnMapping → jsstring) (mappings : list ColumnMapping)
    (k : jsstring) (d : record) :
  (k, d) ∈ indexRows comparisonSettings file column mappings →
  ∃ row, row ∈ rows file ∧ d = rowData (headers file) row
         ∧ keyOf comparisonSettings column mappings d = k.
Proof.
  intros Hin.
  destruct (index_entry_last
              (λ row, keyOf comparisonSettings column mappings
                        (rowData (headers file) row))
              (rowData (headers file)) (rows file) k d Hin)
    as (pre & x & post & Hrows & Hk & Hd & _).
  exists x. cbn beta in Hk, Hd. split; [|split].
  - rewrite Hrows. apply elem_of_app. right. apply list_elem_of_here.
  - done.
  - by rewrite <- Hd.
Qed.

(** A key of an index is the key of some row, and the key of every row
    is in the index. *)
Lemma indexRows_get_row (comparisonSettings : ComparisonSettings) (file : CSVData)
    (column : ColumnMapping → jsstring) (mappings : list ColumnMapping)
    (row : list jsstring) :
  row ∈ rows file →
  ∃ d, JSMap.get (indexRows comparisonSettings file column mappings)
         (keyOf comparisonSettings column mappings (rowData (headers file) row))
       = Some d
       ∧ keyOf comparisonSettings column mappings d
         = keyOf comparisonSettings column mappings (rowData (headers file) row).
Proof.
  intros Hrow.
  assert (Hk : keyOf comparisonSettings column mappings (rowData (headers file) row)
               ∈ JSMap.keys (indexRows comparisonSettings file column mappings)).
  { apply elem_of_keys_indexRows. unfold keysOf.
    apply list_elem_of_In, in_map_iff. exists row. split; [done|].
    by apply list_elem_of_In. }
  apply get_is_Some in Hk as [d Hd]. exists d. split; [done|].
  apply get_Some_elem_of, indexRows_entry in Hd as (row' & _ & _ & Hkey). done.
Qed.

Lemma get_None_no_row (comparisonSettings : ComparisonSettings) (file : CSVData)
    (column : ColumnMapping → jsstring) (mappings : list ColumnMapping)
    (k : jsstring) :
  JSMap.get (indexRows comparisonSettings file column mappings) k = None →
  ∀ row, row ∈ rows file →
         keyOf comparisonSettings column mappings (rowData (headers file) row) ≠ k.
Proof.
  intros Hnone row Hrow Hk.
  destruct (indexRows_get_row comparisonSettings file column mappings row Hrow)
    as (d & Hd & _).
  rewrite Hk in Hd. congruence.
Qed.

(** A row of type match or different is the matched row of the records
    of a source row and of a compare row with the same join key. *)
Lemma matched_rows_of_tables (comparisonSettings : ComparisonSettings)
    (sourceFile compareFile : CSVData) (mappings : list ColumnMapping)
    (r : ComparisonRow) :
  r ∈ results comparisonSettings sourceFile compareFile mappings →
  type r ∈ [Match; Different] →
  ∃ sourceRow compareRow,
    sourceRow ∈ rows sourceFile ∧ compareRow ∈ rows compareFile
    ∧ r = matchedRow comparisonSettings mappings
            (rowData (headers sourceFile) sourceRow)
            (rowData (headers compareFile) compareRow)
    ∧ keyOf comparisonSettings sourceColumn mappings
        (rowData (headers sourceFile) sourceRow)
      = keyOf comparisonSettings compareColumn mappings
          (rowData (headers compareFile) compareRow).
Proof.
  intros Hin Ht.
  destruct (matched_in_results _ _ _ _ _ Hin Ht) as (k & sr & cr & Hs & Hc & ->).
  apply get_Some_elem_of, indexRows_entry in Hs as (srow & Hsrow & -> & Hks).
  apply get_Some_elem_of, indexRows_entry in Hc as (crow & Hcrow & -> & Hkc).
  exists srow, crow. repeat split; try done. by rewrite Hks, Hkc.
Qed.

(** X1.  A row of type match or different pairs the record of a source
    row with the record of a compare row, and the two records have the
    same join key. *)
Theorem paired_rows_share_key (comparisonSettings : ComparisonSettings)
    (sourceFile compareFile : CSVData) (mappings : list ColumnMapping)
    (r : ComparisonRow) :
  r ∈ results comparisonSettings sourceFile compareFile mappings →
  type r ∈ [Match; Different] →
  ∃ sourceRow compareRow,
    sourceRow ∈ rows sourceFile ∧ compareRow ∈ rows compareFile
    ∧ sourceData r = Some (rowData (headers sourceFile) sourceRow)
    ∧ compareData r = Some (rowData (headers compareFile) compareRow)
    ∧ keyOf comparisonSettings sourceColumn mappings
        (rowData (headers sourceFile) sourceRow)
      = keyOf comparisonSettings compareColumn mappings
          (rowData (headers compareFile) compareRow).
Proof.
  intros Hin Ht.
  destruct (matched_rows_of_tables _ _ _ _ _ Hin Ht)
    as (srow & crow & Hsrow & Hcrow & -> & Hkey).
  exists srow, crow. rewrite matchedRow_eq. cbn zeta. cbn [sourceData compareData].
  by repeat split.
Qed.

(** X2.  A row of type missing-in-compare carries the record of a
    source row and no compare record, and no row of the compare table
    has the join key of that record. *)
Theorem missing_in_compare_sound (comparisonSettings : ComparisonSettings)
    (sourceFile compareFile : CSVData) (mappings : list ColumnMapping)
    (r : ComparisonRow) :
  r ∈ results comparisonSettings sourceFile compareFile mappings →
  type r = MissingInCompare →
  ∃ sourceRow,
    sourceRow ∈ rows sourceFile
    ∧ sourceData r = Some (rowData (headers sourceFile) sourceRow)
    ∧ compareData r = None
    ∧ ∀ compareRow, compareRow ∈ rows compareFile →
        keyOf comparisonSettings compareColumn mappings
          (rowData (headers compareFile) compareRow)
        ≠ keyOf comparisonSettings sourceColumn mappings
            (rowData (headers sourceFile) sourceRow).
Proof.
  rewrite results_eq, elem_of_app, !list_elem_of_fmap.
  intros [([k d] & -> & Hin)|(e & -> & _)] Ht; [|done].
  unfold sourceRowResult in *. cbn [fst snd] in *.
  destruct (JSMap.get _ k) as [c|] eqn:Hget.
  { by destruct (type_matchedRow comparisonSettings mappings d c) as [H|H];
      rewrite H in Ht. }
  apply indexRows_entry in Hin as (srow & Hsrow & -> & Hk).
  exists srow. repeat split; try done.
  intros crow Hcrow. rewrite Hk.
  by apply (get_None_no_row comparisonSettings compareFile compareColumn mappings k).
Qed.

(** X3.  A row of type missing-in-source carries the record of a
    compare row and no source record, and no row of the source table
    has the join key of that record. *)
Theorem missing_in_source_sound (comparisonSettings : ComparisonSettings)
    (sourceFile compareFile : CSVData) (mappings : list ColumnMapping)
    (r : ComparisonRow) :
  r ∈ results comparisonSettings sourceFile compareFile mappings →
  type r = MissingInSource →
  ∃ compareRow,
    compareRow ∈ rows compareFile
    ∧ compareData r = Some (rowData (headers compareFile) compareRow)
    ∧ sourceData r = None
    ∧ ∀ sourceRow, sourceRow ∈ rows sourceFile →
        keyOf comparisonSettings sourceColumn mappings
          (rowData (headers sourceFile) sourceRow)
        ≠ keyOf comparisonSettings compareColumn mappings
            (rowData (headers compareFile) compareRow).
Proof.
  rewrite results_eq, elem_of_app, !list_elem_of_fmap.
  intros [(e & -> & _)|([k d] & -> & [Hk Hin]%list_elem_of_filter)] Ht.
  { destruct (type_sourceRowResult comparisonSettings mappings
                (compareMap comparisonSettings compareFile mappings) e)
      as [[H _]|[[H|H] _]]; by rewrite H in Ht. }
  cbn [fst snd] in *.
  apply indexRows_entry in Hin as (crow & Hcrow & -> & Hkc).
  exists crow. repeat split; try done.
  intros srow Hsrow. rewrite Hkc. intros Heq. apply Hk.
  apply elem_of_keys_indexRows. unfold keysOf. rewrite <- Heq.
  apply list_elem_of_In, in_map_iff. exists srow. split; [done|].
  by apply list_elem_of_In.
Qed.

(** ** Every key once *)


Lemma length_filter_fmap_on {A B} (f : A → B) (P : B → Prop) (Q : A → Prop)
    `{!∀ y, Decision (P y), !∀ x, Decision (Q x)} (l : list A) :
  Forall (λ x, Q x ↔ P (f x)) l →
  length (filter P (f <$> l)) = length (filter Q l).
Proof. intros Hall. by rewrite <- (filter_fmap_on f P Q l Hall), length_fmap. Qed.



(** ** The shape of the rows *)

(** X5.  Every output row has the fields of its type: match and
    different rows have both records and the unified view, different
    rows a non-empty list of differences and match rows none;
    missing-in-compare rows have the source record only and
    missing-in-source rows the compare record only. *)
Theorem rows_have_their_shape (comparisonSettings : ComparisonSettings)
    (sourceFile compareFile : CSVData) (mappings : list ColumnMapping) :
  Forall rowShape (results comparisonSettings sourceFile compareFile mappings).
Proof.
  rewrite results_eq. apply Forall_app. split.
  - apply Forall_fmap, Forall_forall. intros [k d] _. cbn.
    unfold sourceRowResult. cbn [fst snd].
    destruct (JSMap.get _ k) as [c|]; [|by repeat split].
    rewrite matchedRow_eq. cbn zeta. unfold rowShape.
    cbn [type sourceData compareData differences unifiedData].
    destruct (filter _ mappings) as [|m l]; cbn; repeat split; eauto.
  - apply Forall_fmap, Forall_forall. intros e _. cbn. by repeat split.
Qed.

(** ** The comparison of two cells *)

Lemma abs_binary_round (s : bool) (m : positive) (e : Z) :
  SFabs (binary_round prec emax s m e) = binary_round prec emax false m e.
Proof.
  unfold binary_round, binary_round_aux.
  destruct (shl_align _ _ _) as [mz ez].
  destruct (shr_fexp _ _ _ _ _) as [mrs' e'].
  destruct (shr_fexp _ _ _ _ _) as [mrs'' e''].
  destruct (shr_m mrs''); [done | | done].
  by destruct (e'' <=? emax - prec).
Qed.

Lemma abs_binary_normalize_opp (d e : Z) :
  SFabs (binary_normalize prec emax (- d) e false)
  = SFabs (binary_normalize prec emax d e false).
Proof.
  destruct d as [|p|p]; [done| |]; unfold binary_normalize, Z.opp;
    by rewrite !abs_binary_round.
Qed.

Lemma abs_sub_comm (x y : number) : abs (sub x y) = abs (sub y x).
Proof.
  unfold abs, sub.
  destruct x as [sx|sx| |sx mx ex], y as [sy|sy| |sy my ey];
    try done; try (by destruct sx, sy).
  cbn [SFsub]. rewrite (Z.min_comm ey ex).
  rewrite <- abs_binary_normalize_opp. f_equal. f_equal. lia.
Qed.

Lemma sub_diag (x : number) :
  isNaN x = false → isInfinite x = false →
  abs (sub x x) = S754_zero false.
Proof.
  destruct x as [s|s| |s m e]; try done; intros _ _.
  - by destruct s.
  - unfold abs, sub. cbn [SFsub]. by rewrite Z.sub_diag.
Qed.

Lemma sub_diag_infinite (x : number) :
  isInfinite x = true → abs (sub x x) = S754_nan.
Proof. destruct x as [s|s| |s m e]; try done. by destruct s. Qed.

(** The tolerance [10^(-p)] is a positive number for the precisions
    from 0 to 323; from 324 on it is zero. *)
Lemma tolerance_positive (p : Z) :
  0 <= p <= 323 → ltb (S754_zero false) (pow10 (- p)) = true.
Proof.
  intros Hp.
  assert (Hall : forallb (λ n, ltb (S754_zero false) (pow10 (- Z.of_nat n)))
                   (seq 0 324) = true) by (by vm_compute).
  rewrite forallb_forall in Hall.
  specialize (Hall (Z.to_nat p)). rewrite Z2Nat.id in Hall by lia.
  apply Hall, in_seq. lia.
Qed.

Section Comparison.
Variable comparisonSettings : ComparisonSettings.
Hypothesis Hprecision : 0 <= numericPrecision comparisonSettings <= 323.

Local Abbreviation normalized v :=
  (normalizeValue comparisonSettings v
     (Some (numericPrecision comparisonSettings))
     (Some (ignoreCase comparisonSettings))).

Lemma valuesAreEqual_same_normalized (val1 val2 : jsstring) :
  normalized val1 = normalized val2 →
  valuesAreEqual comparisonSettings val1 val2
    = negb (isInfinite (parseFloat (normalized val1))).
Proof.
  intros Heq. unfold valuesAreEqual. rewrite <- Heq.
  destruct (isNaN (parseFloat (normalized val1))) eqn:Hnan.
  - cbn [negb andb]. unfold JSString.eqb. rewrite bool_decide_eq_true_2 by done.
    by destruct (parseFloat (normalized val1)).
  - cbn [negb andb].
    destruct (isInfinite (parseFloat (normalized val1))) eqn:Hinf.
    + by rewrite sub_diag_infinite.
    + rewrite sub_diag by done. by apply tolerance_positive.
Qed.

End Comparison.

(** X6.  For a precision from 0 to 323, a value compares equal to
    itself exactly when its normalized form does not parse to an
    infinity; so ["1e308"] at precision 2, which overflows in the
    rounding, and ["Infinity"] when case is kept, are different from
    themselves. *)
Theorem valuesAreEqual_reflexive :
  (∀ (comparisonSettings : ComparisonSettings) (val : jsstring),
     0 <= numericPrecision comparisonSettings <= 323 →
     valuesAreEqual comparisonSettings val val
       = negb (isInfinite
                 (parseFloat
                    (normalizeValue comparisonSettings val
                       (Some (numericPrecision comparisonSettings))
                       (Some (ignoreCase comparisonSettings))))))
  ∧ valuesAreEqual defaultSettings (js "1e308") (js "1e308") = false
  ∧ valuesAreEqual
      {| numericPrecision := 2; ignoreCase := false; trimWhitespace := true |}
      (js "Infinity") (js "Infinity") = false.
Proof.
  split; [|by vm_compute].
  intros comparisonSettings val Hp.
  by apply valuesAreEqual_same_normalized.
Qed.

(** X7.  The comparison of two cells is symmetric. *)
Theorem valuesAreEqual_symmetric (comparisonSettings : ComparisonSettings)
    (val1 val2 : jsstring) :
  valuesAreEqual comparisonSettings val1 val2
    = valuesAreEqual comparisonSettings val2 val1.
Proof.
  unfold valuesAreEqual. rewrite abs_sub_comm, (andb_comm (negb _)).
  destruct (_ && _); [done|]. unfold JSString.eqb.
  apply bool_decide_ext. split; congruence.
Qed.

(** ** Join keys without the separator *)

Lemma app_separator_inj (c : N) (x x' a a' : jsstring) :
  c ∉ x → c ∉ x' → x ++ c :: a = x' ++ c :: a' → x = x' ∧ a = a'.
Proof.
  revert x'. induction x as [|d x IH]; intros [|d' x'] Hx Hx' Heq;
    cbn [app] in Heq.
  - by injection Heq as ->.
  - injection Heq as <- _. exfalso. apply Hx'. apply list_elem_of_here.
  - injection Heq as -> _. exfalso. apply Hx. apply list_elem_of_here.
  - injection Heq as -> Heq. apply not_elem_of_cons in Hx as [_ Hx].
    apply not_elem_of_cons in Hx' as [_ Hx'].
    by destruct (IH x' Hx Hx' Heq) as [-> ->].
Qed.

Lemma join_cons2 (sep p q : jsstring) (ps : list jsstring) :
  join sep (p :: q :: ps) = p ++ sep ++ join sep (q :: ps).
Proof. done. Qed.

Lemma join_separator_inj (c : N) (l1 l2 : list jsstring) :
  length l1 = length l2 →
  Forall (λ p, c ∉ p) l1 → Forall (λ p, c ∉ p) l2 →
  join [c] l1 = join [c] l2 → l1 = l2.
Proof.
  revert l2. induction l1 as [|p [|q l1] IH]; intros l2 Hlen H1 H2 Heq.
  - by destruct l2.
  - destruct l2 as [|p' [|q' l2]]; try done. cbn in Heq. by rewrite Heq.
  - destruct l2 as [|p' [|q' l2]]; try done.
    rewrite !join_cons2 in Heq. cbn [app] in Heq.
    apply Forall_cons in H1 as [Hp H1]. apply Forall_cons in H2 as [Hp' H2].
    destruct (app_separator_inj c p p' _ _ Hp Hp' Heq) as [-> Hrest].
    f_equal. apply IH; try done. cbn [length] in Hlen |- *. lia.
Qed.

(** The normalized cells that a join key is made of. *)
Lemma keyOf_cells (comparisonSettings : ComparisonSettings)
    (column : ColumnMapping → jsstring) (mappings : list ColumnMapping)
    (d : record) :
  keyOf comparisonSettings column mappings d
  = join [separator] (normalizedCell comparisonSettings column d <$> mappings).
Proof. done. Qed.

Lemma keys_equal_cells_equal (comparisonSettings : ComparisonSettings)
    (mappings : list ColumnMapping) (sourceRow compareRow : record) :
  Forall (λ m, separator ∉ normalizedCell comparisonSettings sourceColumn sourceRow m)
    mappings →
  Forall (λ m, separator ∉ normalizedCell comparisonSettings compareColumn compareRow m)
    mappings →
  keyOf comparisonSettings sourceColumn mappings sourceRow
  = keyOf comparisonSettings compareColumn mappings compareRow →
  Forall (λ m, normalizedCell comparisonSettings sourceColumn sourceRow m
               = normalizedCell comparisonSettings compareColumn compareRow m)
    mappings.
Proof.
  intros Hs Hc. rewrite !keyOf_cells. intros Heq.
  apply join_separator_inj in Heq.
  - clear Hs Hc. induction mappings as [|m l IH]; [constructor|].
    rewrite !fmap_cons in Heq. injection Heq as Hm Hl. constructor; auto.
  - by rewrite !length_fmap.
  - by apply Forall_fmap.
  - by apply Forall_fmap.
Qed.

(** X8.  When no normalized cell of two records holds the separator,
    the two records have the same join key exactly when the mapped
    cells have the same normalized values, entry by entry. *)
Theorem keys_equal_iff_cells_equal (comparisonSettings : ComparisonSettings)
    (mappings : list ColumnMapping) (sourceRow compareRow : record) :
  Forall (λ m, separator ∉ normalizedCell comparisonSettings sourceColumn sourceRow m)
    mappings →
  Forall (λ m, separator ∉ normalizedCell comparisonSettings compareColumn compareRow m)
    mappings →
  (keyOf comparisonSettings sourceColumn mappings sourceRow
   = keyOf comparisonSettings compareColumn mappings compareRow)
  ↔ Forall (λ m, normalizedCell comparisonSettings sourceColumn sourceRow m
                 = normalizedCell comparisonSettings compareColumn compareRow m)
      mappings.
Proof.
  intros Hs Hc. split; [by apply keys_equal_cells_equal|].
  rewrite !keyOf_cells. intros Hall. f_equal. clear Hs Hc.
  induction Hall as [|m l Hm _ IH]; [done|]. rewrite !fmap_cons. by rewrite Hm, IH.
Qed.

(** X9.  For a precision from 0 to 323: when no normalized mapped cell
    of either table holds the separator and none of the source table
    parses to an infinity, no output row is of type different: rows
    are paired by the values that would be compared. *)
Theorem no_difference_without_separator (comparisonSettings : ComparisonSettings)
    (sourceFile compareFile : CSVData) (mappings : list ColumnMapping) :
  0 <= numericPrecision comparisonSettings <= 323 →
  (∀ row m, row ∈ rows sourceFile → m ∈ mappings →
     let cell := normalizedCell comparisonSettings sourceColumn
                   (rowData (headers sourceFile) row) m in
     (separator ∉ cell) ∧ isInfinite (parseFloat cell) = false) →
  (∀ row m, row ∈ rows compareFile → m ∈ mappings →
     separator ∉ normalizedCell comparisonSettings compareColumn
                   (rowData (headers compareFile) row) m) →
  countType Different (results comparisonSettings sourceFile compareFile mappings)
    = 0%nat.
Proof.
  intros Hp Hsrc Hcmp. unfold countType.
  apply length_zero_iff_nil, filter_none, Forall_forall. intros r Hin Ht.
  destruct (matched_rows_of_tables comparisonSettings sourceFile compareFile
              mappings r Hin)
    as (srow & crow & Hsrow & Hcrow & Hr & Hkey).
  { rewrite Ht. apply list_elem_of_further, list_elem_of_here. }
  rewrite Hr, matchedRow_eq in Ht. cbn zeta in Ht. cbn [type] in Ht.
  apply keys_equal_cells_equal in Hkey.
  - rewrite filter_none in Ht; [done|].
    apply Forall_forall. intros m Hm. eapply Forall_forall in Hkey; [|exact Hm].
    unfold areDifferent. unfold normalizedCell in Hkey.
    rewrite (valuesAreEqual_same_normalized comparisonSettings Hp _ _ Hkey).
    destruct (Hsrc srow m Hsrow Hm) as [_ Hinf]. cbn zeta in Hinf.
    unfold normalizedCell in Hinf. rewrite Hinf. cbn. tauto.
  - apply Forall_forall. intros m Hm. by apply (Hsrc srow m Hsrow Hm).
  - apply Forall_forall. intros m Hm. by apply (Hcmp crow m Hcrow Hm).
Qed.

(** ** Letter case and surrounding white space *)

Lemma toLowerCase_rev (s : jsstring) :
  toLowerCase (rev s) = rev (toLowerCase s).
Proof. unfold toLowerCase. by rewrite List.map_rev. Qed.

Lemma trim_lower (s : jsstring) : trim (toLowerCase s) = toLowerCase (trim s).
Proof.
  unfold trim, trimEnd.
  by rewrite trimStart_lower, <- toLowerCase_rev, trimStart_lower, toLowerCase_rev.
Qed.

Lemma isBlank_lower (s : jsstring) : isBlank (toLowerCase s) = isBlank s.
Proof.
  unfold isBlank. rewrite trim_lower. f_equal; [by destruct s|].
  unfold JSString.eqb. apply bool_decide_ext.
  by destruct (trim s).
Qed.

Lemma endsWith_point_zero_lower (s : jsstring) :
  endsWith (toLowerCase s) (js ".0") = endsWith s (js ".0").
Proof.
  unfold endsWith. rewrite <- toLowerCase_rev.
  change (rev (js ".0")) with [48%N; 46%N].
  destruct (rev s) as [|c [|d u]]; [done| |]; cbn [toLowerCase List.map startsWith];
    rewrite ?(N.eqb_sym _ (lowerCodeUnit _)), ?eqb_lower by lia;
    by rewrite ?(N.eqb_sym c), ?(N.eqb_sym d).
Qed.

Lemma sliceEnd_lower (s : jsstring) (n : nat) :
  sliceEnd (toLowerCase s) n = toLowerCase (sliceEnd s n).
Proof.
  unfold sliceEnd, toLowerCase. by rewrite length_map, <- List.firstn_map.
Qed.

Lemma trimmedValue_lower (comparisonSettings : ComparisonSettings) (s : jsstring) :
  trimmedValue comparisonSettings (toLowerCase s)
    = toLowerCase (trimmedValue comparisonSettings s).
Proof.
  unfold trimmedValue. destruct (trimWhitespace comparisonSettings).
  - rewrite trim_lower, endsWith_point_zero_lower.
    destruct (endsWith _ _); [apply sliceEnd_lower | done].
  - rewrite endsWith_point_zero_lower.
    destruct (endsWith _ _); [apply sliceEnd_lower | done].
Qed.

(** Lower-casing keeps the number of a string that has a finite one,
    and gives none to a string that has no finite one. *)
Lemma parseSigned_lower_numeric (neg : bool) (u : jsstring) :
  if isNumeric (parseSigned neg u)
  then parseSigned neg (toLowerCase u) = parseSigned neg u
  else isNumeric (parseSigned neg (toLowerCase u)) = false.
Proof.
  rewrite parseSigned_lower.
  destruct (startsWith u (js "Infinity")) eqn:Hinf.
  - assert (parseSigned neg u = S754_infinity neg) as ->; [|done].
    unfold parseSigned. by rewrite Hinf.
  - by destruct (isNumeric _) eqn:E.
Qed.

Lemma parseFloat_lower_numeric (s : jsstring) :
  if isNumeric (parseFloat s)
  then parseFloat (toLowerCase s) = parseFloat s
  else isNumeric (parseFloat (toLowerCase s)) = false.
Proof.
  rewrite !parseFloat_eq, trimStart_lower.
  destruct (trimStart s) as [|c u]; [done|].
  cbn [toLowerCase List.map]. fold (toLowerCase u).
  rewrite !(eqb_lower c) by lia.
  destruct (c =? 43)%N; [apply parseSigned_lower_numeric|].
  destruct (c =? 45)%N; [apply parseSigned_lower_numeric|].
  apply (parseSigned_lower_numeric false (c :: u)).
Qed.

Lemma normalizeValue_lower (comparisonSettings : ComparisonSettings)
    (value : jsstring) (precision : option Z) :
  normalizeValue comparisonSettings (toLowerCase value) precision (Some true)
    = normalizeValue comparisonSettings value precision (Some true).
Proof.
  rewrite !normalizeValue_eq, isBlank_lower.
  destruct (isBlank value); [done|]. cbn zeta.
  rewrite trimmedValue_lower, cleanedValue_lower.
  pose proof (parseFloat_lower_numeric
                (cleanedValue (trimmedValue comparisonSettings value))) as H.
  destruct (isNumeric (parseFloat (cleanedValue (trimmedValue comparisonSettings value))))
    eqn:E.
  - by rewrite H, E.
  - rewrite H. unfold caseFolded. apply toLowerCase_idemp.
Qed.

(** X10.  When case is ignored, lower-casing a value changes neither
    its normalized form nor the outcome of a comparison with it; so for
    a precision from 0 to 323 two values with the same lower-cased form
    compare equal, unless their normalized form parses to an
    infinity.  (Letters of Basic Latin and Latin-1.) *)
Theorem ignoreCase_ignores_case (comparisonSettings : ComparisonSettings)
    (val1 val2 : jsstring) :
  ignoreCase comparisonSettings = true →
  let normalized v :=
    normalizeValue comparisonSettings v
      (Some (numericPrecision comparisonSettings)) (Some true) in
  normalized (toLowerCase val1) = normalized val1
  ∧ valuesAreEqual comparisonSettings (toLowerCase val1) val2
    = valuesAreEqual comparisonSettings val1 val2
  ∧ (0 <= numericPrecision comparisonSettings <= 323 →
     toLowerCase val1 = toLowerCase val2 →
     valuesAreEqual comparisonSettings val1 val2
       = negb (isInfinite (parseFloat (normalized val1)))).
Proof.
  intros Hic normalized. split; [apply normalizeValue_lower|]. split.
  - unfold valuesAreEqual. by rewrite Hic, normalizeValue_lower.
  - intros Hp Heq.
    rewrite (valuesAreEqual_same_normalized comparisonSettings Hp val1 val2).
    + unfold normalized. by rewrite Hic.
    + rewrite Hic, <- (normalizeValue_lower _ val1), <- (normalizeValue_lower _ val2).
      by rewrite Heq.
Qed.

Lemma trimStart_app_ws (ws s : jsstring) :
  forallb isWhiteSpace ws = true → trimStart (ws ++ s) = trimStart s.
Proof.
  induction ws as [|c ws IH]; [done|]. cbn [forallb app trimStart].
  intros [-> ?]%andb_true_iff. auto.
Qed.

Lemma forallb_rev {A} (f : A → bool) (l : list A) :
  forallb f (rev l) = forallb f l.
Proof.
  induction l as [|x l IH]; [done|]. cbn [rev forallb].
  rewrite forallb_app, IH. cbn. by rewrite andb_true_r, andb_comm.
Qed.

Lemma trimEnd_app_ws (s ws : jsstring) :
  forallb isWhiteSpace ws = true → trimEnd (s ++ ws) = trimEnd s.
Proof.
  intros Hws. unfold trimEnd. rewrite rev_app_distr.
  by rewrite trimStart_app_ws by (by rewrite forallb_rev).
Qed.

Lemma trim_padding (ws1 s ws2 : jsstring) :
  forallb isWhiteSpace ws1 = true → forallb isWhiteSpace ws2 = true →
  trim (ws1 ++ s ++ ws2) = trim s.
Proof.
  intros H1 H2. unfold trim. rewrite trimStart_app_ws by done.
  induction s as [|c s IH].
  - cbn [app]. rewrite <- (app_nil_r ws2), trimStart_app_ws by done. done.
  - cbn [app trimStart]. destruct (isWhiteSpace c); [done|].
    change (c :: s ++ ws2) with ((c :: s) ++ ws2). by apply trimEnd_app_ws.
Qed.

Lemma isBlank_trim (s : jsstring) : isBlank s = JSString.eqb (trim s) [].
Proof. unfold isBlank. by destruct s. Qed.

(** X11.  When white space is trimmed, white space before and after a
    value changes neither its normalized form nor the outcome of a
    comparison with it. *)
Theorem trimWhitespace_ignores_padding (comparisonSettings : ComparisonSettings)
    (ws1 ws2 value other : jsstring) (precision : option Z)
    (ignoreCase_ : option bool) :
  trimWhitespace comparisonSettings = true →
  forallb isWhiteSpace ws1 = true →
  forallb isWhiteSpace ws2 = true →
  normalizeValue comparisonSettings (ws1 ++ value ++ ws2) precision ignoreCase_
    = normalizeValue comparisonSettings value precision ignoreCase_
  ∧ valuesAreEqual comparisonSettings (ws1 ++ value ++ ws2) other
    = valuesAreEqual comparisonSettings value other.
Proof.
  intros Htrim H1 H2.
  assert (Hn : ∀ p ic,
            normalizeValue comparisonSettings (ws1 ++ value ++ ws2) p ic
            = normalizeValue comparisonSettings value p ic).
  { intros p ic. rewrite !normalizeValue_eq, !isBlank_trim.
    unfold trimmedValue. by rewrite Htrim, trim_padding. }
  split; [apply Hn|]. unfold valuesAreEqual. by rewrite Hn.
Qed.

(** ** Records *)

Section RowData.
Variable row : list jsstring.

Local Abbreviation fill m l n :=
  (foldl (λ (rowData : gmap (list N) (list N)) '(index, header),
            <[header := orEmpty (row !! index)]> rowData)
         m (imap (λ i h, ((n + i)%nat, h)) l)).





End RowData.


(** ** Exchanging the two files *)

Lemma keyOf_swapped (comparisonSettings : ComparisonSettings)
    (mappings : list ColumnMapping) (d : record) :
  keyOf comparisonSettings sourceColumn (swapped <$> mappings) d
  = keyOf comparisonSettings compareColumn mappings d
  ∧ keyOf comparisonSettings compareColumn (swapped <$> mappings) d
    = keyOf comparisonSettings sourceColumn mappings d.
Proof. rewrite !keyOf_cells, <- !list_fmap_compose. done. Qed.

Lemma indexRows_ext (comparisonSettings : ComparisonSettings) (file : CSVData)
    (column column' : ColumnMapping → jsstring)
    (mappings mappings' : list ColumnMapping) :
  (∀ d, keyOf comparisonSettings column mappings d
        = keyOf comparisonSettings column' mappings' d) →
  indexRows comparisonSettings file column mappings
  = indexRows comparisonSettings file column' mappings'.
Proof.
  intros Hkey. unfold indexRows. generalize ([] : list (jsstring * record)).
  induction (rows file) as [|row l IH]; intros acc; [done|].
  cbn [foldl]. rewrite Hkey. apply IH.
Qed.

Lemma indexRows_swapped (comparisonSettings : ComparisonSettings)
    (file : CSVData) (mappings : list ColumnMapping) :
  indexRows comparisonSettings file sourceColumn (swapped <$> mappings)
  = indexRows comparisonSettings file compareColumn mappings
  ∧ indexRows comparisonSettings file compareColumn (swapped <$> mappings)
    = indexRows comparisonSettings file sourceColumn mappings.
Proof.
  split; apply indexRows_ext; intros d; apply keyOf_swapped.
Qed.

Lemma areDifferent_swapped (comparisonSettings : ComparisonSettings)
    (sourceRow compareRow : record) (m : ColumnMapping) :
  areDifferent comparisonSettings compareRow sourceRow (swapped m)
  = areDifferent comparisonSettings sourceRow compareRow m.
Proof.
  unfold areDifferent, swapped. cbn [sourceColumn compareColumn]. f_equal.
  unfold valuesAreEqual. rewrite abs_sub_comm, (andb_comm (negb _)).
  destruct (_ && _); [done|]. unfold JSString.eqb.
  apply bool_decide_ext. split; congruence.
Qed.

Lemma type_matchedRow_swapped (comparisonSettings : ComparisonSettings)
    (mappings : list ColumnMapping) (sourceRow compareRow : record) :
  type (matchedRow comparisonSettings (swapped <$> mappings) compareRow sourceRow)
  = type (matchedRow comparisonSettings mappings sourceRow compareRow).
Proof.
  rewrite !matchedRow_eq. cbn zeta. cbn [type]. rewrite !length_fmap.
  rewrite <- (filter_fmap_on swapped
                (λ m, areDifferent comparisonSettings compareRow sourceRow m)
                (λ m, areDifferent comparisonSettings sourceRow compareRow m)).
  - by rewrite length_fmap.
  - apply Forall_forall. intros m _. by rewrite areDifferent_swapped.
Qed.

Lemma pairedType_swapped (comparisonSettings : ComparisonSettings)
    (mappings : list ColumnMapping) (sm cm : list (jsstring * record))
    (k : jsstring) :
  pairedType comparisonSettings (swapped <$> mappings) cm sm k
  = pairedType comparisonSettings mappings sm cm k.
Proof.
  unfold pairedType. destruct (JSMap.get cm k), (JSMap.get sm k); try done.
  by rewrite type_matchedRow_swapped.
Qed.

(** The paired rows of a type, counted by their keys. *)
Lemma count_paired (comparisonSettings : ComparisonSettings)
    (mappings : list ColumnMapping) (sm cm : list (jsstring * record))
    (t : RowType) :
  NoDup (JSMap.keys sm) → t ∈ [Match; Different] →
  countType t (sourceRowResult comparisonSettings mappings cm <$> sm)
  = length (filter (λ k, pairedType comparisonSettings mappings sm cm k = Some t)
              (JSMap.keys sm)).
Proof.
  intros Hnd Ht. unfold countType.
  rewrite (length_filter_fmap_on _ _
             (λ e, pairedType comparisonSettings mappings sm cm e.1 = Some t)).
  - exact (length_filter_keys
             (λ k, pairedType comparisonSettings mappings sm cm k = Some t) sm).
  - apply Forall_forall. intros [k d] Hin. cbn [fst].
    unfold pairedType, sourceRowResult. cbn [fst snd].
    rewrite (elem_of_get sm k d Hnd Hin).
    destruct (JSMap.get cm k) as [c|].
    + split; congruence.
    + split; [done|]. cbn. intros <-.
      by apply elem_of_cons in Ht as [?|?%list_elem_of_singleton].
Qed.

Lemma count_common (P : jsstring → Prop) `{!∀ k, Decision (P k)}
    (l1 l2 : list jsstring) :
  NoDup l1 → NoDup l2 → (∀ k, P k → k ∈ l1 ∧ k ∈ l2) →
  length (filter P l1) = length (filter P l2).
Proof.
  intros H1 H2 HP. apply Permutation_length, NoDup_Permutation.
  - by apply NoDup_filter.
  - by apply NoDup_filter.
  - intros k. rewrite !list_elem_of_filter. split; intros [Hk _]; split;
      try done; by apply HP.
Qed.

Lemma pairedType_keys (comparisonSettings : ComparisonSettings)
    (mappings : list ColumnMapping) (sm cm : list (jsstring * record))
    (k : jsstring) (t : RowType) :
  pairedType comparisonSettings mappings sm cm k = Some t →
  k ∈ JSMap.keys sm ∧ k ∈ JSMap.keys cm.
Proof.
  unfold pairedType. rewrite <- !get_is_Some.
  by destruct (JSMap.get sm k), (JSMap.get cm k).
Qed.

(** X29.  Exchanging the two files, with the mapping read from the
    other side, gives the same verdicts: as many matches and as many
    differences, and the rows missing in the compare file become the
    rows missing in the source file and conversely. *)
Theorem exchanging_the_files (comparisonSettings : ComparisonSettings)
    (sourceFile compareFile : CSVData) (mappings : list ColumnMapping) :
  let rs := results comparisonSettings sourceFile compareFile mappings in
  let rs' := results comparisonSettings compareFile sourceFile
               (swapped <$> mappings) in
  countType Match rs' = countType Match rs
  ∧ countType Different rs' = countType Different rs
  ∧ countType MissingInCompare rs' = countType MissingInSource rs
  ∧ countType MissingInSource rs' = countType MissingInCompare rs.
Proof.
  cbn zeta. rewrite !results_eq, !countType_app. unfold sourceMap, compareMap.
  destruct (indexRows_swapped comparisonSettings sourceFile mappings) as [_ ->].
  destruct (indexRows_swapped comparisonSettings compareFile mappings) as [-> _].
  set (sm := indexRows comparisonSettings sourceFile sourceColumn mappings).
  set (cm := indexRows comparisonSettings compareFile compareColumn mappings).
  assert (Hsm : NoDup (JSMap.keys sm)) by apply NoDup_keys_indexRows.
  assert (Hcm : NoDup (JSMap.keys cm)) by apply NoDup_keys_indexRows.
  destruct (count_front comparisonSettings mappings cm sm) as (F1 & F2 & F3).
  destruct (count_front comparisonSettings (swapped <$> mappings) sm cm)
    as (F1' & F2' & F3').
  destruct (count_back (λ e, e.1 ∉ JSMap.keys sm) cm) as (B1 & B2 & B3 & B4).
  destruct (count_back (λ e, e.1 ∉ JSMap.keys cm) sm) as (B1' & B2' & B3' & B4').
  cbn zeta in *.
  rewrite B1, B2, B3, B4, B1', B2', B3', B4', F2, F2'.
  assert (Hpaired : ∀ t, t ∈ [Match; Different] →
            countType t (sourceRowResult comparisonSettings (swapped <$> mappings)
                           sm <$> cm)
            = countType t (sourceRowResult comparisonSettings mappings cm <$> sm)).
  { intros t Ht. rewrite !count_paired by done.
    rewrite (list_filter_iff _
               (λ k, pairedType comparisonSettings mappings sm cm k = Some t))
      by (intros k; by rewrite pairedType_swapped).
    apply count_common; [done|done|].
    intros k Hk. apply pairedType_keys in Hk. tauto. }
  pose proof (Hpaired Match ltac:(apply list_elem_of_here)) as HM.
  pose proof (Hpaired Different
                ltac:(apply list_elem_of_further, list_elem_of_here)) as HD.
  pose proof (length_filter_keys (λ k, k ∉ JSMap.keys sm) cm) as Ks.
  pose proof (length_filter_keys (λ k, k ∉ JSMap.keys cm) sm) as Kc.
  pose proof (length_split (λ k, k ∈ JSMap.keys sm) (JSMap.keys cm)) as Ss.
  pose proof (length_split (λ k, k ∈ JSMap.keys cm) (JSMap.keys sm)) as Sc.
  assert (Ls : length (JSMap.keys sm) = length sm)
    by (unfold JSMap.keys; apply length_fmap).
  assert (Lc : length (JSMap.keys cm) = length cm)
    by (unfold JSMap.keys; apply length_fmap).
  lia.
Qed.

(** ** The column mapper *)

Section ColumnMapperFacts.

Import ColumnMapper.


Lemma find_Some_elem_of {A} (f : A → bool) (l : list A) (x : A) :
  List.find f l = Some x → x ∈ l ∧ f x = true.
Proof.
  intros H. apply find_some in H as [Hin Hf]. split; [|done].
  by apply list_elem_of_In.
Qed.

Lemma truthyOpt_find (f : jsstring → bool) (l : list jsstring) :
  truthyOpt (List.find f l) = true →
  orEmpty (List.find f l) ∈ l ∧ orEmpty (List.find f l) ≠ []
  ∧ f (orEmpty (List.find f l)) = true.
Proof.
  destruct (List.find f l) as [c|] eqn:Hfind; [|done]. cbn.
  apply find_Some_elem_of in Hfind as [? ?]. by destruct c.
Qed.

Lemma autoMatchOne_Some (compareHeaders : list jsstring) (sourceCol : jsstring)
    (m : ColumnMapping) :
  autoMatchOne compareHeaders sourceCol = Some m →
  sourceColumn m = sourceCol ∧ compareColumn m ∈ compareHeaders
  ∧ compareColumn m ≠ [].
Proof.
  unfold autoMatchOne.
  destruct (truthyOpt (List.find _ compareHeaders)) eqn:Hexact.
  - intros [= <-]. cbn. apply (truthyOpt_find) in Hexact. tauto.
  - match goal with |- context [if ?b then _ else _] => destruct b eqn:Hpart end;
      [|done].
    intros [= <-]. cbn. apply (truthyOpt_find) in Hpart. tauto.
Qed.

Lemma autoMappings_snoc (sourceHeaders compareHeaders : list jsstring)
    (sourceCol : jsstring) :
  autoMappings (sourceHeaders ++ [sourceCol]) compareHeaders
  = autoMappings sourceHeaders compareHeaders
    ++ option_list (autoMatchOne compareHeaders sourceCol).
Proof.
  unfold autoMappings. rewrite foldl_snoc.
  destruct (autoMatchOne _ _); cbn; [done|]. by rewrite app_nil_r.
Qed.

Lemma autoMappings_eq (sourceHeaders compareHeaders : list jsstring) :
  autoMappings sourceHeaders compareHeaders
  = omap (autoMatchOne compareHeaders) sourceHeaders.
Proof.
  induction sourceHeaders as [|h l IH] using rev_ind; [done|].
  rewrite autoMappings_snoc, IH, omap_app. cbn.
  by destruct (autoMatchOne _ _).
Qed.

Lemma autoMappings_sources (sourceHeaders compareHeaders : list jsstring) :
  sourceColumn <$> autoMappings sourceHeaders compareHeaders
  = filter (λ h, is_Some (autoMatchOne compareHeaders h)) sourceHeaders.
Proof.
  rewrite autoMappings_eq.
  induction sourceHeaders as [|h l IH]; [done|].
  cbn [omap list_omap]. rewrite filter_cons.
  destruct (autoMatchOne compareHeaders h) as [m|] eqn:Hm.
  - rewrite decide_True by done. cbn. rewrite IH.
    by apply autoMatchOne_Some in Hm as [-> _].
  - rewrite decide_False; [done|]. by intros [? ?].
Qed.

Lemma NoDup_insert_fresh {A} (l : list A) (i : nat) (x : A) :
  NoDup l → x ∉ l → NoDup (<[i := x]> l).
Proof.
  intros Hl Hx. destruct (l !! i) as [y|] eqn:Hi.
  - rewrite insert_take_drop by (by eapply lookup_lt_Some).
    rewrite <- (take_drop_middle l i y) in Hl, Hx by done.
    apply NoDup_app in Hl as (Ht & Hd & Hdr).
    apply NoDup_cons in Hdr as [_ Hdr].
    apply NoDup_app. split; [done|]. split.
    + intros z Hz. rewrite elem_of_cons. intros [->|Hz'].
      * apply Hx. apply elem_of_app. by left.
      * apply (Hd z Hz). by right.
    + apply NoDup_cons. split; [|done].
      intros Hin. apply Hx. apply elem_of_app. right. by right.
  - rewrite list_insert_ge; [done|]. by apply lookup_ge_None.
Qed.

Lemma elem_of_insert_inv {A} (l : list A) (i : nat) (x y : A) :
  y ∈ <[i := x]> l → y = x ∨ y ∈ l.
Proof.
  intros [j Hj]%list_elem_of_lookup.
  destruct (decide (i = j)) as [->|Hne].
  - destruct (decide (j < length l)%nat).
    + rewrite list_lookup_insert_eq in Hj by done. left. congruence.
    + rewrite list_insert_ge in Hj by lia. right. by eapply list_elem_of_lookup_2.
  - rewrite list_lookup_insert_ne in Hj by done.
    right. by eapply list_elem_of_lookup_2.
Qed.

(** What a click on a compare column does to the list of mappings. *)
Lemma handleCompareColumnClick_eq (st : State) (selected column : jsstring) :
  selectedSourceColumn st = Some selected → selected ≠ [] →
  selectedSourceColumn (handleCompareColumnClick st column) = None
  ∧ ((∃ index m, list_find (λ m, sourceColumn m = selected) (mappings st)
                 = Some (index, m)
                 ∧ mappings (handleCompareColumnClick st column)
                   = <[index := {| sourceColumn := selected;
                                   compareColumn := column |}]> (mappings st))
     ∨ (list_find (λ m, sourceColumn m = selected) (mappings st) = None
        ∧ mappings (handleCompareColumnClick st column)
          = mappings st ++ [{| sourceColumn := selected;
                               compareColumn := column |}])).
Proof.
  intros Hsel Hne. unfold handleCompareColumnClick. rewrite Hsel.
  destruct selected as [|c0 selected]; [done|]. cbn [truthy negb].
  destruct (list_find _ (mappings st)) as [[index m]|] eqn:Hfind.
  - split; [done|]. left. by exists index, m.
  - split; [done|]. by right.
Qed.

Lemma canMap_true (st : State) (header : jsstring) :
  canMap st header = true →
  ∃ selected, selectedSourceColumn st = Some selected ∧ selected ≠ []
              ∧ header ∉ compareColumn <$> mappings st.
Proof.
  unfold canMap. intros [Hsel Hmapped]%andb_true_iff.
  destruct (selectedSourceColumn st) as [selected|]; [|done].
  exists selected. split; [done|]. split; [by destruct selected|].
  apply negb_true_iff in Hmapped. intros Hin.
  apply list_elem_of_fmap in Hin as (m & -> & Hm).
  assert (isCompareColumnMapped st (compareColumn m) = true); [|congruence].
  apply existsb_exists. exists m. split; [by apply list_elem_of_In|].
  by apply bool_decide_eq_true.
Qed.

(** The columns of the mappings in a state the mapper can reach. *)
Lemma reachable_invariant (sourceHeaders compareHeaders : list jsstring)
    (st : State) :
  reachable sourceHeaders compareHeaders st →
  Forall (λ m, sourceColumn m ∈ sourceHeaders
               ∧ compareColumn m ∈ compareHeaders) (mappings st)
  ∧ (∀ selected, selectedSourceColumn st = Some selected →
                 selected ∈ sourceHeaders)
  ∧ (NoDup sourceHeaders → NoDup (sourceColumn <$> mappings st))
  ∧ (NoDup (compareColumn <$> autoMappings sourceHeaders compareHeaders) →
     NoDup (compareColumn <$> mappings st)).
Proof.
  unfold reachable. revert st. apply rtc_ind_r; [|intros st st' Hreach Hstep IH].
  - cbn. split; [|split; [done|split; [|done]]].
    + apply Forall_forall. intros m Hm. rewrite autoMappings_eq in Hm.
      apply list_elem_of_omap in Hm as (h & Hh & Hm).
      apply autoMatchOne_Some in Hm as (-> & ? & _). done.
    + intros Hnd. rewrite autoMappings_sources. by apply NoDup_filter.
  - destruct IH as (Hcols & Hsel & Hsrc & Hcmp).
    destruct Hstep as [st header Hin|st header Hin Hcan|st header Hin Hmapped].
    + unfold handleSourceColumnClick.
      destruct (decide _); cbn; (split; [done|split; [|done]]); [done|].
      by intros ? [= <-].
    + apply canMap_true in Hcan as (selected & Hselected & Hne & Hfresh).
      destruct (handleCompareColumnClick_eq st selected header Hselected Hne)
        as [Hnone [(index & m & Hfind & ->)|[Hfind ->]]].
      * apply list_find_Some in Hfind as (Hindex & Hm & _).
        split; [|split; [|split]].
        -- apply Forall_forall. intros m' [->|Hm']%elem_of_insert_inv.
           ++ cbn. split; [by apply Hsel|done].
           ++ by apply (proj1 (Forall_forall _ _) Hcols).
        -- by rewrite Hnone.
        -- intros Hnd. rewrite list_fmap_insert. cbn.
           rewrite list_insert_id; [by apply Hsrc|].
           by rewrite list_lookup_fmap, Hindex, <- Hm.
        -- intros Hnd. rewrite list_fmap_insert. cbn.
           apply NoDup_insert_fresh; [by apply Hcmp|done].
      * apply list_find_None in Hfind.
        split; [|split; [|split]].
        -- apply Forall_app. split; [done|]. apply Forall_singleton.
           cbn. split; [by apply Hsel|done].
        -- by rewrite Hnone.
        -- intros Hnd. rewrite fmap_app. cbn.
           apply NoDup_app. split; [by apply Hsrc|]. split; [|apply NoDup_singleton].
           intros s Hs ->%list_elem_of_singleton.
           apply list_elem_of_fmap in Hs as (m & Heq & Hm).
           by apply (proj1 (Forall_forall _ _) Hfind m Hm).
        -- intros Hnd. rewrite fmap_app. cbn.
           apply NoDup_app. split; [by apply Hcmp|]. split; [|apply NoDup_singleton].
           by intros s Hs ->%list_elem_of_singleton.
    + cbn. split; [|split; [done|split]].
      * apply Forall_forall. intros m [_ Hm]%list_elem_of_filter.
        by apply (proj1 (Forall_forall _ _) Hcols).
      * intros Hnd. eapply sublist_NoDup; [by apply Hsrc|].
        apply fmap_sublist, sublist_filter.
      * intros Hnd. eapply sublist_NoDup; [by apply Hcmp|].
        apply fmap_sublist, sublist_filter.
Qed.

Lemma list_find_insert_first (l : list ColumnMapping) (selected : jsstring)
    (index : nat) (m new : ColumnMapping) :
  list_find (λ m, sourceColumn m = selected) l = Some (index, m) →
  sourceColumn new = selected →
  list_find (λ m, sourceColumn m = selected) (<[index := new]> l)
  = Some (index, new).
Proof.
  intros (Hindex & Hm & Hbefore)%list_find_Some Hnew.
  apply list_find_Some. split; [|split; [done|]].
  - apply list_lookup_insert_eq. by eapply lookup_lt_Some.
  - intros j y Hj Hlt. rewrite list_lookup_insert_ne in Hj by lia.
    by eapply Hbefore.
Qed.

Lemma list_find_insert_other (l : list ColumnMapping) (selected other : jsstring)
    (index : nat) (m new : ColumnMapping) :
  l !! index = Some m → sourceColumn m = selected →
  sourceColumn new = selected → other ≠ selected →
  compareColumn ∘ snd <$> list_find (λ m, sourceColumn m = other) (<[index := new]> l)
  = compareColumn ∘ snd <$> list_find (λ m, sourceColumn m = other) l.
Proof.
  intros Hindex Hm Hnew Hother.
  destruct (list_find (λ m, sourceColumn m = other) l) as [[j y]|] eqn:Hfind.
  - apply list_find_Some in Hfind as (Hj & Hy & Hbefore).
    assert (Hij : index ≠ j) by (intros ->; congruence).
    assert (list_find (λ m, sourceColumn m = other) (<[index := new]> l)
            = Some (j, y)) as ->; [|done].
    apply list_find_Some. split; [by rewrite list_lookup_insert_ne|].
    split; [done|]. intros k z Hk Hlt.
    destruct (decide (index = k)) as [<-|Hne].
    + rewrite list_lookup_insert_eq in Hk by (by eapply lookup_lt_Some).
      congruence.
    + rewrite list_lookup_insert_ne in Hk by done. by eapply Hbefore.
  - assert (list_find (λ m, sourceColumn m = other) (<[index := new]> l)
            = None) as ->; [|done].
    apply list_find_None in Hfind. apply list_find_None.
    apply Forall_forall. intros z [->|Hz]%elem_of_insert_inv; [congruence|].
    by apply (proj1 (Forall_forall _ _) Hfind).
Qed.

Lemma list_find_filter_other (l : list ColumnMapping) (removed other : jsstring) :
  other ≠ removed →
  compareColumn ∘ snd <$> list_find (λ m, sourceColumn m = other)
                            (filter (λ m, sourceColumn m ≠ removed) l)
  = compareColumn ∘ snd <$> list_find (λ m, sourceColumn m = other) l.
Proof.
  intros Hother. induction l as [|m l IH]; [done|].
  rewrite filter_cons. destruct (decide (sourceColumn m ≠ removed)) as [Hm|Hm].
  - cbn [list_find]. destruct (decide (sourceColumn m = other)); [done|].
    destruct (list_find _ (filter _ l)) as [[? ?]|], (list_find _ l) as [[? ?]|];
      cbn in IH |- *; congruence.
  - apply dec_stable in Hm. cbn [list_find].
    rewrite decide_False by congruence. rewrite IH.
    by destruct (list_find _ l) as [[? ?]|].
Qed.

(** X13.  Whatever the user clicks in the column mapper, the mappings
    that the Compare button hands to the comparison are not empty, pair
    a column of the source file with a column of the compare file, and,
    when the headers of the source file are distinct, map no source
    column twice. *)
Theorem mapper_output_well_formed (sourceHeaders compareHeaders : list jsstring)
    (st : State) (columnMappings : list ColumnMapping) :
  reachable sourceHeaders compareHeaders st →
  handleProceed st = Some columnMappings →
  columnMappings ≠ []
  ∧ Forall (λ m, sourceColumn m ∈ sourceHeaders
                 ∧ compareColumn m ∈ compareHeaders) columnMappings
  ∧ (NoDup sourceHeaders → NoDup (sourceColumn <$> columnMappings)).
Proof.
  intros Hreach Hproceed. unfold handleProceed in Hproceed.
  destruct (mappings st) as [|m l] eqn:Hmappings; [done|].
  cbn in Hproceed. injection Hproceed as <-.
  apply reachable_invariant in Hreach as (Hcols & _ & Hsrc & _).
  rewrite Hmappings in Hcols, Hsrc. done.
Qed.

(** X14.  A click never maps a compare column that is mapped already:
    when the automatic mappings use no compare column twice, no state
    of the mapper does.  The automatic mappings themselves can use one
    twice: the source columns id and id2 are both matched with the
    compare column id. *)
Theorem compare_columns_stay_distinct :
  (∀ (sourceHeaders compareHeaders : list jsstring) (st : State),
     reachable sourceHeaders compareHeaders st →
     NoDup (compareColumn <$> autoMappings sourceHeaders compareHeaders) →
     NoDup (compareColumn <$> mappings st))
  ∧ autoMappings [js "id"; js "id2"] [js "id"]
    = [ {| sourceColumn := js "id"; compareColumn := js "id" |};
        {| sourceColumn := js "id2"; compareColumn := js "id" |} ].
Proof.
  split; [|by vm_compute].
  intros sourceHeaders compareHeaders st Hreach.
  by apply reachable_invariant in Hreach as (_ & _ & _ & Hcmp).
Qed.

(** X15.  Mapping and unmapping a source column.  After a click on a
    compare column while a source column is selected, the source column
    is shown as mapped to that compare column, the selection is cleared
    and the other source columns are mapped as before.  After the
    mapping of a source column is removed, the column is unmapped and
    the other source columns are mapped as before. *)
Theorem map_then_unmap :
  (∀ (st : State) (selected column : jsstring),
     selectedSourceColumn st = Some selected → selected ≠ [] →
     getMappedCompareColumn (handleCompareColumnClick st column) selected
     = Some column
     ∧ selectedSourceColumn (handleCompareColumnClick st column) = None
     ∧ (∀ other, other ≠ selected →
          getMappedCompareColumn (handleCompareColumnClick st column) other
          = getMappedCompareColumn st other))
  ∧ (∀ (st : State) (removed : jsstring),
       getMappedCompareColumn (removeMapping st removed) removed = None
       ∧ (∀ other, other ≠ removed →
            getMappedCompareColumn (removeMapping st removed) other
            = getMappedCompareColumn st other)).
Proof.
  split.
  - intros st selected column Hsel Hne.
    destruct (handleCompareColumnClick_eq st selected column Hsel Hne)
      as [Hnone [(index & m & Hfind & Heq)|[Hfind Heq]]].
    + split; [|split; [done|]].
      * unfold getMappedCompareColumn. rewrite Heq.
        by erewrite list_find_insert_first.
      * intros other Hother. unfold getMappedCompareColumn. rewrite Heq.
        apply list_find_Some in Hfind as (Hindex & Hm & _).
        by eapply list_find_insert_other.
    + split; [|split; [done|]].
      * unfold getMappedCompareColumn. rewrite Heq.
        rewrite list_find_app_r by done. by cbn; rewrite decide_True.
      * intros other Hother. unfold getMappedCompareColumn. rewrite Heq.
        destruct (list_find (λ m, sourceColumn m = other) (mappings st))
          as [[j y]|] eqn:Hother_find.
        -- by erewrite list_find_app_l.
        -- rewrite list_find_app_r by done. cbn.
           by rewrite decide_False by congruence.
  - intros st removed. split.
    + unfold getMappedCompareColumn, removeMapping. cbn.
      assert (list_find (λ m, sourceColumn m = removed)
                (filter (λ m, sourceColumn m ≠ removed) (mappings st))
              = None) as ->; [|done].
      apply list_find_None, Forall_forall.
      by intros m' [? _]%list_elem_of_filter.
    + intros other Hother. by apply list_find_filter_other.
Qed.

Lemma find_first_of_NoDup {A B} `{EqDecision B} (f : A → B) (l : list A) (h : A) :
  NoDup (f <$> l) → h ∈ l →
  List.find (λ c, bool_decide (f c = f h)) l = Some h.
Proof.
  induction l as [|c l IH]; [by intros _ ?%elem_of_nil|].
  rewrite fmap_cons, NoDup_cons. intros [Hc Hl] [->|Hh]%elem_of_cons.
  - cbn. by rewrite bool_decide_eq_true_2.
  - cbn. rewrite bool_decide_eq_false_2; [by apply IH|].
    intros Heq. apply Hc. rewrite Heq. by apply list_elem_of_fmap_2.
Qed.





End ColumnMapperFacts.

(** ** The results view *)

Section ComparisonResultsFacts.

Import ComparisonResults.

Lemma ceilDiv_bounds (a b : Z) :
  0 < b → (ceilDiv a b - 1) * b < a ≤ ceilDiv a b * b.
Proof.
  intros Hb. unfold ceilDiv.
  pose proof (Z.div_mod (- a) b ltac:(lia)) as Hdiv.
  pose proof (Z.mod_pos_bound (- a) b Hb) as Hmod. nia.
Qed.

Lemma slice_page {A} (l : list A) (page itemsPerPage : Z) :
  1 ≤ page → 0 < itemsPerPage →
  slice l ((page - 1) * itemsPerPage) ((page - 1) * itemsPerPage + itemsPerPage)
  = take (Z.to_nat itemsPerPage)
      (drop (Z.to_nat (page - 1) * Z.to_nat itemsPerPage) l).
Proof.
  intros Hpage Hitems. unfold slice.
  assert (0 ≤ (page - 1) * itemsPerPage) as Hstart by nia.
  rewrite (proj2 (Z.ltb_ge _ 0)) by lia.
  rewrite (proj2 (Z.ltb_ge _ 0)) by lia.
  set (len := Z.of_nat (length l)).
  destruct (Z.le_gt_cases len ((page - 1) * itemsPerPage)) as [Hout|Hin].
  - rewrite !Z.min_r by lia. rewrite Z.sub_diag. change (Z.to_nat 0) with 0%nat.
    rewrite take_0.
    rewrite (drop_ge l (_ * _)); [by rewrite take_nil|]. unfold len in Hout. nia.
  - rewrite (Z.min_l ((page - 1) * itemsPerPage) len) by lia.
    replace (Z.to_nat ((page - 1) * itemsPerPage))
      with (Z.to_nat (page - 1) * Z.to_nat itemsPerPage)%nat by nia.
    destruct (Z.le_gt_cases ((page - 1) * itemsPerPage + itemsPerPage) len).
    + rewrite (Z.min_l _ len) by lia. f_equal. lia.
    + rewrite (Z.min_r _ len) by lia.
      rewrite !take_ge; [done| |]; rewrite length_drop; unfold len in *; nia.
Qed.

Lemma concat_pages {A} (l : list A) (itemsPerPage pages : nat) :
  mjoin ((λ page, take itemsPerPage (drop (page * itemsPerPage) l))
           <$> seq 0 pages)
  = take (pages * itemsPerPage) l.
Proof.
  induction pages as [|pages IH]; [done|].
  rewrite seq_S, fmap_app, join_app, IH. cbn [fmap list_fmap mjoin list_join].
  rewrite app_nil_r, take_take_drop. f_equal. lia.
Qed.

Lemma length_filter_passes (results : list ComparisonRow) (st : State) :
  length (filteredResults results st)
  = optionCount (stats results) (filter_ st).
Proof.
  unfold filteredResults, stats.
  destruct (filter_ st); cbn [optionCount total matches differences_
                               missingInCompare missingInSource passes].
  - by rewrite filter_all by (by apply Forall_forall).
  - f_equal. apply list_filter_iff. intros r.
    by rewrite bool_decide_spec.
  - f_equal. apply list_filter_iff. intros r.
    by rewrite bool_decide_spec.
  - induction results as [|r results IH]; [done|].
    assert (Hp : Is_true (bool_decide (type r = MissingInCompare)
                          || bool_decide (type r = MissingInSource))
                 ↔ type r = MissingInCompare ∨ type r = MissingInSource)
      by (by rewrite orb_True, !bool_decide_spec).
    rewrite !filter_cons.
    repeat case_decide; cbn [length]; try lia;
      exfalso; destruct (type r); intuition discriminate.
Qed.

Lemma topPageNum_range (totalPages currentPage i : Z) :
  0 ≤ i < Z.min 5 totalPages →
  1 ≤ topPageNum totalPages currentPage i ≤ totalPages.
Proof.
  intros Hi. unfold topPageNum.
  destruct (Z.leb_spec totalPages 5); [lia|].
  destruct (Z.leb_spec currentPage 3); [lia|].
  unfold Z.geb. destruct (Z.compare_spec currentPage (totalPages - 2)); lia.
Qed.

Lemma bottomPageNum_range (totalPages currentPage i : Z) :
  0 ≤ i < Z.min 7 totalPages →
  1 ≤ bottomPageNum totalPages currentPage i ≤ totalPages.
Proof.
  intros Hi. unfold bottomPageNum.
  destruct (Z.leb_spec totalPages 7); [lia|].
  destruct (Z.leb_spec currentPage 4); [lia|].
  unfold Z.geb. destruct (Z.compare_spec currentPage (totalPages - 3)); lia.
Qed.

Lemma topPageButtons_seqZ (totalPages currentPage : Z) :
  topPageButtons totalPages currentPage
  = seqZ (topPageNum totalPages currentPage 0) (Z.min 5 totalPages).
Proof.
  unfold topPageButtons, seqZ. apply list_fmap_ext. intros _ i _.
  unfold topPageNum.
  destruct (totalPages <=? 5); [lia|].
  destruct (currentPage <=? 3); [lia|].
  destruct (currentPage >=? totalPages - 2); lia.
Qed.

Lemma bottomPageButtons_seqZ (totalPages currentPage : Z) :
  bottomPageButtons totalPages currentPage
  = seqZ (bottomPageNum totalPages currentPage 0) (Z.min 7 totalPages).
Proof.
  unfold bottomPageButtons, seqZ. apply list_fmap_ext. intros _ i _.
  unfold bottomPageNum.
  destruct (totalPages <=? 7); [lia|].
  destruct (currentPage <=? 4); [lia|].
  destruct (currentPage >=? totalPages - 3); lia.
Qed.

Lemma elem_of_topPageButtons (totalPages currentPage page : Z) :
  page ∈ topPageButtons totalPages currentPage → 1 ≤ page ≤ totalPages.
Proof.
  unfold topPageButtons. intros (i & -> & Hi)%list_elem_of_fmap.
  apply elem_of_seq in Hi. apply topPageNum_range. lia.
Qed.

Lemma elem_of_bottomPageButtons (totalPages currentPage page : Z) :
  page ∈ bottomPageButtons totalPages currentPage → 1 ≤ page ≤ totalPages.
Proof.
  unfold bottomPageButtons. intros (i & -> & Hi)%list_elem_of_fmap.
  apply elem_of_seq in Hi. apply bottomPageNum_range. lia.
Qed.

Lemma totalPages_positive (results : list ComparisonRow) (st : State) :
  0 < itemsPerPage st →
  (0 < totalPages results st ↔ filteredResults results st ≠ [])
  ∧ 0 ≤ totalPages results st.
Proof.
  intros Hitems. unfold totalPages.
  pose proof (ceilDiv_bounds (Z.of_nat (length (filteredResults results st)))
                (itemsPerPage st) Hitems) as Hceil.
  destruct (filteredResults results st) as [|r l]; cbn [length] in *.
  - split; [|nia]. split; [nia|done].
  - split; [|nia]. split; [done|nia].
Qed.

(** The page and the page size in a state the view can reach. *)
Lemma reachable_page (results : list ComparisonRow) (st : State) :
  reachable results st →
  itemsPerPage st ∈ [10; 25; 50; 100]
  ∧ (currentPage st = 1 ∨ 1 ≤ currentPage st ≤ totalPages results st).
Proof.
  unfold reachable. revert st.
  apply rtc_ind_r; [|intros st st' Hreach Hstep [Hitems Hpage]].
  - split; [|by left]. cbn. rewrite !elem_of_cons. tauto.
  - assert (0 < itemsPerPage st) as Hpos.
    { rewrite !elem_of_cons in Hitems.
      destruct Hitems as [->|[->|[->|[->|[]%elem_of_nil]]]]; lia. }
    destruct Hstep as [st filter Hfilter|st n Hn|st|st page Hoffered].
    + split; [done|by left].
    + split; [done|by left].
    + split; [done|]. done.
    + split; [done|]. right.
      change (currentPage (handlePageChange st page)) with page.
      change (totalPages results (handlePageChange st page))
        with (totalPages results st).
      destruct (totalPages_positive results st Hpos) as [Hsome Hnonneg].
      assert (topBar results st || bottomBar results st = true →
              1 ≤ currentPage st ≤ totalPages results st) as Hbar.
      { intros Hbar. destruct Hpage as [->|?]; [|done].
        apply orb_true_iff in Hbar as [Htop|Hbottom].
        - unfold topBar in Htop. apply Nat.ltb_lt in Htop.
          assert (filteredResults results st ≠ []) as Hne
            by (destruct (filteredResults results st); [cbn in Htop; lia|done]).
          apply Hsome in Hne. lia.
        - unfold bottomBar in Hbottom. apply Z.ltb_lt in Hbottom. lia. }
      unfold offeredPages in Hoffered.
      apply elem_of_app in Hoffered as [Htop|Hbottom].
      * destruct (topBar results st) eqn:Hshown; [|by apply elem_of_nil in Htop].
        specialize (Hbar eq_refl).
        rewrite !elem_of_app in Htop.
        destruct Htop as [Hprev|[Hnum|[Hlast|Hnext]]].
        -- destruct (Z.eqb_spec (currentPage st) 1);
             [by apply elem_of_nil in Hprev|].
           apply list_elem_of_singleton in Hprev. lia.
        -- by eapply elem_of_topPageButtons.
        -- destruct (topLastPageButton _ _) eqn:Hl;
             [|by apply elem_of_nil in Hlast].
           apply list_elem_of_singleton in Hlast. lia.
        -- destruct (Z.eqb_spec (currentPage st) (totalPages results st));
             [by apply elem_of_nil in Hnext|].
           apply list_elem_of_singleton in Hnext. lia.
      * destruct (bottomBar results st) eqn:Hshown;
          [|by apply elem_of_nil in Hbottom].
        rewrite orb_true_r in Hbar. specialize (Hbar eq_refl).
        rewrite !elem_of_app in Hbottom.
        destruct Hbottom as [Hprev|[Hnum|[Hlast|Hnext]]].
        -- destruct (Z.eqb_spec (currentPage st) 1);
             [by apply elem_of_nil in Hprev|].
           apply list_elem_of_singleton in Hprev. lia.
        -- by eapply elem_of_bottomPageButtons.
        -- destruct (bottomLastPageButton _ _) eqn:Hl;
             [|by apply elem_of_nil in Hlast].
           apply list_elem_of_singleton in Hlast. lia.
        -- destruct (Z.eqb_spec (currentPage st) (totalPages results st));
             [by apply elem_of_nil in Hnext|].
           apply list_elem_of_singleton in Hnext. lia.
Qed.

(** ** The numbers beside the filter *)

(** X19.  The five counts above the table add up: the total is the sum
    of the matches, the differences and the two kinds of missing rows.
    The number an option of the filter shows beside its name is the
    number of rows listed once that option is selected. *)
Theorem stats_add_up (results : list ComparisonRow) :
  total (stats results)
  = (matches (stats results) + differences_ (stats results)
     + missingInCompare (stats results) + missingInSource (stats results))%nat
  ∧ ∀ st : State,
      length (filteredResults results st)
      = optionCount (stats results) (filter_ st).
Proof.
  split; [|apply length_filter_passes].
  unfold stats. cbn [total matches differences_ missingInCompare missingInSource].
  induction results as [|r results IH]; [done|].
  rewrite !filter_cons. cbn [length].
  repeat case_decide; cbn [length]; try lia;
    exfalso; destruct (type r); intuition discriminate.
Qed.

(** ** Pages *)

(** X20.  The pages split the filtered rows: whatever the page size the
    user has chosen among those offered, the pages 1 to [totalPages],
    one after the other, are the filtered rows, none left out or
    repeated, and no page is longer than the page size. *)
Theorem pages_split_the_rows (results : list ComparisonRow) (st : State) :
  itemsPerPage st ∈ [10; 25; 50; 100] →
  mjoin ((λ page, paginatedResults results (handlePageChange st page))
           <$> seqZ 1 (totalPages results st))
  = filteredResults results st
  ∧ ∀ page, Z.of_nat (length (paginatedResults results (handlePageChange st page)))
            ≤ itemsPerPage st.
Proof.
  intros Hitems.
  assert (0 < itemsPerPage st) as Hpos.
  { rewrite !elem_of_cons in Hitems.
    destruct Hitems as [->|[->|[->|[->|[]%elem_of_nil]]]]; lia. }
  split.
  - unfold seqZ. rewrite <- list_fmap_compose.
    rewrite (list_fmap_ext _
               (λ page, take (Z.to_nat (itemsPerPage st))
                          (drop (page * Z.to_nat (itemsPerPage st))
                             (filteredResults results st)))).
    + rewrite concat_pages. apply take_ge.
      pose proof (ceilDiv_bounds
                    (Z.of_nat (length (filteredResults results st)))
                    (itemsPerPage st) Hpos) as Hceil.
      unfold totalPages.
      change (filteredResults results (handlePageChange st 1))
        with (filteredResults results st) in *.
      nia.
    + intros _ i _. cbn [compose]. unfold paginatedResults, startIndex, endIndex.
      change (filteredResults results (handlePageChange st _))
        with (filteredResults results st).
      cbn [handlePageChange currentPage itemsPerPage].
      rewrite slice_page by lia. do 2 f_equal. lia.
  - intros page. unfold paginatedResults, slice.
    rewrite length_take. unfold endIndex, startIndex.
    cbn [handlePageChange currentPage itemsPerPage].
    destruct (Z.ltb_spec ((page - 1) * itemsPerPage st) 0),
      (Z.ltb_spec ((page - 1) * itemsPerPage st + itemsPerPage st) 0); lia.
Qed.

(** X21.  However the user filters, pages and resizes, the view never
    shows an empty page of a non-empty list: when some row passes the
    filter, the current page is one of the pages 1 to [totalPages] and
    shows at least one row. *)
Theorem shown_page_is_never_empty (results : list ComparisonRow) (st : State) :
  reachable results st →
  filteredResults results st ≠ [] →
  1 ≤ currentPage st ≤ totalPages results st
  ∧ paginatedResults results st ≠ [].
Proof.
  intros [Hitems Hpage]%reachable_page Hne.
  assert (0 < itemsPerPage st) as Hpos.
  { rewrite !elem_of_cons in Hitems.
    destruct Hitems as [->|[->|[->|[->|[]%elem_of_nil]]]]; lia. }
  destruct (totalPages_positive results st Hpos) as [Hsome _].
  apply Hsome in Hne.
  assert (1 ≤ currentPage st ≤ totalPages results st) as Hrange by lia.
  split; [done|].
  unfold paginatedResults, startIndex, endIndex.
  rewrite slice_page by lia.
  pose proof (ceilDiv_bounds (Z.of_nat (length (filteredResults results st)))
                (itemsPerPage st) Hpos) as Hceil.
  fold (totalPages results st) in Hceil.
  intros Hnil. apply (f_equal length) in Hnil.
  rewrite length_take, length_drop in Hnil. cbn [length] in Hnil. nia.
Qed.

(** X22.  The numbered page buttons of both pagination bars are
    consecutive pages among 1 to [totalPages] with the current page
    among them, and the extra button of the last page is shown exactly
    when the last page is not one of them.  No such button exists for
    the first page: with ten pages and page 6 shown, the bar above the
    table offers the pages 4 to 8 and the page 10. *)
Theorem page_buttons :
  (∀ totalPages currentPage : Z,
     1 ≤ currentPage ≤ totalPages →
     (∃ first count,
        topPageButtons totalPages currentPage = seqZ first count
        ∧ 1 ≤ first ≤ currentPage
        ∧ currentPage < first + count ≤ totalPages + 1
        ∧ (topLastPageButton totalPages currentPage = true
           ↔ first + count ≤ totalPages))
     ∧ (∃ first count,
          bottomPageButtons totalPages currentPage = seqZ first count
          ∧ 1 ≤ first ≤ currentPage
          ∧ currentPage < first + count ≤ totalPages + 1
          ∧ (bottomLastPageButton totalPages currentPage = true
             ↔ first + count ≤ totalPages)))
  ∧ topPageButtons 10 6 = [4; 5; 6; 7; 8]
  ∧ topLastPageButton 10 6 = true.
Proof.
  split; [|by vm_compute].
  intros totalPages currentPage Hpage. split.
  - exists (topPageNum totalPages currentPage 0), (Z.min 5 totalPages).
    split; [apply topPageButtons_seqZ|].
    unfold topPageNum, topLastPageButton.
    rewrite andb_true_iff, !Z.ltb_lt.
    destruct (Z.leb_spec totalPages 5); [lia|].
    destruct (Z.leb_spec currentPage 3); [lia|].
    unfold Z.geb. destruct (Z.compare_spec currentPage (totalPages - 2)); lia.
  - exists (bottomPageNum totalPages currentPage 0), (Z.min 7 totalPages).
    split; [apply bottomPageButtons_seqZ|].
    unfold bottomPageNum, bottomLastPageButton.
    rewrite andb_true_iff, !Z.ltb_lt.
    destruct (Z.leb_spec totalPages 7); [lia|].
    destruct (Z.leb_spec currentPage 4); [lia|].
    unfold Z.geb. destruct (Z.compare_spec currentPage (totalPages - 3)); lia.
Qed.

(** ** Cells *)

(** An output row is a matched row, or one of the two missing rows. *)
Lemma results_cases (comparisonSettings : ComparisonSettings)
    (sourceFile compareFile : CSVData) (mappings : list ColumnMapping)
    (r : ComparisonRow) :
  r ∈ results comparisonSettings sourceFile compareFile mappings →
  (∃ sourceRow compareRow,
     r = matchedRow comparisonSettings mappings sourceRow compareRow)
  ∨ (∃ sourceRow, r = missingInCompareRow sourceRow)
  ∨ (∃ compareRow, r = missingInSourceRow compareRow).
Proof.
  rewrite results_eq, elem_of_app, !list_elem_of_fmap.
  intros [([k d] & -> & _)|(e & -> & _)].
  - unfold sourceRowResult. cbn [fst snd].
    destruct (JSMap.get _ k) as [c|]; [left|right; left]; eauto.
  - right. right. eauto.
Qed.

(** X23.  With the differences shown, the rows whose status is
    Different are exactly the rows with a cell that shows the source
    and the compare value side by side, provided no source column is
    mapped twice: a row shown as a match has no such cell, and neither
    has a missing row. *)
Theorem different_rows_show_a_difference
    (comparisonSettings : ComparisonSettings)
    (sourceFile compareFile : CSVData) (mappings : list ColumnMapping)
    (st : State) (r : ComparisonRow) :
  NoDup (sourceColumn <$> mappings) →
  r ∈ results comparisonSettings sourceFile compareFile mappings →
  showDifferences st = true →
  (type r = Different
   ↔ ∃ column source_ compare_,
       column ∈ allColumns mappings
       ∧ cell mappings st r column = Both source_ compare_).
Proof.
  intros Hnd Hr Hshow.
  apply results_cases in Hr as [(sourceRow & compareRow & ->)|[[d ->]|[d ->]]].
  - split.
    + rewrite matchedRow_eq. cbn zeta. cbn [type].
      destruct (filter _ mappings) as [|m l] eqn:Hfilter; [done|]. intros _.
      assert (m ∈ filter (λ m, areDifferent comparisonSettings sourceRow
                                  compareRow m) mappings) as Hm
        by (rewrite Hfilter; by left).
      apply list_elem_of_filter in Hm as [Hdiff Hm].
      exists (sourceColumn m). eexists _, _. split.
      * apply elem_of_firstOccurrences. by apply list_elem_of_fmap_2.
      * unfold cell. cbn [unifiedData mbind option_bind].
        rewrite writeEntry_lookup_NoDup by done.
        cbn [unifiedEntry isDifferent]. rewrite Hshow.
        apply Is_true_true in Hdiff. rewrite Hdiff. done.
    + intros (column & s & c & _ & Hcell).
      unfold cell in Hcell.
      destruct (unifiedData _ ≫= _) as [unified|] eqn:Hunified; [|done].
      destruct (isDifferent unified) eqn:Hdifferent; [|done].
      destruct (unifiedData (matchedRow comparisonSettings mappings sourceRow
                               compareRow)) as [ud|] eqn:Hud; [|done].
      cbn in Hunified.
      apply (flagged_is_different _ _ _ _ ud column); [done|].
      unfold isFlagged. by rewrite Hunified, Hdifferent.
  - split; [done|]. by intros (column & s & c & _ & Hcell).
  - split; [done|]. by intros (column & s & c & _ & Hcell).
Qed.

(** X28.  What a cell shows, in terms of the two files.  Under the
    column of a mapping, a missing row shows the value of its own
    record, in the source column or in the mapped compare column.  A
    matched row shows the source and the compare value side by side
    when they compare as different and differences are shown, and
    otherwise the source value, or the compare value when the source
    value is empty, or the text (empty).  This holds when no source
    column is mapped twice. *)
Theorem cells_show_the_files (comparisonSettings : ComparisonSettings)
    (sourceFile compareFile : CSVData) (mappings : list ColumnMapping)
    (st : State) (r : ComparisonRow) (m : ColumnMapping) :
  NoDup (sourceColumn <$> mappings) →
  r ∈ results comparisonSettings sourceFile compareFile mappings →
  m ∈ mappings →
  let sourceValue :=
    orEmpty (sourceData r ≫= (λ d : record, d !! sourceColumn m)) in
  let compareValue :=
    orEmpty (compareData r ≫= (λ d : record, d !! compareColumn m)) in
  cell mappings st r (sourceColumn m)
  = match type r with
    | MissingInCompare => Single sourceValue
    | MissingInSource => Single compareValue
    | _ =>
        if negb (valuesAreEqual comparisonSettings sourceValue compareValue)
           && showDifferences st
        then Both (orText sourceValue (js "(empty)"))
                  (orText compareValue (js "(empty)"))
        else Single (orText sourceValue (orText compareValue (js "(empty)")))
    end.
Proof.
  intros Hnd Hr Hm. cbn zeta.
  assert (Hfind : List.find (λ m', JSString.eqb (sourceColumn m') (sourceColumn m))
                    mappings = Some m)
    by (by apply (find_first_of_NoDup sourceColumn)).
  apply results_cases in Hr as [(sourceRow & compareRow & ->)|[[d ->]|[d ->]]].
  - unfold cell. rewrite matchedRow_eq. cbn zeta.
    cbn [unifiedData sourceData compareData type mbind option_bind].
    rewrite writeEntry_lookup_NoDup by done.
    cbn [unifiedEntry isDifferent source compare]. unfold areDifferent.
    by destruct (0 <? length _)%nat.
  - unfold cell. by cbn.
  - unfold cell. rewrite Hfind. by cbn.
Qed.

End ComparisonResultsFacts.

(** ** The upload *)

Section FileUploadFacts.

Import FileUpload.

Lemma split_cons (sep c : N) (s : jsstring) :
  split sep (c :: s)
  = if (c =? sep)%N then [] :: split sep s
    else (c :: default [] (head (split sep s))) :: drop 1 (split sep s).
Proof. cbn [split]. destruct (c =? sep)%N; [done|]. by destruct (split sep s). Qed.

Lemma split_nonempty (sep : N) (s : jsstring) : split sep s ≠ [].
Proof.
  destruct s as [|c s]; [done|]. rewrite split_cons. by destruct (c =? sep)%N.
Qed.

Lemma split_app (sep : N) (p s : jsstring) :
  sep ∉ p → split sep (p ++ sep :: s) = p :: split sep s.
Proof.
  induction p as [|c p IH]; intros Hp.
  - cbn [app split]. by rewrite N.eqb_refl.
  - apply not_elem_of_cons in Hp as [Hc Hp]. cbn [app]. rewrite split_cons.
    rewrite (proj2 (N.eqb_neq c sep)) by done. by rewrite IH.
Qed.

Lemma split_plain (sep : N) (p : jsstring) : sep ∉ p → split sep p = [p].
Proof.
  induction p as [|c p IH]; intros Hp; [done|].
  apply not_elem_of_cons in Hp as [Hc Hp]. rewrite split_cons.
  rewrite (proj2 (N.eqb_neq c sep)) by done. by rewrite IH.
Qed.

(** Splitting what has been joined. *)
Lemma split_join (sep : N) (pieces : list jsstring) :
  pieces ≠ [] → Forall (λ p, sep ∉ p) pieces →
  split sep (join [sep] pieces) = pieces.
Proof.
  induction pieces as [|p [|q pieces] IH]; intros Hne Hall; [done| |].
  - apply Forall_cons in Hall as [Hp _]. by apply split_plain.
  - apply Forall_cons in Hall as [Hp Hall].
    change (join [sep] (p :: q :: pieces))
      with (p ++ sep :: join [sep] (q :: pieces)).
    rewrite split_app by done. by rewrite IH.
Qed.

(** Joining what has been split. *)
Lemma join_split (sep : N) (s : jsstring) :
  join [sep] (split sep s) = s ∧ Forall (λ p, sep ∉ p) (split sep s).
Proof.
  induction s as [|c s [IHjoin IHall]].
  - split; [done|]. apply Forall_singleton. apply not_elem_of_nil.
  - rewrite split_cons. destruct (N.eqb_spec c sep) as [->|Hc].
    + split.
      * pose proof (split_nonempty sep s).
        destruct (split sep s) as [|q l] eqn:Hsplit; [done|].
        change (join [sep] ([] :: q :: l)) with (sep :: join [sep] (q :: l)).
        by rewrite IHjoin.
      * apply Forall_cons. split; [apply not_elem_of_nil|done].
    + pose proof (split_nonempty sep s).
      destruct (split sep s) as [|q l] eqn:Hsplit; [done|].
      cbn [head default drop]. apply Forall_cons in IHall as [Hq Hl]. split.
      * rewrite <- IHjoin. by destruct l.
      * apply Forall_cons. split; [|done].
        apply not_elem_of_cons. by split.
Qed.

Lemma length_split_count (sep : N) (s : jsstring) :
  length (split sep s) = S (length (filter (λ c, c = sep) s)).
Proof.
  induction s as [|c s IH]; [done|].
  rewrite split_cons, filter_cons. destruct (N.eqb_spec c sep) as [->|Hc].
  - rewrite decide_True by done. cbn [length]. by rewrite IH.
  - rewrite decide_False by done. cbn [length]. rewrite length_drop, IH. lia.
Qed.

Lemma elem_of_join (c : N) (sep : jsstring) (parts : list jsstring) :
  c ∈ join sep parts → c ∈ sep ∨ ∃ p, p ∈ parts ∧ c ∈ p.
Proof.
  induction parts as [|p [|q parts] IH].
  - by intros ?%elem_of_nil.
  - intros Hc. right. exists p. split; [by left|done].
  - change (join sep (p :: q :: parts))
      with (p ++ sep ++ join sep (q :: parts)).
    rewrite !elem_of_app. intros [Hc|[Hc|Hc]].
    + right. exists p. split; [by left|done].
    + by left.
    + apply IH in Hc as [Hc|(p' & Hp' & Hc)]; [by left|].
      right. exists p'. split; [by right|done].
Qed.

Lemma trimStart_suffix (s : jsstring) : ∃ ws, s = ws ++ trimStart s.
Proof.
  induction s as [|c s [ws IH]]; [by exists []|]. cbn [trimStart].
  destruct (isWhiteSpace c); [|by exists []].
  exists (c :: ws). cbn [app]. by rewrite <- IH.
Qed.

Lemma elem_of_rev {A} (x : A) (l : list A) : x ∈ rev l ↔ x ∈ l.
Proof. rewrite !list_elem_of_In. symmetry. apply in_rev. Qed.

Lemma elem_of_trim (c : N) (s : jsstring) : c ∈ trim s → c ∈ s.
Proof.
  unfold trim, trimEnd. intros Hc. rewrite elem_of_rev in Hc.
  destruct (trimStart_suffix (rev (trimStart s))) as [ws Hws].
  assert (c ∈ rev (trimStart s)) as Hc'
    by (rewrite Hws; apply elem_of_app; by right).
  rewrite elem_of_rev in Hc'.
  destruct (trimStart_suffix s) as [ws' Hws'].
  rewrite Hws'. apply elem_of_app. by right.
Qed.

Lemma elem_of_stripQuotes (c : N) (s : jsstring) : c ∈ stripQuotes s → c ∈ s.
Proof.
  unfold stripQuotes.
  assert (∀ t : jsstring,
            c ∈ (if endsWith t [34%N] then sliceEnd t 1 else t) → c ∈ t) as Hend.
  { intros t. destruct (endsWith t [34%N]); [|done].
    unfold sliceEnd. intros Hc. apply elem_of_take in Hc as (i & Hi & _).
    by eapply list_elem_of_lookup_2. }
  destruct s as [|d s]; [by intros ?%Hend|].
  destruct (d =? 34)%N; intros ?%Hend; [by right|done].
Qed.

Lemma trim_tight (s : jsstring) :
  (∀ c, head s = Some c → isWhiteSpace c = false) →
  (∀ c, head (rev s) = Some c → isWhiteSpace c = false) →
  trim s = s.
Proof.
  intros Hhead Hlast. unfold trim, trimEnd.
  assert (∀ t : jsstring,
            (∀ c, head t = Some c → isWhiteSpace c = false) →
            trimStart t = t) as Htight.
  { intros [|c t] Ht; [done|]. cbn [trimStart]. by rewrite (Ht c). }
  rewrite (Htight s) by done. rewrite (Htight (rev s)) by done.
  apply rev_involutive.
Qed.

Lemma bare_not_white (c : N) : bare c = true → isWhiteSpace c = false ∧ c ≠ 34%N.
Proof.
  unfold bare. intros [? ?%N.eqb_neq]%negb_true_iff%orb_false_iff. done.
Qed.

(** A plain cell is parsed as it is. *)
Lemma plain_cell (cell : jsstring) :
  plain cell = true →
  stripQuotes (trim cell) = cell ∧ (44%N ∉ cell) ∧ (10%N ∉ cell)
  ∧ (∀ c, head cell = Some c → isWhiteSpace c = false)
  ∧ (∀ c, head (rev cell) = Some c → isWhiteSpace c = false).
Proof.
  unfold plain. intros [[Hall Hfirst]%andb_true_iff Hlast]%andb_true_iff.
  assert (Hheads : (∀ c, head cell = Some c → bare c = true)
                   ∧ (∀ c, head (rev cell) = Some c → bare c = true)).
  { split; intros c Hc.
    - destruct cell; [done|]. by injection Hc as <-.
    - destruct (rev cell); [done|]. by injection Hc as <-. }
  destruct Hheads as [Hh Hl].
  assert (∀ c, c ∈ cell → c ≠ 44%N ∧ c ≠ 10%N) as Hnone.
  { intros c Hc. rewrite forallb_forall in Hall.
    specialize (Hall c (proj1 (list_elem_of_In _ _) Hc)).
    apply negb_true_iff, orb_false_iff in Hall as [?%N.eqb_neq ?%N.eqb_neq].
    done. }
  split; [|split; [|split; [|split]]].
  - rewrite trim_tight.
    + unfold stripQuotes. destruct cell as [|c cell]; [done|].
      destruct (bare_not_white c (Hh c eq_refl)) as [_ Hc].
      rewrite (proj2 (N.eqb_neq c 34)) by done.
      unfold endsWith. destruct (rev (c :: cell)) as [|d r] eqn:Hrev; [done|].
      destruct (bare_not_white d (Hl d eq_refl)) as [_ Hd].
      cbn [rev app startsWith].
      by rewrite (proj2 (N.eqb_neq 34 d)) by done.
    + intros c Hc. by apply bare_not_white, Hh.
    + intros c Hc. by apply bare_not_white, Hl.
  - intros Hc. by apply Hnone in Hc as [? _].
  - intros Hc. by apply Hnone in Hc as [_ ?].
  - intros c Hc. by apply bare_not_white, Hh.
  - intros c Hc. by apply bare_not_white, Hl.
Qed.

Lemma join_snoc (sep : jsstring) (parts : list jsstring) (p : jsstring) :
  parts ≠ [] → join sep (parts ++ [p]) = join sep parts ++ sep ++ p.
Proof.
  induction parts as [|q [|q' parts] IH]; intros Hne; [done|done|].
  change ((q :: q' :: parts) ++ [p]) with (q :: (q' :: parts) ++ [p]).
  change (join sep (q :: (q' :: parts) ++ [p]))
    with (q ++ sep ++ join sep ((q' :: parts) ++ [p])).
  rewrite IH by done.
  change (join sep (q :: q' :: parts)) with (q ++ sep ++ join sep (q' :: parts)).
  by rewrite <- !app_assoc.
Qed.

Lemma join_head (sep : jsstring) (p : jsstring) (parts : list jsstring) :
  join sep (p :: parts)
  = p ++ (if parts is [] then [] else sep ++ join sep parts).
Proof. destruct parts as [|q parts]; [by rewrite app_nil_r|done]. Qed.

(** A line of plain cells starts and ends with no white space, and has
    no line feed. *)
Lemma plain_line (row : list jsstring) :
  Forall (λ cell, plain cell = true) row →
  (∀ c, head (join [44%N] row) = Some c → isWhiteSpace c = false)
  ∧ (∀ c, head (rev (join [44%N] row)) = Some c → isWhiteSpace c = false)
  ∧ (10%N ∉ join [44%N] row)
  ∧ parseCells (join [44%N] row) = (if row is [] then [[]] else row).
Proof.
  intros Hplain. split; [|split; [|split]].
  - destruct row as [|p row]; [done|].
    apply Forall_cons in Hplain as [Hp _].
    rewrite join_head.
    destruct p as [|c0 p].
    + destruct row as [|q row]; [done|]. by intros c [= <-].
    + intros c [= <-].
      destruct (plain_cell _ Hp) as (_ & _ & _ & Hhead & _). by apply Hhead.
  - destruct row as [|p row _] using rev_ind; [done|].
    apply Forall_app in Hplain as [_ [Hp _]%Forall_cons].
    destruct row as [|q row].
    + cbn [app join]. by destruct (plain_cell _ Hp) as (_ & _ & _ & _ & Hend).
    + rewrite join_snoc by done. rewrite !rev_app_distr.
      destruct (rev p) as [|c0 r] eqn:Hrev.
      * cbn. by intros c [= <-].
      * cbn [app head]. intros c [= <-].
        destruct (plain_cell _ Hp) as (_ & _ & _ & _ & Hend).
        apply Hend. by rewrite Hrev.
  - intros [Hc|(p & Hp & Hc)]%elem_of_join.
    + by apply list_elem_of_singleton in Hc.
    + apply (proj1 (Forall_forall _ _) Hplain) in Hp.
      by apply plain_cell in Hp as (_ & _ & ? & _).
  - unfold parseCells. destruct row as [|p row]; [done|].
    rewrite split_join; [|done|].
    + apply list_eq_Forall2, Forall2_fmap_l, Forall_Forall2_diag.
      eapply Forall_impl; [done|]. intros cell Hcell.
      by apply plain_cell in Hcell as [? _].
    + eapply Forall_impl; [done|]. intros cell Hcell.
      by apply plain_cell in Hcell as (_ & ? & _).
Qed.

Lemma join_nil (c : N) (parts : list jsstring) :
  join [c] parts = [] → parts = [] ∨ parts = [[]].
Proof.
  destruct parts as [|p [|q parts]]; [by left| |].
  - cbn [join]. intros ->. by right.
  - change (join [c] (p :: q :: parts)) with (p ++ c :: join [c] (q :: parts)).
    by destruct p.
Qed.

(** The cells of a line. *)
Lemma parseCells_shape (line : jsstring) :
  parseCells line ≠ []
  ∧ (10%N ∉ line →
     Forall (λ cell, (44%N ∉ cell) ∧ (10%N ∉ cell)) (parseCells line)).
Proof.
  unfold parseCells. split.
  - pose proof (split_nonempty 44 line). by destruct (split 44 line).
  - intros Hline. apply Forall_fmap, Forall_forall. intros cell Hcell. cbn.
    pose proof (join_split 44 line) as [Hjoin Hall].
    split.
    + intros ?%elem_of_stripQuotes%elem_of_trim.
      by apply (proj1 (Forall_forall _ _) Hall cell).
    + intros ?%elem_of_stripQuotes%elem_of_trim. apply Hline.
      rewrite <- Hjoin. clear Hjoin Hall.
      induction (split 44 line) as [|p [|q l] IH].
      * by apply elem_of_nil in Hcell.
      * by apply list_elem_of_singleton in Hcell as ->.
      * change (join [44%N] (p :: q :: l))
          with (p ++ [44%N] ++ join [44%N] (q :: l)).
        rewrite !elem_of_app.
        apply elem_of_cons in Hcell as [->|Hcell]; [by left|].
        right. right. by apply IH.
Qed.

(** The table of a file that is accepted. *)
Lemma parseCSV_inr (content : jsstring) (data : CSVData) :
  parseCSV content = inr data →
  ∃ line lines,
    split 10 (trim content) = line :: lines ∧ lines ≠ []
    ∧ data = {| headers := parseCells line; rows := parseCells <$> lines |}.
Proof.
  unfold parseCSV.
  destruct (split 10 (trim content)) as [|line [|line' lines]]; [done|done|].
  cbn. intros [= <-]. by exists line, (line' :: lines).
Qed.

(** X24.  A file is accepted exactly when, white space at its start and
    end aside, it has a line feed.  The table then has a row for every
    line after the first, as many as there are line feeds; the header
    and every row have a cell at least, and no cell has a comma or a
    line feed. *)
Theorem parseCSV_outcome (content : jsstring) :
  (10%N ∉ trim content →
   parseCSV content
   = inl "CSV must have at least a header row and one data row"%string)
  ∧ (10%N ∈ trim content →
     ∃ data, parseCSV content = inr data
       ∧ length (rows data) = length (filter (λ c, c = 10%N) (trim content))
       ∧ Forall (λ row, row ≠ []
                        ∧ Forall (λ cell, (44%N ∉ cell) ∧ (10%N ∉ cell)) row)
           (headers data :: rows data)).
Proof.
  pose proof (length_split_count 10 (trim content)) as Hlen.
  pose proof (join_split 10 (trim content)) as [_ Hlines].
  split.
  - intros Hnone. unfold parseCSV. rewrite filter_none in Hlen
      by (apply Forall_forall; by intros c Hc ->).
    by rewrite Hlen.
  - intros Hsome.
    destruct (filter (λ c, c = 10%N) (trim content)) as [|c0 l0] eqn:Hfilter.
    { exfalso. assert (10%N ∈ filter (λ c, c = 10%N) (trim content)) as Hin
        by (by apply list_elem_of_filter).
      rewrite Hfilter in Hin. by apply elem_of_nil in Hin. }
    destruct (parseCSV content) as [message|data] eqn:Hparse.
    { unfold parseCSV in Hparse. rewrite Hlen in Hparse. done. }
    exists data. split; [done|].
    apply parseCSV_inr in Hparse as (line & lines & Hsplit & _ & ->).
    rewrite Hsplit in Hlen, Hlines. cbn [length] in Hlen.
    apply Forall_cons in Hlines as [Hline Hlines]. cbn [headers rows].
    split; [rewrite length_fmap; cbn [length]; lia|].
    apply Forall_cons. split; [split; by apply parseCells_shape|].
    apply Forall_fmap. eapply Forall_impl; [done|].
    intros l Hl. split; by apply parseCells_shape.
Qed.

(** X25.  Reading back a table written in the plainest way.  When the
    cells are plain (no comma, no line feed, neither white space nor a
    quotation mark at either end), every row has a cell and neither the
    header nor the last row is a single empty cell, the lines of cells
    joined by commas parse to the table they were written from.  A
    comma inside quotation marks is not protected: the line ["x,y",z]
    is read as the three cells x, y and z, under a header of two. *)
Theorem parseCSV_round_trip :
  (∀ (headers_ : list jsstring) (rows_ : list (list jsstring)),
     headers_ ≠ [[]] → rows_ ≠ [] → last rows_ ≠ Some [[]] →
     Forall (λ row, row ≠ [] ∧ Forall (λ cell, plain cell = true) row)
       (headers_ :: rows_) →
     parseCSV (join [10%N] (join [44%N] <$> headers_ :: rows_))
     = inr {| headers := headers_; rows := rows_ |})
  ∧ parseCSV (js "a,b" ++ [10%N] ++ [34%N] ++ js "x,y" ++ [34%N] ++ js ",z")
    = inr {| headers := [js "a"; js "b"];
             rows := [[js "x"; js "y"; js "z"]] |}.
Proof.
  split; [|by vm_compute].
  intros headers_ rows_ Hheader Hrows Hlast Hall.
  assert (Hlines : Forall (λ line, 10%N ∉ line)
                     (join [44%N] <$> headers_ :: rows_)).
  { apply Forall_fmap. eapply Forall_impl; [done|].
    intros row [_ Hrow]. by apply plain_line in Hrow as (_ & _ & ? & _). }
  assert (Hparse : ∀ row, row ∈ headers_ :: rows_ →
                     parseCells (join [44%N] row) = row).
  { intros row Hrow.
    apply (proj1 (Forall_forall _ _) Hall) in Hrow as [Hne Hrow].
    apply plain_line in Hrow as (_ & _ & _ & ->). by destruct row. }
  assert (Htrim : trim (join [10%N] (join [44%N] <$> headers_ :: rows_))
                  = join [10%N] (join [44%N] <$> headers_ :: rows_)).
  { apply trim_tight.
    - rewrite fmap_cons.
      rewrite join_head.
      apply Forall_cons in Hall as [[Hne Hplain] _].
      destruct (join [44%N] headers_) as [|c0 line] eqn:Hline.
      + apply join_nil in Hline as [?|?]; done.
      + intros c [= <-].
        apply plain_line in Hplain as (Hhead & _). apply Hhead.
        by rewrite Hline.
    - destruct rows_ as [|row rows_ _] using rev_ind; [done|].
      rewrite last_snoc in Hlast.
      rewrite app_comm_cons, fmap_app. cbn [fmap list_fmap].
      rewrite join_snoc by done. rewrite !rev_app_distr.
      apply Forall_cons in Hall as [_ Hall].
      apply Forall_app in Hall as [_ [[Hne Hplain] _]%Forall_cons].
      destruct (join [44%N] row) as [|c0 line] eqn:Hline.
      + apply join_nil in Hline as [?|?]; [done|]. congruence.
      + apply plain_line in Hplain as (_ & Hend & _). rewrite Hline in Hend.
        destruct (rev (c0 :: line)) as [|d r] eqn:Hrev.
        * by apply (f_equal length) in Hrev; rewrite length_rev in Hrev.
        * cbn [app head]. intros c [= <-]. by apply Hend. }
  unfold parseCSV. rewrite Htrim, split_join by done.
  rewrite fmap_cons. cbn [length head default drop].
  destruct rows_ as [|row rows_]; [done|]. cbn [fmap list_fmap length Nat.ltb Nat.leb].
  f_equal. f_equal.
  - apply (Hparse headers_). by left.
  - rewrite drop_0.
    change (join [44%N] row :: (join [44%N] <$> rows_))
      with (join [44%N] <$> row :: rows_).
    rewrite <- list_fmap_compose.
    rewrite <- (list_fmap_id (row :: rows_)) at 2.
    apply list_fmap_ext. intros _ r Hr%list_elem_of_lookup_2.
    cbn. apply Hparse. by right.
Qed.

End FileUploadFacts.

(** ** The application *)

Section AppFacts.

Import App.







End AppFacts.

(** ** Instances of the further properties *)

(** The pair of rows with key ["1"] of the two tables with a repeated
    key. *)
Lemma paired_rows_share_key_witness :
  let r :=
    matchedRow defaultSettings idMapping
      (rowData (headers duplicateSource) [js "1.00"; js "second"])
      (rowData (headers duplicateCompare) [js "1"; js "other"]) in
  r ∈ results defaultSettings duplicateSource duplicateCompare idMapping
  ∧ type r ∈ [Match; Different]
  ∧ ∃ sourceRow compareRow,
      sourceRow ∈ rows duplicateSource ∧ compareRow ∈ rows duplicateCompare
      ∧ sourceData r = Some (rowData (headers duplicateSource) sourceRow)
      ∧ compareData r = Some (rowData (headers duplicateCompare) compareRow)
      ∧ keyOf defaultSettings sourceColumn idMapping
          (rowData (headers duplicateSource) sourceRow)
        = keyOf defaultSettings compareColumn idMapping
            (rowData (headers duplicateCompare) compareRow).
Proof.
  cbn zeta. set (r := matchedRow defaultSettings idMapping _ _).
  assert (Hin : r ∈ results defaultSettings duplicateSource duplicateCompare idMapping)
    by (vm_compute; apply list_elem_of_here).
  assert (Ht : type r ∈ [Match; Different])
    by (vm_compute; apply list_elem_of_here).
  split; [done|]. split; [done|].
  exact (paired_rows_share_key defaultSettings duplicateSource duplicateCompare
           idMapping r Hin Ht).
Defined.

(** The source row with key ["2"], which the compare table lacks. *)
Lemma missing_in_compare_sound_witness :
  let r := missingInCompareRow (rowData (headers duplicateSource) [js "2"; js "third"]) in
  r ∈ results defaultSettings duplicateSource duplicateCompare idMapping
  ∧ type r = MissingInCompare
  ∧ ∃ sourceRow,
      sourceRow ∈ rows duplicateSource
      ∧ sourceData r = Some (rowData (headers duplicateSource) sourceRow)
      ∧ compareData r = None
      ∧ ∀ compareRow, compareRow ∈ rows duplicateCompare →
          keyOf defaultSettings compareColumn idMapping
            (rowData (headers duplicateCompare) compareRow)
          ≠ keyOf defaultSettings sourceColumn idMapping
              (rowData (headers duplicateSource) sourceRow).
Proof.
  cbn zeta. set (r := missingInCompareRow _).
  assert (Hin : r ∈ results defaultSettings duplicateSource duplicateCompare idMapping)
    by (vm_compute; apply list_elem_of_further, list_elem_of_here).
  split; [done|]. split; [done|].
  exact (missing_in_compare_sound defaultSettings duplicateSource duplicateCompare
           idMapping r Hin eq_refl).
Defined.

(** The same two tables with their roles exchanged. *)
Lemma missing_in_source_sound_witness :
  let r := missingInSourceRow (rowData (headers duplicateSource) [js "2"; js "third"]) in
  r ∈ results defaultSettings duplicateCompare duplicateSource idMapping
  ∧ type r = MissingInSource
  ∧ ∃ compareRow,
      compareRow ∈ rows duplicateSource
      ∧ compareData r = Some (rowData (headers duplicateSource) compareRow)
      ∧ sourceData r = None
      ∧ ∀ sourceRow, sourceRow ∈ rows duplicateCompare →
          keyOf defaultSettings sourceColumn idMapping
            (rowData (headers duplicateCompare) sourceRow)
          ≠ keyOf defaultSettings compareColumn idMapping
              (rowData (headers duplicateSource) compareRow).
Proof.
  cbn zeta. set (r := missingInSourceRow _).
  assert (Hin : r ∈ results defaultSettings duplicateCompare duplicateSource idMapping)
    by (vm_compute; apply list_elem_of_further, list_elem_of_here).
  split; [done|]. split; [done|].
  exact (missing_in_source_sound defaultSettings duplicateCompare duplicateSource
           idMapping r Hin eq_refl).
Defined.

Lemma valuesAreEqual_reflexive_witness :
  0 <= numericPrecision defaultSettings <= 323
  ∧ valuesAreEqual defaultSettings (js "abc") (js "abc")
    = negb (isInfinite
              (parseFloat
                 (normalizeValue defaultSettings (js "abc")
                    (Some (numericPrecision defaultSettings))
                    (Some (ignoreCase defaultSettings))))).
Proof.
  assert (Hp : 0 <= numericPrecision defaultSettings <= 323) by (cbn; lia).
  split; [done|].
  exact (proj1 valuesAreEqual_reflexive defaultSettings (js "abc") Hp).
Defined.

Lemma keys_equal_iff_cells_equal_witness :
  let sourceRow := rowData (headers duplicateSource) [js "1.00"; js "second"] in
  let compareRow := rowData (headers duplicateCompare) [js "1"; js "other"] in
  Forall (λ m, separator ∉ normalizedCell defaultSettings sourceColumn sourceRow m)
    idMapping
  ∧ Forall (λ m, separator ∉ normalizedCell defaultSettings compareColumn compareRow m)
      idMapping
  ∧ ((keyOf defaultSettings sourceColumn idMapping sourceRow
      = keyOf defaultSettings compareColumn idMapping compareRow)
     ↔ Forall (λ m, normalizedCell defaultSettings sourceColumn sourceRow m
                    = normalizedCell defaultSettings compareColumn compareRow m)
         idMapping).
Proof.
  cbn zeta.
  set (sourceRow := rowData (headers duplicateSource) _).
  set (compareRow := rowData (headers duplicateCompare) _).
  assert (Hs : Forall (λ m, separator ∉ normalizedCell defaultSettings sourceColumn
                                          sourceRow m) idMapping).
  { apply Forall_singleton. apply (bool_decide_unpack _). by vm_compute. }
  assert (Hc : Forall (λ m, separator ∉ normalizedCell defaultSettings compareColumn
                                          compareRow m) idMapping).
  { apply Forall_singleton. apply (bool_decide_unpack _). by vm_compute. }
  split; [done|]. split; [done|].
  exact (keys_equal_iff_cells_equal defaultSettings idMapping sourceRow compareRow
           Hs Hc).
Defined.

Lemma no_difference_without_separator_witness :
  0 <= numericPrecision defaultSettings <= 323
  ∧ (∀ row m, row ∈ rows duplicateSource → m ∈ idMapping →
       let cell := normalizedCell defaultSettings sourceColumn
                     (rowData (headers duplicateSource) row) m in
       (separator ∉ cell) ∧ isInfinite (parseFloat cell) = false)
  ∧ (∀ row m, row ∈ rows duplicateCompare → m ∈ idMapping →
       separator ∉ normalizedCell defaultSettings compareColumn
                     (rowData (headers duplicateCompare) row) m)
  ∧ countType Different
      (results defaultSettings duplicateSource duplicateCompare idMapping)
    = 0%nat.
Proof.
  assert (Hp : 0 <= numericPrecision defaultSettings <= 323) by (cbn; lia).
  assert (Hs : ∀ row m, row ∈ rows duplicateSource → m ∈ idMapping →
             let cell := normalizedCell defaultSettings sourceColumn
                           (rowData (headers duplicateSource) row) m in
             (separator ∉ cell) ∧ isInfinite (parseFloat cell) = false).
  { intros row m Hrow ->%list_elem_of_singleton. cbn zeta.
    repeat (apply elem_of_cons in Hrow as [->|Hrow]);
      [| | |by apply elem_of_nil in Hrow];
      (split; [apply (bool_decide_unpack _)|]; by vm_compute). }
  assert (Hc : ∀ row m, row ∈ rows duplicateCompare → m ∈ idMapping →
             separator ∉ normalizedCell defaultSettings compareColumn
                           (rowData (headers duplicateCompare) row) m).
  { intros row m ->%list_elem_of_singleton ->%list_elem_of_singleton.
    apply (bool_decide_unpack _). by vm_compute. }
  split; [done|]. split; [done|]. split; [done|].
  exact (no_difference_without_separator defaultSettings duplicateSource
           duplicateCompare idMapping Hp Hs Hc).
Defined.

Lemma ignoreCase_ignores_case_witness :
  let normalized v :=
    normalizeValue defaultSettings v
      (Some (numericPrecision defaultSettings)) (Some true) in
  ignoreCase defaultSettings = true
  ∧ normalized (toLowerCase (js "ABC")) = normalized (js "ABC")
  ∧ valuesAreEqual defaultSettings (toLowerCase (js "ABC")) (js "abc")
    = valuesAreEqual defaultSettings (js "ABC") (js "abc")
  ∧ (0 <= numericPrecision defaultSettings <= 323 →
     toLowerCase (js "ABC") = toLowerCase (js "abc") →
     valuesAreEqual defaultSettings (js "ABC") (js "abc")
       = negb (isInfinite (parseFloat (normalized (js "ABC"))))).
Proof.
  cbn zeta. split; [reflexivity|].
  exact (ignoreCase_ignores_case defaultSettings (js "ABC") (js "abc") eq_refl).
Defined.

Lemma trimWhitespace_ignores_padding_witness :
  trimWhitespace defaultSettings = true
  ∧ forallb isWhiteSpace (js " ") = true
  ∧ normalizeValue defaultSettings (js " " ++ js "a" ++ js " ") None None
    = normalizeValue defaultSettings (js "a") None None
  ∧ valuesAreEqual defaultSettings (js " " ++ js "a" ++ js " ") (js "A")
    = valuesAreEqual defaultSettings (js "a") (js "A").
Proof.
  assert (Hws : forallb isWhiteSpace (js " ") = true) by (by vm_compute).
  split; [reflexivity|]. split; [done|].
  exact (trimWhitespace_ignores_padding defaultSettings (js " ") (js " ") (js "a")
           (js "A") None None eq_refl Hws Hws).
Defined.


(** The mapper of the headers id, name and ID, Name, as it is mounted. *)
Lemma mapper_output_well_formed_witness :
  let sourceHeaders := [js "id"; js "name"] in
  let compareHeaders := [js "ID"; js "Name"] in
  let st := ColumnMapper.initial sourceHeaders compareHeaders in
  let columnMappings := [mapping "id" "ID"; mapping "name" "Name"] in
  ColumnMapper.reachable sourceHeaders compareHeaders st
  ∧ ColumnMapper.handleProceed st = Some columnMappings
  ∧ columnMappings ≠ []
  ∧ Forall (λ m, sourceColumn m ∈ sourceHeaders
                 ∧ compareColumn m ∈ compareHeaders) columnMappings
  ∧ (NoDup sourceHeaders → NoDup (sourceColumn <$> columnMappings)).
Proof.
  cbn zeta.
  assert (Hreach : ColumnMapper.reachable [js "id"; js "name"] [js "ID"; js "Name"]
                     (ColumnMapper.initial [js "id"; js "name"]
                        [js "ID"; js "Name"])) by apply rtc_refl.
  assert (Hproceed : ColumnMapper.handleProceed
                       (ColumnMapper.initial [js "id"; js "name"]
                          [js "ID"; js "Name"])
                     = Some [mapping "id" "ID"; mapping "name" "Name"])
    by (by vm_compute).
  split; [done|]. split; [done|].
  exact (mapper_output_well_formed [js "id"; js "name"] [js "ID"; js "Name"] _ _
           Hreach Hproceed).
Defined.

Lemma compare_columns_stay_distinct_witness :
  let sourceHeaders := [js "id"; js "name"] in
  let compareHeaders := [js "ID"; js "Name"] in
  let st := ColumnMapper.initial sourceHeaders compareHeaders in
  ColumnMapper.reachable sourceHeaders compareHeaders st
  ∧ NoDup (compareColumn <$> ColumnMapper.autoMappings sourceHeaders compareHeaders)
  ∧ NoDup (compareColumn <$> ColumnMapper.mappings st).
Proof.
  cbn zeta.
  assert (Hreach : ColumnMapper.reachable [js "id"; js "name"] [js "ID"; js "Name"]
                     (ColumnMapper.initial [js "id"; js "name"]
                        [js "ID"; js "Name"])) by apply rtc_refl.
  assert (Hnd : NoDup (compareColumn
                         <$> ColumnMapper.autoMappings [js "id"; js "name"]
                               [js "ID"; js "Name"]))
    by (apply (bool_decide_unpack _); by vm_compute).
  split; [done|]. split; [done|].
  exact (proj1 compare_columns_stay_distinct [js "id"; js "name"]
           [js "ID"; js "Name"] _ Hreach Hnd).
Defined.

(** The source column id is selected and nothing is mapped yet. *)
Lemma map_then_unmap_witness :
  let st := {| ColumnMapper.mappings := [];
               ColumnMapper.selectedSourceColumn := Some (js "id") |} in
  ColumnMapper.selectedSourceColumn st = Some (js "id")
  ∧ js "id" ≠ []
  ∧ ColumnMapper.getMappedCompareColumn
      (ColumnMapper.handleCompareColumnClick st (js "ID")) (js "id")
    = Some (js "ID")
  ∧ ColumnMapper.selectedSourceColumn
      (ColumnMapper.handleCompareColumnClick st (js "ID")) = None
  ∧ (∀ other, other ≠ js "id" →
       ColumnMapper.getMappedCompareColumn
         (ColumnMapper.handleCompareColumnClick st (js "ID")) other
       = ColumnMapper.getMappedCompareColumn st other).
Proof.
  cbn zeta.
  assert (Hne : js "id" ≠ []) by (by vm_compute).
  split; [reflexivity|]. split; [done|].
  exact (proj1 map_then_unmap
           {| ColumnMapper.mappings := [];
              ColumnMapper.selectedSourceColumn := Some (js "id") |}
           (js "id") (js "ID") eq_refl Hne).
Defined.




(** The view of the rows of the two tables with a repeated key, as it
    is mounted. *)
Lemma pages_split_the_rows_witness :
  let results_ := results defaultSettings duplicateSource duplicateCompare idMapping in
  let st := ComparisonResults.initial in
  ComparisonResults.itemsPerPage st ∈ [10; 25; 50; 100]
  ∧ mjoin ((λ page, ComparisonResults.paginatedResults results_
                      (ComparisonResults.handlePageChange st page))
             <$> seqZ 1 (ComparisonResults.totalPages results_ st))
    = ComparisonResults.filteredResults results_ st
  ∧ ∀ page,
      Z.of_nat (length (ComparisonResults.paginatedResults results_
                          (ComparisonResults.handlePageChange st page)))
      ≤ ComparisonResults.itemsPerPage st.
Proof.
  cbn zeta.
  assert (Hitems : ComparisonResults.itemsPerPage ComparisonResults.initial
                   ∈ [10; 25; 50; 100])
    by (apply (bool_decide_unpack _); by vm_compute).
  split; [done|].
  exact (pages_split_the_rows
           (results defaultSettings duplicateSource duplicateCompare idMapping)
           ComparisonResults.initial Hitems).
Defined.

Lemma shown_page_is_never_empty_witness :
  let results_ := results defaultSettings duplicateSource duplicateCompare idMapping in
  let st := ComparisonResults.initial in
  ComparisonResults.reachable results_ st
  ∧ ComparisonResults.filteredResults results_ st ≠ []
  ∧ 1 ≤ ComparisonResults.currentPage st ≤ ComparisonResults.totalPages results_ st
  ∧ ComparisonResults.paginatedResults results_ st ≠ [].
Proof.
  cbn zeta.
  assert (Hreach : ComparisonResults.reachable
                     (results defaultSettings duplicateSource duplicateCompare
                        idMapping) ComparisonResults.initial) by apply rtc_refl.
  assert (Hne : ComparisonResults.filteredResults
                  (results defaultSettings duplicateSource duplicateCompare
                     idMapping) ComparisonResults.initial ≠ [])
    by (by vm_compute).
  split; [done|]. split; [done|].
  exact (shown_page_is_never_empty _ _ Hreach Hne).
Defined.

Lemma page_buttons_witness :
  1 ≤ 6 ≤ 10
  ∧ (∃ first count,
       ComparisonResults.topPageButtons 10 6 = seqZ first count
       ∧ 1 ≤ first ≤ 6
       ∧ 6 < first + count ≤ 10 + 1
       ∧ (ComparisonResults.topLastPageButton 10 6 = true
          ↔ first + count ≤ 10))
  ∧ (∃ first count,
       ComparisonResults.bottomPageButtons 10 6 = seqZ first count
       ∧ 1 ≤ first ≤ 6
       ∧ 6 < first + count ≤ 10 + 1
       ∧ (ComparisonResults.bottomLastPageButton 10 6 = true
          ↔ first + count ≤ 10)).
Proof.
  assert (Hpage : 1 ≤ 6 ≤ 10) by lia.
  split; [done|]. exact (proj1 page_buttons 10 6 Hpage).
Defined.

(** The row of the two tables with shifted separators, which is of
    type different. *)
Lemma different_rows_show_a_difference_witness :
  let r :=
    matchedRow defaultSettings shiftedMapping
      (rowData (headers shiftedSource) [js "p|q"; js "r"])
      (rowData (headers shiftedCompare) [js "p"; js "q|r"]) in
  let st := ComparisonResults.initial in
  NoDup (sourceColumn <$> shiftedMapping)
  ∧ r ∈ results defaultSettings shiftedSource shiftedCompare shiftedMapping
  ∧ ComparisonResults.showDifferences st = true
  ∧ (type r = Different
     ↔ ∃ column source_ compare_,
         column ∈ ComparisonResults.allColumns shiftedMapping
         ∧ ComparisonResults.cell shiftedMapping st r column
           = ComparisonResults.Both source_ compare_).
Proof.
  cbn zeta. set (r := matchedRow defaultSettings shiftedMapping _ _).
  assert (Hnd : NoDup (sourceColumn <$> shiftedMapping))
    by (apply (bool_decide_unpack _); by vm_compute).
  assert (Hin : r ∈ results defaultSettings shiftedSource shiftedCompare
                      shiftedMapping)
    by (vm_compute; apply list_elem_of_here).
  split; [done|]. split; [done|]. split; [reflexivity|].
  exact (different_rows_show_a_difference defaultSettings shiftedSource
           shiftedCompare shiftedMapping ComparisonResults.initial r Hnd Hin
           eq_refl).
Defined.

(** A file of a header and one row. *)
Lemma parseCSV_outcome_witness :
  let content := js "id,name" ++ [10%N] ++ js "1,first" in
  10%N ∈ trim content
  ∧ ∃ data, FileUpload.parseCSV content = inr data
      ∧ length (rows data) = length (filter (λ c, c = 10%N) (trim content))
      ∧ Forall (λ row, row ≠ []
                       ∧ Forall (λ cell, (44%N ∉ cell) ∧ (10%N ∉ cell)) row)
          (headers data :: rows data).
Proof.
  cbn zeta.
  assert (Hin : 10%N ∈ trim (js "id,name" ++ [10%N] ++ js "1,first"))
    by (apply (bool_decide_unpack _); by vm_compute).
  split; [done|].
  exact (proj2 (parseCSV_outcome (js "id,name" ++ [10%N] ++ js "1,first")) Hin).
Defined.

Lemma parseCSV_round_trip_witness :
  let headers_ := [js "id"; js "name"] in
  let rows_ := [[js "1"; js "first"]; [js "2"; js ""]] in
  headers_ ≠ [[]]
  ∧ rows_ ≠ []
  ∧ last rows_ ≠ Some [[]]
  ∧ Forall (λ row, row ≠ []
                   ∧ Forall (λ cell, FileUpload.plain cell = true) row)
      (headers_ :: rows_)
  ∧ FileUpload.parseCSV (join [10%N] (join [44%N] <$> headers_ :: rows_))
    = inr {| headers := headers_; rows := rows_ |}.
Proof.
  cbn zeta.
  assert (Hall : Forall (λ row, row ≠ []
                                ∧ Forall (λ cell, FileUpload.plain cell = true) row)
                   ([js "id"; js "name"]
                    :: [[js "1"; js "first"]; [js "2"; js ""]])).
  { apply (bool_decide_unpack _). by vm_compute. }
  split; [done|]. split; [done|]. split; [done|]. split; [done|].
  exact (proj1 parseCSV_round_trip [js "id"; js "name"]
           [[js "1"; js "first"]; [js "2"; js ""]]
           ltac:(done) ltac:(done) ltac:(done) Hall).
Defined.



(** The first column of the row of the two tables with shifted
    separators. *)
Lemma cells_show_the_files_witness :
  let r :=
    matchedRow defaultSettings shiftedMapping
      (rowData (headers shiftedSource) [js "p|q"; js "r"])
      (rowData (headers shiftedCompare) [js "p"; js "q|r"]) in
  let st := ComparisonResults.initial in
  let m := mapping "a" "x" in
  let sourceValue :=
    orEmpty (sourceData r ≫= (λ d : record, d !! sourceColumn m)) in
  let compareValue :=
    orEmpty (compareData r ≫= (λ d : record, d !! compareColumn m)) in
  NoDup (sourceColumn <$> shiftedMapping)
  ∧ r ∈ results defaultSettings shiftedSource shiftedCompare shiftedMapping
  ∧ m ∈ shiftedMapping
  ∧ ComparisonResults.cell shiftedMapping st r (sourceColumn m)
    = match type r with
      | MissingInCompare => ComparisonResults.Single sourceValue
      | MissingInSource => ComparisonResults.Single compareValue
      | _ =>
          if negb (valuesAreEqual defaultSettings sourceValue compareValue)
             && ComparisonResults.showDifferences st
          then ComparisonResults.Both
                 (ComparisonResults.orText sourceValue (js "(empty)"))
                 (ComparisonResults.orText compareValue (js "(empty)"))
          else ComparisonResults.Single
                 (ComparisonResults.orText sourceValue
                    (ComparisonResults.orText compareValue (js "(empty)")))
      end.
Proof.
  cbn zeta. set (r := matchedRow defaultSettings shiftedMapping _ _).
  assert (Hnd : NoDup (sourceColumn <$> shiftedMapping))
    by (apply (bool_decide_unpack _); by vm_compute).
  assert (Hin : r ∈ results defaultSettings shiftedSource shiftedCompare
                      shiftedMapping)
    by (vm_compute; apply list_elem_of_here).
  assert (Hm : mapping "a" "x" ∈ shiftedMapping) by apply list_elem_of_here.
  split; [done|]. split; [done|]. split; [done|].
  exact (cells_show_the_files defaultSettings shiftedSource shiftedCompare
           shiftedMapping ComparisonResults.initial r (mapping "a" "x")
           Hnd Hin Hm).
Defined.
